(** * Sync engine of stringplay-core: a shallow embedding of
      [services/sync.ts] ([SyncTroupe]) and the properties of its
      specification.

    Conventions of the embedding.
    - An [ObjectId] and its hexadecimal rendering are identified
      ([toHexString] and [new ObjectId(hex)] are mutually inverse); both are
      a [nat].  [new ObjectId()] draws from a counter kept in the state.
    - JavaScript numbers that only ever hold counters are [Z]; the
      dashboard statistics, which also hold quotients, [undefined] and
      [NaN], are [jsnum] (exact rationals for the finite values).
    - A JavaScript object that the code iterates with [for ... in] is an
      insertion-ordered association list ([jsobj]); one that is only read
      and written by key is a [gmap].  (JavaScript enumerates keys that
      read as integers before the others; no statement below depends on the
      order of enumeration.)
    - The MongoDB collections are [gmap]s keyed by [_id] (the dashboards by
      [troupeId], the only key they are queried with).
    - A raised exception is [Throw]; loops that the code runs until a
      condition fails take fuel and answer [OutOfFuel] when it is spent,
      which no [try]/[catch] intercepts. *)

From Stdlib Require Import ZArith QArith Qcanon Qround.
From stdpp Require Import base option list gmap strings fin_maps sorting pretty.

Close Scope Q_scope.
Close Scope Qc_scope.
Local Open Scope Z_scope.

(** ** Outcomes of effectful code *)

Inductive error :=
| AssertionError (msg : string)
| TypeError
| ExternalError.

Inductive outcome (A : Type) :=
| Ok (a : A)
| Throw (e : error)
| OutOfFuel.
Arguments Ok {A} a.
Arguments Throw {A} e.
Arguments OutOfFuel {A}.

#[global] Instance outcome_ret : MRet outcome := λ A a, Ok a.
#[global] Instance outcome_bind : MBind outcome := λ A B f m,
  match m with
  | Ok a => f a
  | Throw e => Throw e
  | OutOfFuel => OutOfFuel
  end.

(** The code came to an end, by returning or by raising. *)
Definition settles {A} (o : outcome A) : Prop := o ≠ OutOfFuel.

(** [assert(cond, msg)] *)
Definition assert (cond : bool) (msg : string) : outcome unit :=
  if cond then Ok tt else Throw (AssertionError msg).

(** Reading a member of [undefined] raises a [TypeError]. *)
Definition deref {A} (o : option A) : outcome A :=
  match o with
  | Some a => Ok a
  | None => Throw TypeError
  end.

(** ** JavaScript objects iterated in insertion order *)

Definition jsobj (K V : Type) := list (K * V).

Section jsobj.
Context {K V : Type} `{EqDecision K}.

Fixpoint jsobj_get (k : K) (o : jsobj K V) : option V :=
  match o with
  | [] => None
  | (k', v) :: o' => if decide (k = k') then Some v else jsobj_get k o'
  end.

(** [o[k] = v]: an existing key keeps its position, a new one goes last. *)
Fixpoint jsobj_set (k : K) (v : V) (o : jsobj K V) : jsobj K V :=
  match o with
  | [] => [(k, v)]
  | (k', v') :: o' =>
      if decide (k = k') then (k, v) :: o' else (k', v') :: jsobj_set k v o'
  end.

(** [k in o] *)
Definition jsobj_has (k : K) (o : jsobj K V) : bool :=
  bool_decide (is_Some (jsobj_get k o)).

Definition jsobj_keys (o : jsobj K V) : list K := o.*1.
Definition jsobj_values (o : jsobj K V) : list V := o.*2.
End jsobj.

(** ** JavaScript numbers of the dashboard *)

Inductive jsnum :=
| JUndefined
| JNaN
| JInfinity (negative : bool)
| JNum (q : Qc).

Definition JZ (z : Z) : jsnum := JNum (Q2Qc (inject_Z z)).

(** [x + y] *)
Definition js_add (x y : jsnum) : jsnum :=
  match x, y with
  | JNum a, JNum b => JNum (a + b)%Qc
  | JInfinity s, JNum _ | JNum _, JInfinity s => JInfinity s
  | JInfinity s, JInfinity s' => if bool_decide (s = s') then JInfinity s else JNaN
  | _, _ => JNaN
  end.

(** [x / y], which never raises: a zero divisor gives an infinity or [NaN]. *)
Definition js_div (x y : jsnum) : jsnum :=
  match x, y with
  | JNum a, JNum b =>
      if bool_decide (b = 0%Qc) then
        if bool_decide (a = 0%Qc) then JNaN
        else JInfinity (bool_decide (a < 0)%Qc)
      else JNum (a / b)%Qc
  | JInfinity s, JNum b => JInfinity (xorb s (bool_decide (b < 0)%Qc))
  | JNum _, JInfinity _ => JNum 0%Qc
  | _, _ => JNaN
  end.

(** [x > 0] *)
Definition js_gt0 (x : jsnum) : bool :=
  match x with
  | JNum a => bool_decide (0 < a)%Qc
  | JInfinity s => negb s
  | _ => false
  end.

(** [Math.round(x)]: the nearest integer, halves going up. *)
Definition Math_round (x : jsnum) : jsnum :=
  match x with
  | JNum a => JZ (Qfloor (a + Q2Qc (1 # 2))%Qc)
  | JUndefined => JNaN
  | other => other
  end.

(** ** Documents ([types/core-types]) *)

Definition oid := nat.

Record EventTypeSchema := {
  et_id : oid;
  et_title : string;
  et_value : Z;
  sourceFolderUris : list string;
}.

(** [DiscoveryEventType]: [{ ...eventType, totalFiles }] *)
Record DiscoveryEventType := {
  eventType : EventTypeSchema;
  totalFiles : Z;
}.

Record EventSchema := {
  ev_id : oid;
  ev_troupeId : oid;
  ev_lastUpdated : Z;
  ev_title : string;
  source : string;
  synchronizedSource : string;
  sourceUri : string;
  synchronizedSourceUri : string;
  startDate : Z;
  eventTypeId : option oid;
  eventTypeTitle : option string;
  ev_value : Z;
  fieldToPropertyMap : gmap string string;
  synchronizedFieldToPropertyMap : gmap string string;
}.

(** Values of member properties; a [Date] is its time stamp. *)
Inductive MemberPropertyValue :=
| PUndefined
| PString (s : string)
| PNumber (n : Z)
| PBoolean (b : bool)
| PDate (t : Z).

(** Truthiness, as [!value] and [value && ...] test it. *)
Definition truthy (v : MemberPropertyValue) : bool :=
  match v with
  | PUndefined => false
  | PString s => negb (bool_decide (s = ""%string))
  | PNumber n => negb (bool_decide (n = 0))
  | PBoolean b => b
  | PDate _ => true
  end.

Record MemberProperty := {
  value : MemberPropertyValue;
  override : bool;
}.

Record MemberSchema := {
  m_id : oid;
  m_troupeId : oid;
  m_lastUpdated : Z;
  properties : gmap string MemberProperty;
  points : gmap string Z;
}.

(** One attendance record, as the delegates accumulate them. *)
Record EventAttended := {
  eventId : oid;
  typeId : option oid;
  ea_value : Z;
  ea_startDate : Z;
}.

(** The entry a bucket stores under the event's id. *)
Record BucketEvent := {
  be_typeId : option oid;
  be_value : Z;
  be_startDate : Z;
}.

Record EventsAttendedBucketSchema := {
  b_id : oid;
  b_troupeId : oid;
  memberId : oid;
  page : nat;
  events : gmap oid BucketEvent;
}.

Record TroupeSchema := {
  t_id : oid;
  syncLock : bool;
  logSheetUri : string;
  eventTypes : list EventTypeSchema;
  memberPropertyTypes : jsobj string string;
  pointTypes : list string;
}.

Record TroupeLimit := {
  eventsLeft : Z;
  sourceFolderUrisLeft : Z;
  membersLeft : Z;
}.

(** Dashboard documents *)

Record Stat := {
  s_title : string;
  s_value : jsnum;
}.

Record PercentStat := {
  p_title : string;
  p_value : jsnum;
  percent : jsnum;
}.

Record BirthdayEntry := {
  bd_id : oid;
  firstName : MemberPropertyValue;
  lastName : MemberPropertyValue;
  birthday : MemberPropertyValue;
}.

Record UpcomingBirthdays := {
  frequency : string;
  desiredFrequency : string;
  members : list BirthdayEntry;
}.

Record TroupeDashboardSchema := {
  d_lastUpdated : Z;
  upcomingBirthdays : UpcomingBirthdays;
  totalMembers : Z;
  totalEvents : Z;
  totalEventTypes : Z;
  totalAttendees : jsnum;
  totalAttendeesByEventType : gmap oid Stat;
  totalEventsByEventType : gmap oid Stat;
  avgAttendeesPerEvent : jsnum;
  avgAttendeesByEventType : gmap oid Stat;
  attendeePercentageByEventType : gmap oid PercentStat;
  eventPercentageByEventType : gmap oid PercentStat;
}.

(** ** The database ([BaseDbService]) *)

Record Db := {
  troupeColl : gmap oid TroupeSchema;
  dashboardColl : gmap oid TroupeDashboardSchema;
  eventColl : gmap oid EventSchema;
  audienceColl : gmap oid MemberSchema;
  eventsAttendedColl : gmap oid EventsAttendedBucketSchema;
  limitColl : gmap oid TroupeLimit;
}.

(** ** In-memory state of one [SyncTroupe] ([types/service-types]) *)

Record EventData := {
  event : EventSchema;
  ed_fromColl : bool;
}.

Record MemberData := {
  member : MemberSchema;
  eventsAttended : list EventAttended;
  eventsAttendedDocs : list EventsAttendedBucketSchema;
  delete_ : bool;
  fromColl : bool;
}.

(** The fields of [this].  [troupe], [dashboard] and [currentLimits] are the
    documents [sync] loads (and asserts to exist) before it runs the steps. *)
Record SyncTroupe := {
  troupe : TroupeSchema;
  dashboard : TroupeDashboardSchema;
  currentLimits : TroupeLimit;
  eventMap : jsobj string EventData;
  attendeeMap : jsobj string MemberData;
  incrementLimits : TroupeLimit;
  nextObjectId : oid;
}.

Definition set_eventMap (f : jsobj string EventData → jsobj string EventData)
    (this : SyncTroupe) : SyncTroupe :=
  {| troupe := troupe this; dashboard := dashboard this;
     currentLimits := currentLimits this; eventMap := f (eventMap this);
     attendeeMap := attendeeMap this; incrementLimits := incrementLimits this;
     nextObjectId := nextObjectId this |}.

Definition set_attendeeMap (f : jsobj string MemberData → jsobj string MemberData)
    (this : SyncTroupe) : SyncTroupe :=
  {| troupe := troupe this; dashboard := dashboard this;
     currentLimits := currentLimits this; eventMap := eventMap this;
     attendeeMap := f (attendeeMap this); incrementLimits := incrementLimits this;
     nextObjectId := nextObjectId this |}.

Definition set_incrementLimits (f : TroupeLimit → TroupeLimit)
    (this : SyncTroupe) : SyncTroupe :=
  {| troupe := troupe this; dashboard := dashboard this;
     currentLimits := currentLimits this; eventMap := eventMap this;
     attendeeMap := attendeeMap this; incrementLimits := f (incrementLimits this);
     nextObjectId := nextObjectId this |}.

Definition set_dashboard (f : TroupeDashboardSchema → TroupeDashboardSchema)
    (this : SyncTroupe) : SyncTroupe :=
  {| troupe := troupe this; dashboard := f (dashboard this);
     currentLimits := currentLimits this; eventMap := eventMap this;
     attendeeMap := attendeeMap this; incrementLimits := incrementLimits this;
     nextObjectId := nextObjectId this |}.

(** [new ObjectId()] *)
Definition newObjectId (this : SyncTroupe) : oid * SyncTroupe :=
  (nextObjectId this,
   {| troupe := troupe this; dashboard := dashboard this;
      currentLimits := currentLimits this; eventMap := eventMap this;
      attendeeMap := attendeeMap this; incrementLimits := incrementLimits this;
      nextObjectId := S (nextObjectId this) |}).

Definition take_event (l : TroupeLimit) : TroupeLimit :=
  {| eventsLeft := eventsLeft l - 1;
     sourceFolderUrisLeft := sourceFolderUrisLeft l;
     membersLeft := membersLeft l |}.

Definition take_sourceFolderUri (l : TroupeLimit) : TroupeLimit :=
  {| eventsLeft := eventsLeft l;
     sourceFolderUrisLeft := sourceFolderUrisLeft l - 1;
     membersLeft := membersLeft l |}.

(** A monadic left fold: the body of a [for ... of] loop run over a list. *)
Fixpoint for_of {A S : Type} (body : A → S → outcome S) (l : list A) (s : S)
    : outcome S :=
  match l with
  | [] => Ok s
  | a :: l' => s' ← body a s; for_of body l' s'
  end.

(** ** [discoverEvents] *)

(** Entries of a Drive listing, [files(id, name, mimeType)]. *)
Record DriveFile := {
  f_id : string;
  f_name : string;
  mimeType : string;
  createdTime : option Z;
}.

(** What [drive.files.list] answers: it raises, or its [data.files] is
    missing, or it is an array. *)
Inductive Listing :=
| ListingFails
| ListingWithoutFiles
| ListingFiles (files : list DriveFile).

(** The local variables of [discoverEvents] next to [this].  The
    [DiscoveryEventType] objects live in [discoveryEventTypes], one per event
    type of the troupe and in that order; a reference to one is its index, so
    that [!=] on references is [≠] on indices.  [foldersToExplore] and
    [discoveredFolders] keep the most recently pushed element first:
    [push] is [::] and [pop] takes the head. *)
Record Discovery := {
  this_ : SyncTroupe;
  discoveryEventTypes : list DiscoveryEventType;
  folderToEventTypeMap : gmap string nat;
  foldersToExplore : list string;
  discoveredFolders : list string;
  driveCalls : nat;
}.

Definition set_this (f : SyncTroupe → SyncTroupe) (d : Discovery) : Discovery :=
  {| this_ := f (this_ d); discoveryEventTypes := discoveryEventTypes d;
     folderToEventTypeMap := folderToEventTypeMap d;
     foldersToExplore := foldersToExplore d;
     discoveredFolders := discoveredFolders d; driveCalls := driveCalls d |}.

Definition set_discoveryEventTypes
    (f : list DiscoveryEventType → list DiscoveryEventType) (d : Discovery)
    : Discovery :=
  {| this_ := this_ d; discoveryEventTypes := f (discoveryEventTypes d);
     folderToEventTypeMap := folderToEventTypeMap d;
     foldersToExplore := foldersToExplore d;
     discoveredFolders := discoveredFolders d; driveCalls := driveCalls d |}.

Definition set_folderToEventTypeMap (f : gmap string nat → gmap string nat)
    (d : Discovery) : Discovery :=
  {| this_ := this_ d; discoveryEventTypes := discoveryEventTypes d;
     folderToEventTypeMap := f (folderToEventTypeMap d);
     foldersToExplore := foldersToExplore d;
     discoveredFolders := discoveredFolders d; driveCalls := driveCalls d |}.

Definition set_foldersToExplore (f : list string → list string) (d : Discovery)
    : Discovery :=
  {| this_ := this_ d; discoveryEventTypes := discoveryEventTypes d;
     folderToEventTypeMap := folderToEventTypeMap d;
     foldersToExplore := f (foldersToExplore d);
     discoveredFolders := discoveredFolders d; driveCalls := driveCalls d |}.

Definition set_discoveredFolders (f : list string → list string) (d : Discovery)
    : Discovery :=
  {| this_ := this_ d; discoveryEventTypes := discoveryEventTypes d;
     folderToEventTypeMap := folderToEventTypeMap d;
     foldersToExplore := foldersToExplore d;
     discoveredFolders := f (discoveredFolders d); driveCalls := driveCalls d |}.

Definition count_driveCall (d : Discovery) : Discovery :=
  {| this_ := this_ d; discoveryEventTypes := discoveryEventTypes d;
     folderToEventTypeMap := folderToEventTypeMap d;
     foldersToExplore := foldersToExplore d;
     discoveredFolders := discoveredFolders d; driveCalls := S (driveCalls d) |}.

(** [totalFiles += n] on the referenced object *)
Definition add_totalFiles (n : Z) (t : DiscoveryEventType) : DiscoveryEventType :=
  {| eventType := eventType t; totalFiles := totalFiles t + n |}.

(** [sourceFolderUris = sourceFolderUris.filter(id => id != folderId)] *)
Definition drop_sourceFolder (folderId : string) (t : DiscoveryEventType)
    : DiscoveryEventType :=
  {| eventType :=
       {| et_id := et_id (eventType t); et_title := et_title (eventType t);
          et_value := et_value (eventType t);
          sourceFolderUris :=
            filter (λ id, id ≠ folderId) (sourceFolderUris (eventType t)) |};
     totalFiles := totalFiles t |}.

(** [performEventTypeTieBreaker].  [currentEventType] is a reference that
    is [undefined] ([None]) when the caller read it from a map entry that is
    not there. *)
Definition performEventTypeTieBreaker (types : list DiscoveryEventType)
    (map : gmap string nat) (folderId : string) (currentEventType : option nat)
    : outcome (option nat) :=
  match map !! folderId with
  | None => Ok currentEventType
  | Some existingEventType =>
      existing ← deref (types !! existingEventType);
      current ← deref (currentEventType ≫= (types !!.));
      Ok (if bool_decide (totalFiles existing < totalFiles current)
          then Some existingEventType
          else currentEventType)
  end.

(** Lines 140-154: one declared folder of the event type at index
    [discoveryEventType] is run through the tie breaker. *)
Definition claimFolder (folderId : string) (discoveryEventType : nat)
    (d : Discovery) : outcome Discovery :=
  winningEventType ←
    performEventTypeTieBreaker (discoveryEventTypes d) (folderToEventTypeMap d)
      folderId (Some discoveryEventType);
  if bool_decide (winningEventType ≠ folderToEventTypeMap d !! folderId) then
    let d1 :=
      match folderToEventTypeMap d !! folderId with
      | Some previous =>
          set_discoveryEventTypes (alter (add_totalFiles (-1)) previous) d
      | None => d
      end in
    winning ← deref winningEventType;
    Ok (set_foldersToExplore (cons folderId)
          (set_folderToEventTypeMap <[folderId := winning]>
             (set_discoveryEventTypes (alter (add_totalFiles 1) winning) d1)))
  else Ok d.

(** [indexOf] *)
Fixpoint indexOf {A} `{EqDecision A} (x : A) (l : list A) : option nat :=
  match l with
  | [] => None
  | y :: l' => if decide (x = y) then Some O else S <$> indexOf x l'
  end.

(** A promise that has settled. *)
Inductive settled (A : Type) :=
| Resolved (a : A)
| Rejected (e : error).
Arguments Resolved {A} a.
Arguments Rejected {A} e.

Definition await {A} (p : settled A) : outcome A :=
  match p with
  | Resolved a => Ok a
  | Rejected e => Throw e
  end.

Section SyncTroupe.

(** *** External collaborators and constants that are not in [sync.ts] *)

(** [util/constants]: the MIME type of a Drive folder, and the two
    parallel tables of event data sources. *)
Variable DRIVE_FOLDER_MIME : string.
Variable EVENT_DATA_SOURCE_MIME_TYPES : list string.
Variable EVENT_DATA_SOURCES : list string.
Variable FULL_DAY : Z.

(** [util/helper] *)
Variable getDataSourceId : string → string → option string.
Variable getDataSourceUrl : string → string → string.

(** [this.drive.files.list], asked for the children of a folder; the first
    argument counts the calls made so far, so that two listings of one
    folder may differ. *)
Variable drive_files_list : nat → string → Listing.

(** [new Date()] and [Date.now()] *)
Variable now : Z.

(** A folder id that [getDataSourceId] did not find is [undefined], which
    as a key and in the query reads ["undefined"]. *)
Definition folderIdOf (folder : string) : string :=
  default "undefined"%string (getDataSourceId "Google Drive Folder" folder).

(** Lines 118-123: one stored event enters [this.eventMap]. *)
Definition initializeEvent (ev : EventSchema) (this : SyncTroupe) : SyncTroupe :=
  let ev' :=
    {| ev_id := ev_id ev; ev_troupeId := ev_troupeId ev;
       ev_lastUpdated := ev_lastUpdated ev; ev_title := ev_title ev;
       source := source ev; synchronizedSource := source ev;
       sourceUri := sourceUri ev; synchronizedSourceUri := sourceUri ev;
       startDate := startDate ev; eventTypeId := eventTypeId ev;
       eventTypeTitle := eventTypeTitle ev; ev_value := ev_value ev;
       fieldToPropertyMap := fieldToPropertyMap ev;
       synchronizedFieldToPropertyMap := fieldToPropertyMap ev |} in
  set_eventMap (jsobj_set (sourceUri ev) {| event := ev'; ed_fromColl := true |})
    this.

(** [this.eventColl.find({ troupeId })] *)
Definition findEvents (db : Db) (troupeId : oid) : list EventSchema :=
  filter (λ ev, ev_troupeId ev = troupeId) (map_to_list (eventColl db)).*2.

(** Lines 136-156: every declared folder of every event type. *)
Definition claimFolders (index : nat) (eventType : EventTypeSchema)
    (d : Discovery) : outcome Discovery :=
  for_of (λ folder, claimFolder (folderIdOf folder) index)
    (sourceFolderUris eventType) d.

Fixpoint initializeEventTypes (index : nat) (types : list EventTypeSchema)
    (d : Discovery) : outcome Discovery :=
  match types with
  | [] => Ok d
  | eventType :: types' =>
      d' ← claimFolders index eventType d;
      initializeEventTypes (S index) types' d'
  end.

(** Lines 234-240: an already known source only gets a missing event
    type filled in. *)
Definition backfillEventType (currentEventType : EventTypeSchema)
    (eventData : EventData) : EventData :=
  let ev := event eventData in
  match eventTypeId ev with
  | Some _ => eventData
  | None =>
      {| event :=
           {| ev_id := ev_id ev; ev_troupeId := ev_troupeId ev;
              ev_lastUpdated := ev_lastUpdated ev; ev_title := ev_title ev;
              source := source ev; synchronizedSource := synchronizedSource ev;
              sourceUri := sourceUri ev;
              synchronizedSourceUri := synchronizedSourceUri ev;
              startDate := startDate ev;
              eventTypeId := Some (et_id currentEventType);
              eventTypeTitle := Some (et_title currentEventType);
              ev_value := et_value currentEventType;
              fieldToPropertyMap := fieldToPropertyMap ev;
              synchronizedFieldToPropertyMap :=
                synchronizedFieldToPropertyMap ev |};
         ed_fromColl := ed_fromColl eventData |}
  end.

(** Lines 247-262: the event made for a file seen for the first time. *)
Definition newEvent (_id troupeId : oid) (file : DriveFile)
    (source sourceUri : string) (currentEventType : EventTypeSchema)
    : EventSchema :=
  {| ev_id := _id; ev_troupeId := troupeId; ev_lastUpdated := now;
     ev_title := f_name file;
     source := source; synchronizedSource := source;
     sourceUri := sourceUri; synchronizedSourceUri := sourceUri;
     startDate := default now (createdTime file);
     eventTypeId := Some (et_id currentEventType);
     eventTypeTitle := Some (et_title currentEventType);
     ev_value := et_value currentEventType;
     fieldToPropertyMap := ∅; synchronizedFieldToPropertyMap := ∅ |}.

(** Lines 193-266: the body of the loop over the files of [folderId],
    whose owner [currentDiscoveryEventType] was read before the loop. *)
Definition exploreFile (folderId : string)
    (currentDiscoveryEventType : option nat) (file : DriveFile)
    (d : Discovery) : outcome Discovery :=
  let eventDataSource :=
    indexOf (mimeType file) EVENT_DATA_SOURCE_MIME_TYPES in
  if bool_decide (mimeType file = DRIVE_FOLDER_MIME) then
    winningEventType ←
      performEventTypeTieBreaker (discoveryEventTypes d)
        (folderToEventTypeMap d) folderId currentDiscoveryEventType;
    if bool_decide (winningEventType ≠ folderToEventTypeMap d !! folderId) then
      let transfer (d1 : Discovery) : outcome Discovery :=
        winning ← deref winningEventType;
        Ok (set_foldersToExplore (cons folderId)
              (set_folderToEventTypeMap <[folderId := winning]>
                 (set_discoveryEventTypes
                    (alter (add_totalFiles 1) winning) d1))) in
      match folderToEventTypeMap d !! folderId with
      | Some previous =>
          transfer
            (set_discoveryEventTypes (alter (add_totalFiles (-1)) previous) d)
      | None =>
          if bool_decide
               (sourceFolderUrisLeft (currentLimits (this_ d)) =
                sourceFolderUrisLeft (incrementLimits (this_ d)))
          then Ok d
          else
            transfer (set_this (set_incrementLimits take_sourceFolderUri) d)
      end
    else Ok d
  else
    match eventDataSource with
    | Some i =>
        let source := default ""%string (EVENT_DATA_SOURCES !! i) in
        let sourceUri := getDataSourceUrl source (f_id file) in
        current ← deref (currentDiscoveryEventType ≫= (discoveryEventTypes d !!.));
        let currentEventType := eventType current in
        match jsobj_get sourceUri (eventMap (this_ d)) with
        | Some eventData =>
            Ok (set_this
                  (set_eventMap
                     (jsobj_set sourceUri
                        (backfillEventType currentEventType eventData)))
                  d)
        | None =>
            if bool_decide
                 (eventsLeft (currentLimits (this_ d)) =
                  eventsLeft (incrementLimits (this_ d)))
            then Ok d
            else
              let '(_id, this1) := newObjectId (this_ d) in
              let event :=
                newEvent _id (t_id (troupe this1)) file source sourceUri
                  currentEventType in
              Ok (set_this
                    (λ _, set_incrementLimits take_event
                            (set_eventMap
                               (jsobj_set sourceUri
                                  {| event := event; ed_fromColl := false |})
                               this1))
                    d)
        end
    | None => Ok d
    end.

(** Lines 165-267: the worklist loop.  It runs while there is a folder to
    explore; [fuel] bounds the number of iterations. *)
Fixpoint exploreFolders (fuel : nat) (d : Discovery) : outcome Discovery :=
  match foldersToExplore d with
  | [] => Ok d
  | folderId :: rest =>
      match fuel with
      | O => OutOfFuel
      | S fuel' =>
          let d := set_foldersToExplore (λ _, rest) d in
          if bool_decide (folderId ∈ discoveredFolders d) then
            exploreFolders fuel' d
          else
            let d := set_discoveredFolders (cons folderId) d in
            let response := drive_files_list (driveCalls d) folderId in
            let d := count_driveCall d in
            match response with
            | ListingFails =>
                owner ← deref (folderToEventTypeMap d !! folderId);
                exploreFolders fuel'
                  (set_discoveredFolders (drop 1)
                     (set_folderToEventTypeMap (base.delete folderId)
                        (set_discoveryEventTypes
                           (alter (drop_sourceFolder folderId) owner) d)))
            | ListingWithoutFiles => exploreFolders fuel' d
            | ListingFiles files =>
                d' ← for_of
                       (exploreFile folderId (folderToEventTypeMap d !! folderId))
                       files d;
                exploreFolders fuel' d'
            end
      end
  end.

(** [discoverEvents], with its local variables as they are when it
    returns.  The worklist loop is given one unit of fuel per folder on the
    worklist it starts from. *)
Definition runDiscovery (db : Db) (this : SyncTroupe) : outcome Discovery :=
  let troupeId := t_id (troupe this) in
  let this := foldl (λ this ev, initializeEvent ev this) this
                (findEvents db troupeId) in
  let d :=
    {| this_ := this;
       discoveryEventTypes :=
         (λ eventType, {| eventType := eventType; totalFiles := 0 |})
           <$> eventTypes (troupe this);
       folderToEventTypeMap := ∅;
       foldersToExplore := [];
       discoveredFolders := [];
       driveCalls := O |} in
  d ← initializeEventTypes O (eventTypes (troupe this)) d;
  exploreFolders (length (foldersToExplore d)) d.

Definition discoverEvents (db : Db) (this : SyncTroupe) : outcome SyncTroupe :=
  d ← runDiscovery db this;
  Ok (this_ d).

(** ** [discoverAndRefreshAudience] *)

(** The source-specific services ([GoogleFormsEventDataService],
    [GoogleSheetsEventDataService]): [discoverAudience(event, lastUpdated)]
    of the service for the given source kind, working on the maps and
    limits of [this] that its constructor received. *)
Variable dataService_discoverAudience :
  string → EventSchema → Z → SyncTroupe → settled SyncTroupe.

(** How JavaScript writes a [Date] when it is used as a property key. *)
Variable Date_toString : Z → string.

(** A property value used as a key of [this.attendeeMap]. *)
Definition propertyKey (v : MemberPropertyValue) : string :=
  match v with
  | PUndefined => "undefined"
  | PString s => s
  | PNumber n => pretty n
  | PBoolean b => if b then "true" else "false"
  | PDate t => Date_toString t
  end.

(** [this.audienceColl.find({ troupeId })] *)
Definition findMembers (db : Db) (troupeId : oid) : list MemberSchema :=
  filter (λ m, m_troupeId m = troupeId) (map_to_list (audienceColl db)).*2.

(** The order of [sort({ page: 1 })] *)
Definition page_le (b1 b2 : EventsAttendedBucketSchema) : Prop :=
  (page b1 ≤ page b2)%nat.

#[local] Instance page_le_dec : RelDecision page_le.
Proof. intros b1 b2. unfold page_le. apply _. Defined.

(** [this.eventsAttendedColl.find({ memberId }).sort({ page: 1 }).toArray()] *)
Definition findEventsAttended (db : Db) (member : oid)
    : list EventsAttendedBucketSchema :=
  merge_sort page_le
    (filter (λ b, memberId b = member) (map_to_list (eventsAttendedColl db)).*2).

(** Lines 308-311 *)
Definition resetPoints (pointTypes : list string) (points : gmap string Z)
    : gmap string Z :=
  foldl (λ points pointType, <[pointType := 0]> points) points pointTypes.

(** Lines 314-324: [baseProps], built from the property types of the
    troupe. *)
Definition baseProps (memberPropertyTypes : jsobj string string)
    (properties : gmap string MemberProperty) : gmap string MemberProperty :=
  foldl
    (λ baseProps prop,
       match properties !! prop with
       | Some p =>
           if override p then <[prop := p]> baseProps
           else <[prop := {| value := value p; override := false |}]> baseProps
       | None =>
           <[prop := {| value := PUndefined; override := false |}]> baseProps
       end)
    ∅ (jsobj_keys memberPropertyTypes).

(** Lines 308-326: the member as it is left in [this.attendeeMap]. *)
Definition refreshMember (troupe : TroupeSchema) (lastUpdated : Z)
    (member : MemberSchema) : MemberSchema :=
  {| m_id := m_id member; m_troupeId := m_troupeId member;
     m_lastUpdated := lastUpdated;
     properties := baseProps (memberPropertyTypes troupe) (properties member);
     points := resetPoints (pointTypes troupe) (points member) |}.

(** Lines 294-327: one stored member enters [this.attendeeMap]. *)
Definition initializeMember (db : Db) (lastUpdated : Z) (member : MemberSchema)
    (this : SyncTroupe) : outcome SyncTroupe :=
  let eventsAttendedDocs := findEventsAttended db (m_id member) in
  memberIdProperty ← deref (properties member !! "Member ID"%string);
  Ok (set_attendeeMap
        (jsobj_set (propertyKey (value memberIdProperty))
           {| member := refreshMember (troupe this) lastUpdated member;
              eventsAttended := [];
              eventsAttendedDocs := eventsAttendedDocs;
              delete_ := false;
              fromColl := true |})
        this).

(** Lines 364-382: the service is chosen by the source of the event. *)
Definition discoverAudience (event : EventSchema) (lastUpdated : Z)
    (this : SyncTroupe) : outcome SyncTroupe :=
  if bool_decide (source event = "Google Forms"%string) then
    await (dataService_discoverAudience "Google Forms" event lastUpdated this)
  else if bool_decide (source event = "Google Sheets"%string) then
    await (dataService_discoverAudience "Google Sheets" event lastUpdated this)
  else Ok this.

(** [s.endsWith(suffix)] *)
Definition endsWith (s suffix : string) : bool :=
  bool_decide (String.length suffix ≤ String.length s)%nat
  && bool_decide
       (String.substring (String.length s - String.length suffix)
          (String.length suffix) s = suffix).

(** Lines 338-343 *)
Definition requiredProperties (memberPropertyTypes : jsobj string string)
    : list string :=
  (filter (λ entry, endsWith entry.2 "!" = true) memberPropertyTypes).*1.

(** Lines 348-353: whether the loop over the required properties reaches
    one without a value (it stops there). *)
Fixpoint missesRequiredProperty (properties : gmap string MemberProperty)
    (required : list string) : outcome bool :=
  match required with
  | [] => Ok false
  | prop :: required' =>
      p ← deref (properties !! prop);
      if negb (truthy (value p)) then Ok true
      else missesRequiredProperty properties required'
  end.

(** Lines 346-354 for one entry of [this.attendeeMap]. *)
Definition markForDeletion (required : list string) (m : MemberData)
    : outcome MemberData :=
  missesRequiredProperty (properties (member m)) required ≫= λ misses : bool,
  Ok {| member := member m; eventsAttended := eventsAttended m;
        eventsAttendedDocs := eventsAttendedDocs m;
        delete_ := if misses then true else delete_ m;
        fromColl := fromColl m |}.

Fixpoint markAllForDeletion (required : list string)
    (attendees : jsobj string MemberData) : outcome (jsobj string MemberData) :=
  match attendees with
  | [] => Ok []
  | (memberId, m) :: attendees' =>
      m' ← markForDeletion required m;
      rest ← markAllForDeletion required attendees';
      Ok ((memberId, m') :: rest)
  end.

(** [discoverAndRefreshAudience].  The per-event calls are started
    together and awaited with [Promise.all]; they are run here one after
    the other in the order of [this.eventMap], each on the event as the
    map held it when the calls were started, and the first rejection is
    the one [Promise.all] raises. *)
Definition discoverAndRefreshAudience (db : Db) (this : SyncTroupe)
    : outcome SyncTroupe :=
  let troupeId := t_id (troupe this) in
  let lastUpdated := now in
  this ← for_of (initializeMember db lastUpdated) (findMembers db troupeId) this;
  this ← for_of (λ eventData, discoverAudience (event eventData) lastUpdated)
           (jsobj_values (eventMap this)) this;
  let required := requiredProperties (memberPropertyTypes (troupe this)) in
  attendees ← markAllForDeletion required (attendeeMap this);
  Ok (set_attendeeMap (λ _, attendees) this).

(** ** [persistSync] *)

(** [util/constants] *)
Definition MAX_PAGE_SIZE : nat := 30.

(** [Number(s)] for a string, [None] when it is [NaN]. *)
Variable Number_of_string : string → option Z.

(** The commit of the transaction that would leave the given database. *)
Variable commitTransaction : Db → settled unit.

(** Modelled from the spec: [LimitService] ([services/limits]) is not part
    of the sources.  [getTroupeLimits] reads the remaining counters of the
    tenant. *)
Definition getTroupeLimits (db : Db) (troupeId : oid) : option TroupeLimit :=
  limitColl db !! troupeId.

Definition set_limitColl (f : gmap oid TroupeLimit → gmap oid TroupeLimit)
    (db : Db) : Db :=
  {| troupeColl := troupeColl db; dashboardColl := dashboardColl db;
     eventColl := eventColl db; audienceColl := audienceColl db;
     eventsAttendedColl := eventsAttendedColl db; limitColl := f (limitColl db) |}.

(** Modelled from the spec: [LimitService] is not part of the sources.
    [incrementTroupeLimits] applies a signed delta to the counters and
    refuses, changing nothing, when a counter would become negative or the
    tenant has no counters. *)
Definition incrementTroupeLimits (db : Db) (troupeId : oid) (delta : TroupeLimit)
    : option Db :=
  limits ← limitColl db !! troupeId;
  let limits' :=
    {| eventsLeft := eventsLeft limits + eventsLeft delta;
       sourceFolderUrisLeft :=
         sourceFolderUrisLeft limits + sourceFolderUrisLeft delta;
       membersLeft := membersLeft limits + membersLeft delta |} in
  if bool_decide (0 ≤ eventsLeft limits' ∧ 0 ≤ sourceFolderUrisLeft limits'
                  ∧ 0 ≤ membersLeft limits')
  then Some (set_limitColl <[troupeId := limits']> db)
  else None.

(** [stats[eventTypeId].value += 1] *)
Definition increment_value (eventTypeId : oid) (stats : gmap oid Stat)
    : outcome (gmap oid Stat) :=
  stat ← deref (stats !! eventTypeId);
  Ok (<[eventTypeId :=
          {| s_title := s_title stat; s_value := js_add (s_value stat) (JZ 1) |}]>
        stats).

Definition increment_pvalue (eventTypeId : oid) (stats : gmap oid PercentStat)
    : outcome (gmap oid PercentStat) :=
  stat ← deref (stats !! eventTypeId);
  Ok (<[eventTypeId :=
          {| p_title := p_title stat; p_value := js_add (p_value stat) (JZ 1);
             percent := percent stat |}]>
        stats).

(** Lines 390-406 *)
Definition initialDashboardUpdate (this : SyncTroupe) : TroupeDashboardSchema :=
  {| d_lastUpdated := now;
     upcomingBirthdays :=
       {| frequency := desiredFrequency (upcomingBirthdays (dashboard this));
          desiredFrequency := desiredFrequency (upcomingBirthdays (dashboard this));
          members := [] |};
     totalMembers := 0;
     totalEvents := 0;
     totalEventTypes := Z.of_nat (length (eventTypes (troupe this)));
     totalAttendees := JUndefined;
     totalAttendeesByEventType := ∅;
     totalEventsByEventType := ∅;
     avgAttendeesPerEvent := JZ 0;
     avgAttendeesByEventType := ∅;
     attendeePercentageByEventType := ∅;
     eventPercentageByEventType := ∅ |}.

(** Lines 409-420 for one event type *)
Definition initializeStatistics (eventType : EventTypeSchema)
    (u : TroupeDashboardSchema) : TroupeDashboardSchema :=
  let eventTypeId := et_id eventType in
  let stat := {| s_title := et_title eventType; s_value := JZ 0 |} in
  let pstat :=
    {| p_title := et_title eventType; p_value := JZ 0; percent := JZ 0 |} in
  {| d_lastUpdated := d_lastUpdated u;
     upcomingBirthdays := upcomingBirthdays u;
     totalMembers := totalMembers u;
     totalEvents := totalEvents u;
     totalEventTypes := totalEventTypes u;
     totalAttendees := totalAttendees u;
     totalAttendeesByEventType := <[eventTypeId := stat]> (totalAttendeesByEventType u);
     totalEventsByEventType := <[eventTypeId := stat]> (totalEventsByEventType u);
     avgAttendeesPerEvent := avgAttendeesPerEvent u;
     avgAttendeesByEventType := <[eventTypeId := stat]> (avgAttendeesByEventType u);
     attendeePercentageByEventType :=
       <[eventTypeId := pstat]> (attendeePercentageByEventType u);
     eventPercentageByEventType :=
       <[eventTypeId := pstat]> (eventPercentageByEventType u) |}.

(** Lines 424-434 for one entry of [this.eventMap]: the statistics of the
    events. *)
Definition countEvent (eventData : EventData) (u : TroupeDashboardSchema)
    : outcome TroupeDashboardSchema :=
  '(byType, percentage) ←
    match eventTypeId (event eventData) with
    | Some eventTypeId =>
        byType ← increment_value eventTypeId (totalEventsByEventType u);
        percentage ← increment_pvalue eventTypeId (eventPercentageByEventType u);
        Ok (byType, percentage)
    | None => Ok (totalEventsByEventType u, eventPercentageByEventType u)
    end;
  Ok {| d_lastUpdated := d_lastUpdated u;
        upcomingBirthdays := upcomingBirthdays u;
        totalMembers := totalMembers u;
        totalEvents := totalEvents u + 1;
        totalEventTypes := totalEventTypes u;
        totalAttendees := totalAttendees u;
        totalAttendeesByEventType := totalAttendeesByEventType u;
        totalEventsByEventType := byType;
        avgAttendeesPerEvent := avgAttendeesPerEvent u;
        avgAttendeesByEventType := avgAttendeesByEventType u;
        attendeePercentageByEventType := attendeePercentageByEventType u;
        eventPercentageByEventType := percentage |}.

(** Lines 500-506: the statistics of one attendance record. *)
Definition countAttendance (eventTypeId : option oid) (u : TroupeDashboardSchema)
    : outcome TroupeDashboardSchema :=
  '(total, avg, percentage) ←
    match eventTypeId with
    | Some eventTypeId =>
        total ← increment_value eventTypeId (totalAttendeesByEventType u);
        avg ← increment_value eventTypeId (avgAttendeesByEventType u);
        percentage ←
          increment_pvalue eventTypeId (attendeePercentageByEventType u);
        Ok (total, avg, percentage)
    | None =>
        Ok (totalAttendeesByEventType u, avgAttendeesByEventType u,
            attendeePercentageByEventType u)
    end;
  Ok {| d_lastUpdated := d_lastUpdated u;
        upcomingBirthdays := upcomingBirthdays u;
        totalMembers := totalMembers u;
        totalEvents := totalEvents u;
        totalEventTypes := totalEventTypes u;
        totalAttendees := js_add (totalAttendees u) (JZ 1);
        totalAttendeesByEventType := total;
        totalEventsByEventType := totalEventsByEventType u;
        avgAttendeesPerEvent := avgAttendeesPerEvent u;
        avgAttendeesByEventType := avg;
        attendeePercentageByEventType := percentage;
        eventPercentageByEventType := eventPercentageByEventType u |}.

(** Lines 461-470: the birthday list and the member count. *)
Definition before (v : MemberPropertyValue) (cutoff : Z) : bool :=
  match v with
  | PUndefined => false
  | PString s =>
      match Number_of_string s with
      | Some n => bool_decide (n < cutoff)
      | None => false
      end
  | PNumber n => bool_decide (n < cutoff)
  | PBoolean b => bool_decide ((if b then 1 else 0) < cutoff)
  | PDate t => bool_decide (t < cutoff)
  end.

Definition countMember (birthdayCutoff : Z) (member : MemberSchema)
    (u : TroupeDashboardSchema) : outcome TroupeDashboardSchema :=
  birthdayProperty ← deref (properties member !! "Birthday"%string);
  let birthday := value birthdayProperty in
  birthdays ←
    (if truthy birthday && before birthday birthdayCutoff then
       first ← deref (properties member !! "First Name"%string);
       last ← deref (properties member !! "Last Name"%string);
       Ok (members (upcomingBirthdays u) ++
           [{| bd_id := m_id member; firstName := value first;
               lastName := value last; birthday := birthday |}])
     else Ok (members (upcomingBirthdays u)));
  Ok {| d_lastUpdated := d_lastUpdated u;
        upcomingBirthdays :=
          {| frequency := frequency (upcomingBirthdays u);
             desiredFrequency := desiredFrequency (upcomingBirthdays u);
             members := birthdays |};
        totalMembers := totalMembers u + 1;
        totalEvents := totalEvents u;
        totalEventTypes := totalEventTypes u;
        totalAttendees := totalAttendees u;
        totalAttendeesByEventType := totalAttendeesByEventType u;
        totalEventsByEventType := totalEventsByEventType u;
        avgAttendeesPerEvent := avgAttendeesPerEvent u;
        avgAttendeesByEventType := avgAttendeesByEventType u;
        attendeePercentageByEventType := attendeePercentageByEventType u;
        eventPercentageByEventType := eventPercentageByEventType u |}.

(** The arrays and the dashboard that [persistSync] fills before it opens
    the transaction. *)
Record Persist := {
  p_this : SyncTroupe;
  dashboardUpdate : TroupeDashboardSchema;
  updateAudience : list MemberSchema;
  membersToDelete : list oid;
  updateEventsAttended : list EventsAttendedBucketSchema;
  eventsAttendedToDelete : list oid;
}.

(** Lines 493-506: the attendance record at index [i] goes into [events]
    and into the statistics. *)
Definition recordAttendance (memberData : MemberData) (i : nat)
    (s : gmap oid BucketEvent * TroupeDashboardSchema)
    : outcome (gmap oid BucketEvent * TroupeDashboardSchema) :=
  attended ← deref (eventsAttended memberData !! i);
  let events :=
    <[eventId attended :=
        {| be_typeId := typeId attended; be_value := ea_value attended;
           be_startDate := ea_startDate attended |}]> s.1 in
  u ← countAttendance (typeId attended) s.2;
  Ok (events, u).

(** Lines 474-513: the loop over the pages of one member.  A stored
    document at the page index is pushed as it is: the object that the loop
    fills is the [events] of a document made here, and of no other. *)
Fixpoint bucketPages (fuel : nat) (troupeId memberId : oid)
    (memberData : MemberData) (page docsProcessed : nat) (acc : Persist)
    : outcome (nat * Persist) :=
  if bool_decide (docsProcessed < length (eventsAttended memberData))%nat then
    match fuel with
    | O => OutOfFuel
    | S fuel' =>
        let stored := eventsAttendedDocs memberData !! page in
        let '(_id, this1) :=
          match stored with
          | Some doc => (b_id doc, p_this acc)
          | None => newObjectId (p_this acc)
          end in
        let startIndex := (page * MAX_PAGE_SIZE)%nat in
        let endIndex :=
          Nat.min (startIndex + MAX_PAGE_SIZE) (length (eventsAttended memberData)) in
        '(events, u) ←
          for_of (recordAttendance memberData)
            (seq startIndex (endIndex - startIndex)) (∅, dashboardUpdate acc);
        let eventsAttendedDoc :=
          match stored with
          | Some doc => doc
          | None =>
              {| b_id := _id; b_troupeId := troupeId; memberId := memberId;
                 page := page; events := events |}
          end in
        bucketPages fuel' troupeId memberId memberData (S page)
          (docsProcessed + (endIndex - startIndex))
          {| p_this := this1; dashboardUpdate := u;
             updateAudience := updateAudience acc;
             membersToDelete := membersToDelete acc;
             updateEventsAttended :=
               updateEventsAttended acc ++ [eventsAttendedDoc];
             eventsAttendedToDelete := eventsAttendedToDelete acc |}
    end
  else Ok (page, acc).

(** Lines 446-521: the body of the loop over [this.attendeeMap]. *)
Definition persistMember (troupeId : oid) (birthdayCutoff : Z)
    (memberData : MemberData) (acc : Persist) : outcome Persist :=
  let memberId := m_id (member memberData) in
  if delete_ memberData && fromColl memberData then
    Ok {| p_this := p_this acc; dashboardUpdate := dashboardUpdate acc;
          updateAudience := updateAudience acc;
          membersToDelete := membersToDelete acc ++ [m_id (member memberData)];
          updateEventsAttended := updateEventsAttended acc;
          eventsAttendedToDelete :=
            eventsAttendedToDelete acc ++ (b_id <$> eventsAttendedDocs memberData) |}
  else
    u ← countMember birthdayCutoff (member memberData) (dashboardUpdate acc);
    '(page, acc) ←
      bucketPages (length (eventsAttended memberData)) troupeId memberId
        memberData 0 0
        {| p_this := p_this acc; dashboardUpdate := u;
           updateAudience := updateAudience acc ++ [member memberData];
           membersToDelete := membersToDelete acc;
           updateEventsAttended := updateEventsAttended acc;
           eventsAttendedToDelete := eventsAttendedToDelete acc |};
    Ok {| p_this := p_this acc; dashboardUpdate := dashboardUpdate acc;
          updateAudience := updateAudience acc;
          membersToDelete := membersToDelete acc;
          updateEventsAttended := updateEventsAttended acc;
          eventsAttendedToDelete :=
            eventsAttendedToDelete acc ++
            (b_id <$> drop page (eventsAttendedDocs memberData)) |}.

(** Lines 528-539 for one event type. *)
Definition completeStatistics (totalAttendees_ : jsnum) (totalEvents_ : Z)
    (eventType : EventTypeSchema) (u : TroupeDashboardSchema)
    : outcome TroupeDashboardSchema :=
  let eventTypeId := et_id eventType in
  eventsStat ← deref (totalEventsByEventType u !! eventTypeId);
  attendeesStat ← deref (totalAttendeesByEventType u !! eventTypeId);
  let totalEventsByEventType_ := s_value eventsStat in
  let totalAttendeesByEventType_ := s_value attendeesStat in
  avg ← deref (avgAttendeesByEventType u !! eventTypeId);
  let avg' :=
    {| s_title := s_title avg;
       s_value :=
         if js_gt0 totalEventsByEventType_
         then Math_round (js_div (s_value avg) totalEventsByEventType_)
         else JZ 0 |} in
  attendeePercentage ← deref (attendeePercentageByEventType u !! eventTypeId);
  let attendeePercentage' :=
    {| p_title := p_title attendeePercentage;
       p_value :=
         if js_gt0 totalAttendees_
         then js_div totalAttendeesByEventType_ totalAttendees_
         else JZ 0;
       percent := percent attendeePercentage |} in
  eventPercentage ← deref (eventPercentageByEventType u !! eventTypeId);
  let eventPercentage' :=
    {| p_title := p_title eventPercentage;
       p_value :=
         if bool_decide (0 < totalEvents_)
         then js_div totalEventsByEventType_ (JZ totalEvents_)
         else JZ 0;
       percent := percent eventPercentage |} in
  Ok {| d_lastUpdated := d_lastUpdated u;
        upcomingBirthdays := upcomingBirthdays u;
        totalMembers := totalMembers u;
        totalEvents := totalEvents u;
        totalEventTypes := totalEventTypes u;
        totalAttendees := totalAttendees u;
        totalAttendeesByEventType := totalAttendeesByEventType u;
        totalEventsByEventType := totalEventsByEventType u;
        avgAttendeesPerEvent := avgAttendeesPerEvent u;
        avgAttendeesByEventType := <[eventTypeId := avg']> (avgAttendeesByEventType u);
        attendeePercentageByEventType :=
          <[eventTypeId := attendeePercentage']> (attendeePercentageByEventType u);
        eventPercentageByEventType :=
          <[eventTypeId := eventPercentage']> (eventPercentageByEventType u) |}.

(** Lines 390-539: everything [persistSync] computes before the
    transaction.  The second component is [updateEvents]. *)
Definition prepareSync (this : SyncTroupe) : outcome (Persist * list EventSchema) :=
  let troupeId := t_id (troupe this) in
  let u := foldl (λ u eventType, initializeStatistics eventType u)
             (initialDashboardUpdate this) (eventTypes (troupe this)) in
  let updateEvents := event <$> jsobj_values (eventMap this) in
  u ← for_of countEvent (jsobj_values (eventMap this)) u;
  let birthdayCutoff :=
    if bool_decide (frequency (upcomingBirthdays u) = "weekly"%string)
    then now + FULL_DAY * 7
    else now + FULL_DAY * 30 in
  acc ← for_of (persistMember troupeId birthdayCutoff)
          (jsobj_values (attendeeMap this))
          {| p_this := this; dashboardUpdate := u; updateAudience := [];
             membersToDelete := []; updateEventsAttended := [];
             eventsAttendedToDelete := [] |};
  let totalAttendees_ := totalAttendees (dashboardUpdate acc) in
  let totalEvents_ := totalEvents (dashboardUpdate acc) in
  let avgAttendeesPerEvent_ :=
    if bool_decide (0 < totalEvents_)
    then Math_round (js_div (JZ totalEvents_) totalAttendees_)
    else JZ 0 in
  u ← for_of (completeStatistics totalAttendees_ totalEvents_)
        (eventTypes (troupe this)) (dashboardUpdate acc);
  Ok ({| p_this :=
           set_dashboard
             (λ d,
                {| d_lastUpdated := d_lastUpdated d;
                   upcomingBirthdays := upcomingBirthdays d;
                   totalMembers := totalMembers d;
                   totalEvents := totalEvents d;
                   totalEventTypes := totalEventTypes d;
                   totalAttendees := totalAttendees d;
                   totalAttendeesByEventType := totalAttendeesByEventType d;
                   totalEventsByEventType := totalEventsByEventType d;
                   avgAttendeesPerEvent := avgAttendeesPerEvent_;
                   avgAttendeesByEventType := avgAttendeesByEventType d;
                   attendeePercentageByEventType := attendeePercentageByEventType d;
                   eventPercentageByEventType := eventPercentageByEventType d |})
             (p_this acc);
         dashboardUpdate := u;
         updateAudience := updateAudience acc;
         membersToDelete := membersToDelete acc;
         updateEventsAttended := updateEventsAttended acc;
         eventsAttendedToDelete := eventsAttendedToDelete acc |},
      updateEvents).

(** *** The transaction (lines 541-580) *)

Definition set_dashboardColl
    (f : gmap oid TroupeDashboardSchema → gmap oid TroupeDashboardSchema)
    (db : Db) : Db :=
  {| troupeColl := troupeColl db; dashboardColl := f (dashboardColl db);
     eventColl := eventColl db; audienceColl := audienceColl db;
     eventsAttendedColl := eventsAttendedColl db; limitColl := limitColl db |}.

Definition set_eventColl (f : gmap oid EventSchema → gmap oid EventSchema)
    (db : Db) : Db :=
  {| troupeColl := troupeColl db; dashboardColl := dashboardColl db;
     eventColl := f (eventColl db); audienceColl := audienceColl db;
     eventsAttendedColl := eventsAttendedColl db; limitColl := limitColl db |}.

Definition set_audienceColl (f : gmap oid MemberSchema → gmap oid MemberSchema)
    (db : Db) : Db :=
  {| troupeColl := troupeColl db; dashboardColl := dashboardColl db;
     eventColl := eventColl db; audienceColl := f (audienceColl db);
     eventsAttendedColl := eventsAttendedColl db; limitColl := limitColl db |}.

Definition set_eventsAttendedColl
    (f : gmap oid EventsAttendedBucketSchema → gmap oid EventsAttendedBucketSchema)
    (db : Db) : Db :=
  {| troupeColl := troupeColl db; dashboardColl := dashboardColl db;
     eventColl := eventColl db; audienceColl := audienceColl db;
     eventsAttendedColl := f (eventsAttendedColl db); limitColl := limitColl db |}.

Definition set_troupeColl (f : gmap oid TroupeSchema → gmap oid TroupeSchema)
    (db : Db) : Db :=
  {| troupeColl := f (troupeColl db); dashboardColl := dashboardColl db;
     eventColl := eventColl db; audienceColl := audienceColl db;
     eventsAttendedColl := eventsAttendedColl db; limitColl := limitColl db |}.

(** [updateOne({ troupeId }, { $set: dashboardUpdate }, { upsert: true })].
    [dashboardUpdate] has every field but [totalAttendees] when that was
    never assigned; the stored value of a field that is not set stays. *)
Definition upsertDashboard (troupeId : oid) (u : TroupeDashboardSchema)
    (coll : gmap oid TroupeDashboardSchema) : gmap oid TroupeDashboardSchema :=
  match totalAttendees u, coll !! troupeId with
  | JUndefined, Some stored =>
      <[troupeId :=
          {| d_lastUpdated := d_lastUpdated u;
             upcomingBirthdays := upcomingBirthdays u;
             totalMembers := totalMembers u;
             totalEvents := totalEvents u;
             totalEventTypes := totalEventTypes u;
             totalAttendees := totalAttendees stored;
             totalAttendeesByEventType := totalAttendeesByEventType u;
             totalEventsByEventType := totalEventsByEventType u;
             avgAttendeesPerEvent := avgAttendeesPerEvent u;
             avgAttendeesByEventType := avgAttendeesByEventType u;
             attendeePercentageByEventType := attendeePercentageByEventType u;
             eventPercentageByEventType := eventPercentageByEventType u |}]> coll
  | _, _ => <[troupeId := u]> coll
  end.

(** [bulkWrite] of [updateOne({ _id }, { $set: doc }, { upsert: true })],
    one per document and in order; the document sets all of its fields. *)
Definition bulkUpsert {A} (_id : A → oid) (docs : list A) (coll : gmap oid A)
    : gmap oid A :=
  foldl (λ coll doc, <[_id doc := doc]> coll) coll docs.

(** [deleteMany({ _id: { $in: ids } })] *)
Definition deleteMany {A} (ids : list oid) (coll : gmap oid A) : gmap oid A :=
  foldl (λ coll _id, base.delete _id coll) coll ids.

(** The writes of the transaction, in the order of the callback. *)
Definition transactionWrites (troupeId : oid) (acc : Persist)
    (updateEvents : list EventSchema) (db : Db) : Db :=
  let db := set_dashboardColl (upsertDashboard troupeId (dashboardUpdate acc)) db in
  let db := set_eventColl (bulkUpsert ev_id updateEvents) db in
  let db := set_audienceColl (bulkUpsert m_id (updateAudience acc)) db in
  let db := set_audienceColl (deleteMany (membersToDelete acc)) db in
  let db := set_eventsAttendedColl (bulkUpsert b_id (updateEventsAttended acc)) db in
  set_eventsAttendedColl (deleteMany (eventsAttendedToDelete acc)) db.

(** Whether the driver counts the collection calls of the callback, none
    of which names the session, into the transaction.  When it does, an
    aborted transaction leaves the database as it was; when it does not,
    the writes made before the failure stay. *)
Variable sessionCoversWrites : bool.

(** [persistSync]: what it returns or raises, and the database it leaves. *)
Definition persistSync (db : Db) (this : SyncTroupe) : outcome SyncTroupe * Db :=
  let troupeId := t_id (troupe this) in
  match prepareSync this with
  | Ok (acc, updateEvents) =>
      let db1 := transactionWrites troupeId acc updateEvents db in
      match incrementTroupeLimits db1 troupeId (incrementLimits (p_this acc)) with
      | None =>
          (Throw (AssertionError
             "Invalid state -- limits exceeded for sync operation. This is unintended behavior."),
           if sessionCoversWrites then db else db1)
      | Some db2 =>
          match commitTransaction db2 with
          | Resolved _ => (Ok (p_this acc), db2)
          | Rejected e => (Throw e, if sessionCoversWrites then db else db2)
          end
      end
  | Throw e => (Throw e, db)
  | OutOfFuel => (OutOfFuel, db)
  end.

(** ** [refreshLogSheet] and [sync] *)

(** [refreshLogSheet] copies the events and the members of [this] into
    sorted arrays and hands them to [GoogleSheetsLogService.updateLog]; it
    changes neither [this] nor the database, and what is kept of it is
    whether it raises. *)
Variable refreshLogSheet : SyncTroupe → settled unit.

(** The id that the first [new ObjectId()] of a run returns. *)
Variable firstObjectId : oid.

(** The [try] block of [sync] (lines 87-98), with the database it leaves
    behind whether or not it raises. *)
Definition performSync (db : Db) (troupe : TroupeSchema) (troupeId : oid)
    (skipLogPublish : bool) : outcome unit * Db :=
  let loaded : outcome SyncTroupe :=
    dashboard ← deref (dashboardColl db !! troupeId);
    limits ← deref (getTroupeLimits db troupeId);
    let this :=
      {| troupe := troupe; dashboard := dashboard; currentLimits := limits;
         eventMap := []; attendeeMap := [];
         incrementLimits :=
           {| eventsLeft := 0; sourceFolderUrisLeft := 0; membersLeft := 0 |};
         nextObjectId := firstObjectId |} in
    this ← discoverEvents db this;
    discoverAndRefreshAudience db this in
  match loaded with
  | Ok this =>
      match persistSync db this with
      | (Ok this, db') =>
          (if skipLogPublish then Ok tt else await (refreshLogSheet this), db')
      | (Throw e, db') => (Throw e, db')
      | (OutOfFuel, db') => (OutOfFuel, db')
      end
  | Throw e => (Throw e, db)
  | OutOfFuel => (OutOfFuel, db)
  end.

Definition lockTroupe (lock : bool) (t : TroupeSchema) : TroupeSchema :=
  {| t_id := t_id t; syncLock := lock; logSheetUri := logSheetUri t;
     eventTypes := eventTypes t; memberPropertyTypes := memberPropertyTypes t;
     pointTypes := pointTypes t |}.

(** [sync(troupeId, skipLogPublish)]: what the caller gets, and the
    database afterwards. *)
Definition sync (db : Db) (troupeId : oid) (skipLogPublish : bool)
    : outcome unit * Db :=
  match troupeColl db !! troupeId with
  | None => (Throw (AssertionError "Unable to find troupe"), db)
  | Some schema =>
      if syncLock schema then
        (Throw (AssertionError "Troupe is already being synced"), db)
      else
        (* findOneAndUpdate, returnDocument: "after" *)
        let troupe := lockTroupe true schema in
        let db := set_troupeColl <[troupeId := troupe]> db in
        match performSync db troupe troupeId skipLogPublish with
        | (OutOfFuel, db) => (OutOfFuel, db)
        | (_, db) =>
            (* a raised error was logged; unlock the troupe *)
            let modifiedCount :=
              match troupeColl db !! troupeId with
              | Some t => if syncLock t then 1 else 0
              | None => 0
              end in
            let db := set_troupeColl (alter (lockTroupe false) troupeId) db in
            (assert (bool_decide (modifiedCount = 1))
               "Failed to unlock troupe after sync", db)
        end
  end.

End SyncTroupe.

(** ** The log *)

(** An [AttendeeSchema]: the member ([...member]) and the events it
    attended, by the id of the event. *)
Record AttendeeSchema := {
  a_member : MemberSchema;
  a_eventsAttended : gmap oid BucketEvent;
}.

(** [points["Total"]], [undefined] when the member has no such points. *)
Definition total (a : AttendeeSchema) : option Z :=
  points (a_member a) !! "Total"%string.

(** The orders of the two [sort] calls of [refreshLogSheet]:
    [a.startDate.getTime() - b.startDate.getTime()] and
    [a.points["Total"] - b.points["Total"]] are not positive.  The second
    difference is [NaN] when one of the two is [undefined], which [sort]
    takes for zero. *)
Definition startDate_le (a b : EventSchema) : Prop := startDate a ≤ startDate b.

Definition total_le (a b : AttendeeSchema) : Prop :=
  match total a, total b with
  | Some x, Some y => x ≤ y
  | _, _ => True
  end.

#[local] Instance startDate_le_dec : RelDecision startDate_le.
Proof. intros a b. unfold startDate_le. apply _. Defined.

#[local] Instance total_le_dec : RelDecision total_le.
Proof.
  intros a b. unfold total_le. destruct (total a), (total b); apply _.
Defined.

(** Lines 589-606: the attendee made of an entry of [this.attendeeMap]. *)
Definition attendee (m : MemberData) : AttendeeSchema :=
  {| a_member := member m;
     a_eventsAttended :=
       foldl
         (λ events e,
            <[eventId e :=
                {| be_typeId := typeId e; be_value := ea_value e;
                   be_startDate := ea_startDate e |}]> events)
         ∅ (eventsAttended m) |}.

(** Lines 585-609: what [refreshLogSheet] hands to [updateLog].  [sort]
    is a merge sort here; the statements below are about the order and the
    elements of its result, which every sort agrees on. *)
Definition logSheetArguments (this : SyncTroupe)
    : string * TroupeSchema * list EventSchema * list AttendeeSchema :=
  let events :=
    merge_sort startDate_le (event <$> jsobj_values (eventMap this)) in
  let audience :=
    merge_sort total_le (attendee <$> jsobj_values (attendeeMap this)) in
  (logSheetUri (troupe this), troupe this, events, audience).

(** [TroupeLogService] *)
Section TroupeLogService.

(** The abstract [validateLogUri] *)
Variable validateLogUri : string → bool.

(** [array.every((element, i) => ...)] *)
Fixpoint every_from {A} (callback : A → nat → outcome bool) (i : nat)
    (l : list A) : outcome bool :=
  match l with
  | [] => Ok true
  | x :: l' =>
      b ← callback x i;
      if b : bool then every_from callback (S i) l' else Ok false
  end.

Definition every {A} (callback : A → nat → outcome bool) (l : list A)
    : outcome bool :=
  every_from callback 0 l.

(** [validateParams(uri?, troupe?, events?, audience?)].  A comparison
    with [undefined] is false. *)
Definition validateParams (uri : option string) (troupe : option TroupeSchema)
    (events : option (list EventSchema))
    (audience : option (list AttendeeSchema)) : outcome bool :=
  let uri :=
    match uri with
    | Some u => if bool_decide (u = ""%string) then logSheetUri <$> troupe else Some u
    | None => logSheetUri <$> troupe
    end in
  match uri with
  | None => Ok false
  | Some u =>
      if bool_decide (u = ""%string) || negb (validateLogUri u) then Ok false
      else
        eventsSorted ←
          match events with
          | Some events =>
              every
                (λ event i,
                   if bool_decide (Z.of_nat i = Z.of_nat (length events) - 1)
                   then Ok true
                   else
                     next ← deref (events !! (i + 1)%nat);
                     Ok (bool_decide (startDate event ≤ startDate next)))
                events
          | None => Ok true
          end;
        if negb eventsSorted then Ok false
        else
          audienceSorted ←
            match audience with
            | Some audience =>
                every
                  (λ member i,
                     if bool_decide
                          (Z.of_nat i = Z.of_nat (length audience) - 1)
                     then Ok true
                     else
                       next ← deref (audience !! (i + 1)%nat);
                       Ok match total member, total next with
                          | Some x, Some y => bool_decide (x ≤ y)
                          | _, _ => false
                          end)
                  audience
            | None => Ok true
            end;
          if negb audienceSorted then Ok false else Ok true
  end.

End TroupeLogService.

(** * Examples

    One tenant, concrete collaborators, and the inputs that the statements
    below are tried on. *)

Module Sample.

(** Constants of [util/constants] and helpers of [util/helper], as simple
    as the examples need them. *)
Definition DRIVE_FOLDER_MIME : string := "application/vnd.google-apps.folder".
Definition FORM_MIME : string := "application/vnd.google-apps.form".
Definition SHEET_MIME : string := "application/vnd.google-apps.spreadsheet".
Definition EVENT_DATA_SOURCE_MIME_TYPES : list string := [FORM_MIME; SHEET_MIME].
Definition EVENT_DATA_SOURCES : list string := ["Google Forms"; "Google Sheets"]%string.
Definition FULL_DAY : Z := 86400000.
Definition getDataSourceId (dataSource url : string) : option string := Some url.
Definition getDataSourceUrl (dataSource id : string) : string :=
  (dataSource +:+ ":" +:+ id)%string.
Definition now : Z := 1700000000000.
Definition Date_toString (t : Z) : string := pretty t.
Definition Number_of_string (s : string) : option Z := None.
Definition commitTransaction (db : Db) : settled unit := Resolved tt.
Definition refreshLogSheet (this : SyncTroupe) : settled unit := Resolved tt.
Definition firstObjectId : oid := 1000%nat.

Definition sheet (id : string) : DriveFile :=
  {| f_id := id; f_name := id; mimeType := SHEET_MIME; createdTime := None |}.
Definition folder (id : string) : DriveFile :=
  {| f_id := id; f_name := id; mimeType := DRIVE_FOLDER_MIME; createdTime := None |}.

(** A tenant with one event type that owns the folder ["F"]. *)
Definition troupeId : oid := 7%nat.
Definition typeA : EventTypeSchema :=
  {| et_id := 1%nat; et_title := "A"; et_value := 5; sourceFolderUris := ["F"%string] |}.
Definition typeB : EventTypeSchema :=
  {| et_id := 2%nat; et_title := "B"; et_value := 3; sourceFolderUris := ["F"%string] |}.
Definition tenant (lock : bool) : TroupeSchema :=
  {| t_id := troupeId; syncLock := lock; logSheetUri := "log";
     eventTypes := [typeA];
     memberPropertyTypes :=
       [("Member ID", "string!"); ("First Name", "string!");
        ("Last Name", "string!"); ("Email", "string?");
        ("Birthday", "date?")]%string;
     pointTypes := ["Total"%string] |}.
Definition storedDashboard : TroupeDashboardSchema :=
  {| d_lastUpdated := 0;
     upcomingBirthdays :=
       {| frequency := "monthly"; desiredFrequency := "monthly"; members := [] |};
     totalMembers := 0; totalEvents := 0; totalEventTypes := 1;
     totalAttendees := JUndefined;
     totalAttendeesByEventType := ∅; totalEventsByEventType := ∅;
     avgAttendeesPerEvent := JZ 0; avgAttendeesByEventType := ∅;
     attendeePercentageByEventType := ∅; eventPercentageByEventType := ∅ |}.
Definition limits (events : Z) : TroupeLimit :=
  {| eventsLeft := events; sourceFolderUrisLeft := 5; membersLeft := 5 |}.
Definition noLimits : TroupeLimit :=
  {| eventsLeft := 0; sourceFolderUrisLeft := 0; membersLeft := 0 |}.
Definition database (lock : bool) (events : Z) : Db :=
  {| troupeColl := {[ troupeId := tenant lock ]};
     dashboardColl := {[ troupeId := storedDashboard ]};
     eventColl := ∅; audienceColl := ∅; eventsAttendedColl := ∅;
     limitColl := {[ troupeId := limits events ]} |}.
Definition started (events : Z) : SyncTroupe :=
  {| troupe := tenant true; dashboard := storedDashboard;
     currentLimits := limits events; eventMap := []; attendeeMap := [];
     incrementLimits := noLimits; nextObjectId := firstObjectId |}.

(** The folder ["F"] holds two sheets and the folder ["G"], which holds a
    third sheet. *)
Definition drive (call : nat) (folderId : string) : Listing :=
  if bool_decide (folderId = "F"%string) then
    ListingFiles [sheet "s1"; sheet "s2"; folder "G"]
  else if bool_decide (folderId = "G"%string) then ListingFiles [sheet "s3"]
  else ListingFails.

(** A data service that finds nobody. *)
Definition nobody (dataSource : string) (event : EventSchema) (lastUpdated : Z)
    (this : SyncTroupe) : settled SyncTroupe := Resolved this.

(** The steps of a run with these collaborators. *)
Definition runDiscovery (db : Db) (this : SyncTroupe) : outcome Discovery :=
  runDiscovery DRIVE_FOLDER_MIME EVENT_DATA_SOURCE_MIME_TYPES EVENT_DATA_SOURCES
    getDataSourceId getDataSourceUrl drive now db this.
Definition discoverEvents (db : Db) (this : SyncTroupe) : outcome SyncTroupe :=
  discoverEvents DRIVE_FOLDER_MIME EVENT_DATA_SOURCE_MIME_TYPES EVENT_DATA_SOURCES
    getDataSourceId getDataSourceUrl drive now db this.
Definition discoverAndRefreshAudience
    (dataService : string → EventSchema → Z → SyncTroupe → settled SyncTroupe)
    (db : Db) (this : SyncTroupe) : outcome SyncTroupe :=
  discoverAndRefreshAudience now dataService Date_toString db this.
Definition prepareSync (this : SyncTroupe) : outcome (Persist * list EventSchema) :=
  prepareSync FULL_DAY now Number_of_string this.
Definition persistSync (db : Db) (this : SyncTroupe) : outcome SyncTroupe * Db :=
  persistSync FULL_DAY now Number_of_string commitTransaction true db this.
Definition sync
    (dataService : string → EventSchema → Z → SyncTroupe → settled SyncTroupe)
    (db : Db) (troupeId : oid) (skipLogPublish : bool) : outcome unit * Db :=
  sync DRIVE_FOLDER_MIME EVENT_DATA_SOURCE_MIME_TYPES EVENT_DATA_SOURCES FULL_DAY
    getDataSourceId getDataSourceUrl drive now dataService Date_toString
    Number_of_string commitTransaction true refreshLogSheet firstObjectId
    db troupeId skipLogPublish.

(** The same run for a tenant whose two event types both declare the
    folder ["F"]. *)
Definition rivals : SyncTroupe :=
  {| troupe :=
       {| t_id := troupeId; syncLock := true; logSheetUri := "log";
          eventTypes := [typeA; typeB];
          memberPropertyTypes := memberPropertyTypes (tenant true);
          pointTypes := pointTypes (tenant true) |};
     dashboard := storedDashboard; currentLimits := limits 5;
     eventMap := []; attendeeMap := []; incrementLimits := noLimits;
     nextObjectId := firstObjectId |}.

(** Two event types claim the folder ["F"], which the first one owns. *)
Definition contested (ownerCount challengerCount : Z) : Discovery :=
  {| this_ := started 5;
     discoveryEventTypes :=
       [{| eventType := typeA; totalFiles := ownerCount |};
        {| eventType := typeB; totalFiles := challengerCount |}];
     folderToEventTypeMap := {[ "F"%string := 0%nat ]};
     foldersToExplore := ["F"%string];
     discoveredFolders := [];
     driveCalls := 0 |}.

(** A data service that finds one person in every event, known by the
    member id ["m1"] and, unless [firstName] is given, without a first
    name. *)
Definition person (_id : oid) (firstName : string) : MemberSchema :=
  {| m_id := _id; m_troupeId := troupeId; m_lastUpdated := now;
     properties :=
       {[ "Member ID"%string := {| value := PString "m1"; override := false |};
          "First Name"%string := {| value := PString firstName; override := false |};
          "Last Name"%string := {| value := PString "Lovelace"; override := false |};
          "Email"%string := {| value := PString "ada@example.org"; override := false |};
          "Birthday"%string := {| value := PUndefined; override := false |} ]};
     points := {[ "Total"%string := 0 ]} |}.

Definition attended (event : EventSchema) : EventAttended :=
  {| eventId := ev_id event; typeId := eventTypeId event;
     ea_value := ev_value event; ea_startDate := startDate event |}.

Definition somebody (firstName : string) (dataSource : string)
    (event : EventSchema) (lastUpdated : Z) (this : SyncTroupe)
    : settled SyncTroupe :=
  match jsobj_get "m1"%string (attendeeMap this) with
  | Some m =>
      Resolved
        (set_attendeeMap
           (jsobj_set "m1"%string
              {| member := member m;
                 eventsAttended := eventsAttended m ++ [attended event];
                 eventsAttendedDocs := eventsAttendedDocs m;
                 delete_ := delete_ m; fromColl := fromColl m |})
           this)
  | None =>
      let '(_id, this) := newObjectId this in
      Resolved
        (set_attendeeMap
           (jsobj_set "m1"%string
              {| member := person _id firstName;
                 eventsAttended := [attended event];
                 eventsAttendedDocs := [];
                 delete_ := false; fromColl := false |})
           this)
  end.

(** [this] after the two discovery steps of a run on [database false 5]. *)
Definition discovered (firstName : string) : SyncTroupe :=
  match
    discoverEvents (database true 5) (started 5)
    ≫= discoverAndRefreshAudience (somebody firstName) (database true 5)
  with
  | Ok this => this
  | _ => started 5
  end.

(** A stored member with a first name set by the operator and an e-mail
    address that was not, and the database that holds nobody else. *)
Definition storedMember : MemberSchema :=
  {| m_id := 50%nat; m_troupeId := troupeId; m_lastUpdated := 0;
     properties :=
       {[ "Member ID"%string := {| value := PString "m0"; override := false |};
          "First Name"%string := {| value := PString "Grace"; override := true |};
          "Last Name"%string := {| value := PString "Hopper"; override := false |};
          "Email"%string := {| value := PString "grace@example.org"; override := false |};
          "Birthday"%string := {| value := PUndefined; override := false |} ]};
     points := {[ "Total"%string := 12 ]} |}.

Definition databaseWithMember : Db :=
  {| troupeColl := {[ troupeId := tenant true ]};
     dashboardColl := {[ troupeId := storedDashboard ]};
     eventColl := ∅; audienceColl := {[ 50%nat := storedMember ]};
     eventsAttendedColl := ∅;
     limitColl := {[ troupeId := limits 5 ]} |}.

(** A member with 65 attendance records of as many events, and the
    buckets stored for the member before: [stored] of them, each holding one
    record of an event that is not among the 65. *)
Definition staleBucket (page : nat) : EventsAttendedBucketSchema :=
  {| b_id := (500 + page)%nat; b_troupeId := troupeId; memberId := 50%nat;
     page := page;
     events := {[ (900 + page)%nat :=
                    {| be_typeId := Some 1%nat; be_value := 5; be_startDate := 0 |} ]} |}.

Definition busyMember (stored : nat) : MemberData :=
  {| member := storedMember;
     eventsAttended :=
       (λ i, {| eventId := (100 + i)%nat; typeId := Some 1%nat; ea_value := 5;
                ea_startDate := 0 |}) <$> seq 0 65;
     eventsAttendedDocs := staleBucket <$> seq 0 stored;
     delete_ := false; fromColl := true |}.

Definition emptyPersist : Persist :=
  {| p_this := started 5;
     dashboardUpdate :=
       initializeStatistics typeA
         (initialDashboardUpdate now (started 5));
     updateAudience := []; membersToDelete := [];
     updateEventsAttended := []; eventsAttendedToDelete := [] |}.

Definition persistBusyMember (stored : nat) : outcome Persist :=
  persistMember Number_of_string troupeId (now + FULL_DAY * 30)
    (busyMember stored) emptyPersist.

End Sample.

(** More inputs: stored events, a Drive that is down, a member that
    leaves. *)
Module Stored.

(** A Drive that answers no listing, and discovery with it. *)
Definition offline (call : nat) (folderId : string) : Listing := ListingFails.

Definition runDiscoveryOffline (db : Db) (this : SyncTroupe)
    : outcome Discovery :=
  runDiscovery Sample.DRIVE_FOLDER_MIME Sample.EVENT_DATA_SOURCE_MIME_TYPES
    Sample.EVENT_DATA_SOURCES Sample.getDataSourceId Sample.getDataSourceUrl
    offline Sample.now db this.

Definition exploreFoldersOffline (fuel : nat) (d : Discovery)
    : outcome Discovery :=
  exploreFolders Sample.DRIVE_FOLDER_MIME Sample.EVENT_DATA_SOURCE_MIME_TYPES
    Sample.EVENT_DATA_SOURCES Sample.getDataSourceUrl offline Sample.now
    fuel d.

Import Sample.

(** Two stored events of the tenant: the sheet ["s1"] of the folder
    ["F"], stored without an event type, and a sheet that is in no folder
    any more, stored with the event type [typeA]. *)
Definition storedEvent (_id : oid) (sheetId : string) (eventTypeId : option oid)
    : EventSchema :=
  {| ev_id := _id; ev_troupeId := troupeId; ev_lastUpdated := 0;
     ev_title := sheetId;
     source := "Google Sheets"; synchronizedSource := "Google Sheets";
     sourceUri := getDataSourceUrl "Google Sheets" sheetId;
     synchronizedSourceUri := getDataSourceUrl "Google Sheets" sheetId;
     startDate := 0; eventTypeId := eventTypeId; eventTypeTitle := None;
     ev_value := 0;
     fieldToPropertyMap := ∅; synchronizedFieldToPropertyMap := ∅ |}.

Definition databaseWithEvents : Db :=
  {| troupeColl := {[ troupeId := tenant true ]};
     dashboardColl := {[ troupeId := storedDashboard ]};
     eventColl := {[ 60%nat := storedEvent 60%nat "s1" None;
                     61%nat := storedEvent 61%nat "old" (Some 1%nat) ]};
     audienceColl := ∅; eventsAttendedColl := ∅;
     limitColl := {[ troupeId := limits 5 ]} |}.

(** The local variables of [discoverEvents] for [rivals] when the
    worklist loop starts: the folder ["F"] went from the first event type to
    the second and is on the worklist twice. *)
Definition handedOver : Discovery :=
  {| this_ := rivals;
     discoveryEventTypes :=
       [{| eventType := typeA; totalFiles := 0 |};
        {| eventType := typeB; totalFiles := 1 |}];
     folderToEventTypeMap := {[ "F"%string := 1%nat ]};
     foldersToExplore := ["F"; "F"]%string;
     discoveredFolders := [];
     driveCalls := 0 |}.

(** [this] after [discoverEvents] on [database true 5]. *)
Definition explored : SyncTroupe :=
  match discoverEvents (database true 5) (started 5) with
  | Ok this => this
  | _ => started 5
  end.

(** The stored member has lost a required property and is flagged; one
    bucket is stored for it. *)
Definition leaver : MemberData :=
  {| member := storedMember; eventsAttended := [];
     eventsAttendedDocs := [staleBucket 0];
     delete_ := true; fromColl := true |}.

Definition leaving : SyncTroupe :=
  set_attendeeMap (λ _, [("m0"%string, leaver)]) (started 5).

Definition databaseWithBucket : Db :=
  {| troupeColl := {[ troupeId := tenant true ]};
     dashboardColl := {[ troupeId := storedDashboard ]};
     eventColl := ∅; audienceColl := {[ 50%nat := storedMember ]};
     eventsAttendedColl := {[ 500%nat := staleBucket 0 ]};
     limitColl := {[ troupeId := limits 5 ]} |}.

(** A stored member without a member id. *)
Definition nameless : MemberSchema :=
  {| m_id := 51%nat; m_troupeId := troupeId; m_lastUpdated := 0;
     properties :=
       {[ "First Name"%string := {| value := PString "Alan"; override := false |} ]};
     points := {[ "Total"%string := 0 ]} |}.

Definition databaseWithNameless : Db :=
  {| troupeColl := {[ troupeId := tenant true ]};
     dashboardColl := {[ troupeId := storedDashboard ]};
     eventColl := ∅;
     audienceColl := {[ 50%nat := storedMember; 51%nat := nameless ]};
     eventsAttendedColl := ∅;
     limitColl := {[ troupeId := limits 5 ]} |}.

(** A tenant that has no dashboard. *)
Definition databaseWithoutDashboard : Db :=
  {| troupeColl := {[ troupeId := tenant false ]};
     dashboardColl := ∅;
     eventColl := ∅; audienceColl := ∅; eventsAttendedColl := ∅;
     limitColl := {[ troupeId := limits 5 ]} |}.

(** A log service that takes every URI but ["nowhere"]. *)
Definition validateLogUri (uri : string) : bool :=
  bool_decide (uri ≠ "nowhere"%string).

End Stored.

(** ** Vocabulary of the statements *)

(** The five statistics that a dashboard keeps for one event type. *)
Definition statistics (u : TroupeDashboardSchema) (eventTypeId : oid)
    : option Stat * option Stat * option Stat
      * option PercentStat * option PercentStat :=
  (totalEventsByEventType u !! eventTypeId,
   totalAttendeesByEventType u !! eventTypeId,
   avgAttendeesByEventType u !! eventTypeId,
   attendeePercentageByEventType u !! eventTypeId,
   eventPercentageByEventType u !! eventTypeId).

(** While [persistSync] counts: the statistics of an event type hold
    [e] events and [a] attendance records, the average holding the
    attendance records as well. *)
Definition counting
    (s : option Stat * option Stat * option Stat
         * option PercentStat * option PercentStat) (e a : Z) : Prop :=
  let '(events, attendees, avg, attendeePercentage, eventPercentage) := s in
  0 ≤ e ∧ 0 ≤ a
  ∧ s_value <$> events = Some (JZ e)
  ∧ s_value <$> attendees = Some (JZ a)
  ∧ s_value <$> avg = Some (JZ a)
  ∧ percent <$> attendeePercentage = Some (JZ 0)
  ∧ is_Some eventPercentage ∧ percent <$> eventPercentage = Some (JZ 0).

(** Once [persistSync] has completed them, with [totalEvents_] events in
    the whole tenant. *)
Definition completed (totalEvents_ : Z)
    (s : option Stat * option Stat * option Stat
         * option PercentStat * option PercentStat) (e a : Z) : Prop :=
  let '(events, attendees, avg, attendeePercentage, eventPercentage) := s in
  0 ≤ e ∧ 0 ≤ a
  ∧ s_value <$> events = Some (JZ e)
  ∧ s_value <$> attendees = Some (JZ a)
  ∧ s_value <$> avg
    = Some (if bool_decide (0 < e) then Math_round (js_div (JZ a) (JZ e))
            else JZ 0)
  ∧ p_value <$> attendeePercentage = Some (JZ 0)
  ∧ percent <$> attendeePercentage = Some (JZ 0)
  ∧ p_value <$> eventPercentage
    = Some (if bool_decide (0 < totalEvents_) then js_div (JZ e) (JZ totalEvents_)
            else JZ 0)
  ∧ percent <$> eventPercentage = Some (JZ 0).

(** The rational that a number is, when it is one. *)
Definition finite (x : jsnum) : option Q :=
  match x with
  | JNum q => Some (this q)
  | _ => None
  end.

(** [totalAttendees] as [persistSync] has it: never assigned, or the
    [NaN] that adding to [undefined] gives. *)
Definition not_a_count (x : jsnum) : Prop := x = JUndefined ∨ x = JNaN.

(** The invariant of the counting loops of [persistSync], for the event
    types with the given ids. *)
Definition well_counted (ids : list oid) (u : TroupeDashboardSchema) : Prop :=
  not_a_count (totalAttendees u)
  ∧ ∀ eventTypeId, eventTypeId ∈ ids →
      ∃ e a, counting (statistics u eventTypeId) e a.

(** What [discoverEvents] may do to [this] between two moments: it leaves
    everything but [eventMap] and the projected quota of new events; every
    entry added to [eventMap] takes one from that quota; and an entry that
    was there stays under its key, with the same [_id], source and origin,
    and untouched when it had an event type. *)
Definition discovery_step (this this' : SyncTroupe) : Prop :=
  troupe this' = troupe this
  ∧ dashboard this' = dashboard this
  ∧ currentLimits this' = currentLimits this
  ∧ attendeeMap this' = attendeeMap this
  ∧ sourceFolderUrisLeft (incrementLimits this')
    = sourceFolderUrisLeft (incrementLimits this)
  ∧ membersLeft (incrementLimits this') = membersLeft (incrementLimits this)
  ∧ (length (eventMap this) ≤ length (eventMap this'))%nat
  ∧ Z.of_nat (length (eventMap this')) + eventsLeft (incrementLimits this')
    = Z.of_nat (length (eventMap this)) + eventsLeft (incrementLimits this)
  ∧ ∀ uri ed,
      jsobj_get uri (eventMap this) = Some ed →
      ∃ ed', jsobj_get uri (eventMap this') = Some ed'
             ∧ ed_fromColl ed' = ed_fromColl ed
             ∧ ev_id (event ed') = ev_id (event ed)
             ∧ sourceUri (event ed') = sourceUri (event ed)
             ∧ (is_Some (eventTypeId (event ed)) → ed' = ed).

(** Every folder on the worklist is there once and has an owner among
    the event types of the troupe. *)
Definition owned_worklist (d : Discovery) : Prop :=
  NoDup (foldersToExplore d)
  ∧ ∀ f, f ∈ foldersToExplore d →
      ∃ owner, folderToEventTypeMap d !! f = Some owner
               ∧ (owner < length (discoveryEventTypes d))%nat.

(** The counters of a dashboard [u] that started as [u0]: [events] events
    and [members] members were counted since, and nothing else happened to
    the fields that are not statistics of an event type. *)
Definition tallied (events members : Z) (u0 u : TroupeDashboardSchema) : Prop :=
  totalEvents u = totalEvents u0 + events
  ∧ totalMembers u = totalMembers u0 + members
  ∧ totalEventTypes u = totalEventTypes u0
  ∧ avgAttendeesPerEvent u = avgAttendeesPerEvent u0
  ∧ d_lastUpdated u = d_lastUpdated u0.

(** The records of one page of the attendance of a member, as a bucket
    holds them. *)
Definition bucketEvent (a : EventAttended) : BucketEvent :=
  {| be_typeId := typeId a; be_value := ea_value a;
     be_startDate := ea_startDate a |}.

Definition pageRecords (records : list EventAttended) (page : nat)
    : gmap oid BucketEvent :=
  foldl (λ events a, <[eventId a := bucketEvent a]> events) ∅
    (take MAX_PAGE_SIZE (drop (page * MAX_PAGE_SIZE) records)).

(** Two attendees that both have total points, in their order. *)
Definition totals_le (a b : AttendeeSchema) : Prop :=
  ∃ x y, total a = Some x ∧ total b = Some y ∧ x ≤ y.

(** Every entry of an event map is under the source URI of its event,
    which is an event of the given tenant. *)
Definition keyed_by_source (troupeId : oid) (eventMap : jsobj string EventData)
    : Prop :=
  ∀ uri ed, (uri, ed) ∈ eventMap →
    sourceUri (event ed) = uri ∧ ev_troupeId (event ed) = troupeId.

(** * Properties *)

Section Properties.

Context (DRIVE_FOLDER_MIME : string)
  (EVENT_DATA_SOURCE_MIME_TYPES EVENT_DATA_SOURCES : list string)
  (FULL_DAY : Z)
  (getDataSourceId : string → string → option string)
  (getDataSourceUrl : string → string → string)
  (drive_files_list : nat → string → Listing)
  (now : Z)
  (dataService_discoverAudience :
     string → EventSchema → Z → SyncTroupe → settled SyncTroupe)
  (Date_toString : Z → string)
  (Number_of_string : string → option Z)
  (commitTransaction : Db → settled unit)
  (sessionCoversWrites : bool)
  (refreshLogSheet : SyncTroupe → settled unit)
  (firstObjectId : oid).

Local Abbreviation exploreFile :=
  (exploreFile DRIVE_FOLDER_MIME EVENT_DATA_SOURCE_MIME_TYPES EVENT_DATA_SOURCES
     getDataSourceUrl now).
Local Abbreviation exploreFolders :=
  (exploreFolders DRIVE_FOLDER_MIME EVENT_DATA_SOURCE_MIME_TYPES
     EVENT_DATA_SOURCES getDataSourceUrl drive_files_list now).
Local Abbreviation claimFolders := (claimFolders getDataSourceId).
Local Abbreviation initializeEventTypes := (initializeEventTypes getDataSourceId).
Local Abbreviation runDiscovery :=
  (runDiscovery DRIVE_FOLDER_MIME EVENT_DATA_SOURCE_MIME_TYPES
     EVENT_DATA_SOURCES getDataSourceId getDataSourceUrl drive_files_list now).
Local Abbreviation discoverEvents :=
  (discoverEvents DRIVE_FOLDER_MIME EVENT_DATA_SOURCE_MIME_TYPES
     EVENT_DATA_SOURCES getDataSourceId getDataSourceUrl drive_files_list now).
Local Abbreviation discoverAndRefreshAudience :=
  (discoverAndRefreshAudience now dataService_discoverAudience Date_toString).
Local Abbreviation prepareSync := (prepareSync FULL_DAY now Number_of_string).
Local Abbreviation persistMember := (persistMember Number_of_string).
Local Abbreviation persistSync :=
  (persistSync FULL_DAY now Number_of_string commitTransaction
     sessionCoversWrites).
Local Abbreviation performSync :=
  (performSync DRIVE_FOLDER_MIME EVENT_DATA_SOURCE_MIME_TYPES EVENT_DATA_SOURCES
     FULL_DAY getDataSourceId getDataSourceUrl drive_files_list now
     dataService_discoverAudience Date_toString Number_of_string
     commitTransaction sessionCoversWrites refreshLogSheet firstObjectId).
Local Abbreviation sync :=
  (sync DRIVE_FOLDER_MIME EVENT_DATA_SOURCE_MIME_TYPES EVENT_DATA_SOURCES
     FULL_DAY getDataSourceId getDataSourceUrl drive_files_list now
     dataService_discoverAudience Date_toString Number_of_string
     commitTransaction sessionCoversWrites refreshLogSheet firstObjectId).

(** ** The tie breaker *)

(** C5.  A folder claimed by an event type other than its owner: the owner
    keeps the folder exactly when its count is strictly below the
    challenger's; without an owner, and on a tie, the challenger gets it;
    and a transfer takes one from the count of the previous owner, adds one
    to the count of the new owner and puts the folder on the worklist. *)
Theorem tie_breaker_ownership (d : Discovery) (folderId : string)
    (challenger : nat) (c : DiscoveryEventType) :
  discoveryEventTypes d !! challenger = Some c →
  folderToEventTypeMap d !! folderId ≠ Some challenger →
  (∀ owner, folderToEventTypeMap d !! folderId = Some owner →
            is_Some (discoveryEventTypes d !! owner)) →
  ∃ d', claimFolder folderId challenger d = Ok d' ∧
    match folderToEventTypeMap d !! folderId with
    | None =>
        folderToEventTypeMap d' !! folderId = Some challenger
        ∧ discoveryEventTypes d' !! challenger = Some (add_totalFiles 1 c)
        ∧ foldersToExplore d' = folderId :: foldersToExplore d
    | Some owner =>
        ∃ o, discoveryEventTypes d !! owner = Some o
        ∧ (folderToEventTypeMap d' !! folderId = Some owner
           ↔ totalFiles o < totalFiles c)
        ∧ (folderToEventTypeMap d' !! folderId = Some challenger
           ↔ totalFiles c ≤ totalFiles o)
        ∧ (totalFiles o < totalFiles c → d' = d)
        ∧ (totalFiles c ≤ totalFiles o →
           discoveryEventTypes d' !! owner = Some (add_totalFiles (-1) o)
           ∧ discoveryEventTypes d' !! challenger = Some (add_totalFiles 1 c)
           ∧ foldersToExplore d' = folderId :: foldersToExplore d)
    end.
Proof.
  intros Hc Hne Hvalid.
  unfold claimFolder, performEventTypeTieBreaker.
  destruct (folderToEventTypeMap d !! folderId) as [owner|] eqn:Hmap; simpl.
  - destruct (Hvalid owner eq_refl) as [o Ho].
    assert (Hoc : owner ≠ challenger) by congruence.
    rewrite Ho, Hc. simpl.
    destruct (decide (totalFiles o < totalFiles c)) as [Hlt|Hlt].
    + rewrite (bool_decide_eq_true_2 _ Hlt).
      rewrite bool_decide_eq_false_2 by (intros H; by apply H).
      exists d. split; [done|]. exists o. rewrite Hmap.
      split; [done|]. split; [done|]. split; [|split; [done|lia]].
      split; [|lia]. congruence.
    + rewrite (bool_decide_eq_false_2 _ Hlt).
      rewrite bool_decide_eq_true_2 by congruence. simpl.
      eexists. split; [done|]. exists o. simpl.
      rewrite lookup_insert_eq.
      split; [done|]. split; [split; [congruence|lia]|].
      split; [split; [lia|done]|]. split; [lia|]. intros _.
      rewrite list_lookup_alter_ne, list_lookup_alter_eq, Ho by done.
      rewrite list_lookup_alter_eq, list_lookup_alter_ne, Hc by done.
      done.
  - eexists. split; [done|]. simpl.
    rewrite lookup_insert_eq, list_lookup_alter_eq, Hc. done.
Qed.

(** ** Lock contention *)

(** C2.  When the lock of the tenant is held, [sync] raises and leaves the
    whole database, lock included, as it was. *)
Theorem sync_fails_fast_when_locked (db : Db) (troupeId : oid)
    (skipLogPublish : bool) (schema : TroupeSchema) :
  troupeColl db !! troupeId = Some schema →
  syncLock schema = true →
  sync db troupeId skipLogPublish
  = (Throw (AssertionError "Troupe is already being synced"), db).
Proof.
  intros Hschema Hlock. unfold sync. by rewrite Hschema, Hlock.
Qed.

(** ** Termination of the loops *)

Lemma settles_Ok {A} (a : A) : settles (Ok a).
Proof. done. Qed.

Lemma settles_Throw {A} (e : error) : settles (@Throw A e).
Proof. done. Qed.

Lemma settles_bind {A B} (m : outcome A) (f : A → outcome B) :
  settles m → (∀ a, m = Ok a → settles (f a)) → settles (m ≫= f).
Proof. destruct m; simpl; [eauto | done | done]. Qed.

Lemma settles_deref {A} (o : option A) : settles (deref o).
Proof. by destruct o. Qed.

Lemma settles_await {A} (p : settled A) : settles (await p).
Proof. by destruct p. Qed.

Lemma settles_assert c msg : settles (assert c msg).
Proof. by destruct c. Qed.

Create HintDb settles.

#[local] Hint Resolve settles_Ok settles_Throw settles_deref settles_await
  settles_assert : settles.

Lemma settles_for_of {A S} (body : A → S → outcome S) (l : list A) (s : S) :
  (∀ a s, settles (body a s)) → settles (for_of body l s).
Proof.
  intros Hbody. revert s.
  induction l as [|a l IH]; intros s; simpl; [done|].
  apply settles_bind; auto.
Qed.

(** A monadic loop keeps what each of its rounds keeps. *)
Lemma for_of_invariant {A S} (P : S → Prop) (body : A → S → outcome S)
    (l : list A) (s s' : S) :
  (∀ a s s', P s → body a s = Ok s' → P s') →
  P s → for_of body l s = Ok s' → P s'.
Proof.
  intros Hbody. revert s.
  induction l as [|a l IH]; intros s Hs; simpl.
  - by intros [= <-].
  - destruct (body a s) as [s1| |] eqn:Hb; simpl; [|done..].
    eauto.
Qed.

Lemma settles_performEventTypeTieBreaker types map folderId current :
  settles (performEventTypeTieBreaker types map folderId current).
Proof.
  unfold performEventTypeTieBreaker.
  destruct (map !! folderId); [|done].
  repeat (apply settles_bind; [auto with settles|intros ? _]). done.
Qed.

(** A folder found among the files of the folder being explored is run
    through the tie breaker under the id of the folder being explored, whose
    owner claims it again: nothing changes. *)
Lemma exploreFile_folder (folderId : string) (file : DriveFile) (d d' : Discovery) :
  mimeType file = DRIVE_FOLDER_MIME →
  exploreFile folderId (folderToEventTypeMap d !! folderId) file d = Ok d' →
  d' = d.
Proof.
  intros Hmime. unfold exploreFile, performEventTypeTieBreaker.
  rewrite bool_decide_eq_true_2 by done.
  destruct (folderToEventTypeMap d !! folderId) as [owner|] eqn:Hmap; simpl.
  - destruct (discoveryEventTypes d !! owner) as [o|]; simpl; [|done].
    rewrite (bool_decide_eq_false_2 (totalFiles o < totalFiles o)) by lia.
    rewrite bool_decide_eq_false_2 by (intros H; by apply H).
    by intros [= <-].
  - by intros [= <-].
Qed.

(** The loop over the files leaves the worklist, the ownership table, the
    counts and the list of explored folders alone. *)
Lemma exploreFile_locals (folderId : string) (file : DriveFile) (d d' : Discovery) :
  exploreFile folderId (folderToEventTypeMap d !! folderId) file d = Ok d' →
  foldersToExplore d' = foldersToExplore d
  ∧ folderToEventTypeMap d' = folderToEventTypeMap d
  ∧ discoveryEventTypes d' = discoveryEventTypes d
  ∧ discoveredFolders d' = discoveredFolders d
  ∧ driveCalls d' = driveCalls d.
Proof.
  destruct (decide (mimeType file = DRIVE_FOLDER_MIME)) as [Hmime|Hmime].
  { intros ->%exploreFile_folder; done. }
  unfold exploreFile. rewrite bool_decide_eq_false_2 by done.
  destruct (indexOf _ _); [|by intros [= <-]].
  destruct (deref _) as [current| |]; simpl; [|done..].
  destruct (jsobj_get _ _); [by intros [= <-]|].
  case_bool_decide; by intros [= <-].
Qed.

Lemma settles_exploreFile folderId current file d :
  settles (exploreFile folderId current file d).
Proof.
  unfold exploreFile.
  case_bool_decide.
  - apply settles_bind; [apply settles_performEventTypeTieBreaker|intros w _].
    case_bool_decide; [|done].
    destruct (folderToEventTypeMap d !! folderId).
    + apply settles_bind; auto with settles.
    + case_bool_decide; [done|]. apply settles_bind; auto with settles.
  - destruct (indexOf _ _); [|done].
    apply settles_bind; [auto with settles|intros c _].
    destruct (jsobj_get _ _); [done|]. by case_bool_decide.
Qed.

Lemma exploreFiles_locals (folderId : string) (current : option nat)
    (files : list DriveFile) (d d' : Discovery) :
  current = folderToEventTypeMap d !! folderId →
  for_of (exploreFile folderId current) files d = Ok d' →
  foldersToExplore d' = foldersToExplore d
  ∧ folderToEventTypeMap d' = folderToEventTypeMap d
  ∧ discoveryEventTypes d' = discoveryEventTypes d
  ∧ discoveredFolders d' = discoveredFolders d
  ∧ driveCalls d' = driveCalls d.
Proof.
  intros ->.
  apply (for_of_invariant
           (λ x, foldersToExplore x = foldersToExplore d
                 ∧ folderToEventTypeMap x = folderToEventTypeMap d
                 ∧ discoveryEventTypes x = discoveryEventTypes d
                 ∧ discoveredFolders x = discoveredFolders d
                 ∧ driveCalls x = driveCalls d)); [|done].
  intros file s s' (Hw & Hm & Ht & Hd & Hc) Hstep.
  rewrite <- Hm in Hstep. apply exploreFile_locals in Hstep.
  destruct Hstep as (-> & -> & -> & -> & ->). done.
Qed.

(** The worklist loop ends: every round takes a folder off the worklist
    and none puts one on. *)
Lemma settles_exploreFolders (fuel : nat) (d : Discovery) :
  (length (foldersToExplore d) ≤ fuel)%nat → settles (exploreFolders fuel d).
Proof.
  revert d. induction fuel as [|fuel IH]; intros d Hfuel;
    destruct d as [this types map worklist discovered calls];
    destruct worklist as [|folderId rest]; simpl in *; try done; try lia.
  case_bool_decide.
  { apply IH. simpl. lia. }
  destruct (drive_files_list calls folderId) as [| |files].
  - apply settles_bind; [auto with settles|intros owner _].
    apply IH. simpl. lia.
  - apply IH. simpl. lia.
  - apply settles_bind.
    + apply settles_for_of. intros. apply settles_exploreFile.
    + intros d' Hd'. apply exploreFiles_locals in Hd'; [|done].
      apply IH. destruct Hd' as (-> & _). simpl. lia.
Qed.

Lemma settles_claimFolder folderId index d : settles (claimFolder folderId index d).
Proof.
  unfold claimFolder.
  apply settles_bind; [apply settles_performEventTypeTieBreaker|intros w _].
  case_bool_decide; [|done]. apply settles_bind; auto with settles.
Qed.

Lemma settles_initializeEventTypes index types d :
  settles (initializeEventTypes index types d).
Proof.
  revert index d. induction types as [|eventType types IH]; intros index d;
    simpl; [done|].
  apply settles_bind; [|auto].
  apply settles_for_of. intros. apply settles_claimFolder.
Qed.

Lemma settles_discoverEvents db this : settles (discoverEvents db this).
Proof.
  unfold discoverEvents, runDiscovery.
  apply settles_bind; [|done].
  apply settles_bind; [apply settles_initializeEventTypes|intros d _].
  by apply settles_exploreFolders.
Qed.

Lemma settles_missesRequiredProperty properties required :
  settles (missesRequiredProperty properties required).
Proof.
  induction required as [|prop required IH]; simpl; [done|].
  apply settles_bind; [auto with settles|intros p _]. by destruct (negb _).
Qed.

Lemma settles_markAllForDeletion required attendees :
  settles (markAllForDeletion required attendees).
Proof.
  induction attendees as [|[memberId m] attendees IH]; simpl; [done|].
  apply settles_bind.
  { unfold markForDeletion.
    apply settles_bind; [apply settles_missesRequiredProperty|done]. }
  intros m' _. apply settles_bind; [done|done].
Qed.

Lemma settles_discoverAndRefreshAudience db this :
  settles (discoverAndRefreshAudience db this).
Proof.
  unfold discoverAndRefreshAudience.
  apply settles_bind.
  { apply settles_for_of. intros member s. unfold initializeMember.
    apply settles_bind; auto with settles. }
  intros this1 _. apply settles_bind.
  { apply settles_for_of. intros eventData s. unfold discoverAudience.
    repeat case_bool_decide; auto with settles. }
  intros this2 _.
  apply settles_bind; [apply settles_markAllForDeletion|done].
Qed.

Lemma settles_increment_value eventTypeId stats :
  settles (increment_value eventTypeId stats).
Proof. unfold increment_value. apply settles_bind; auto with settles. Qed.

Lemma settles_increment_pvalue eventTypeId stats :
  settles (increment_pvalue eventTypeId stats).
Proof. unfold increment_pvalue. apply settles_bind; auto with settles. Qed.

#[local] Hint Resolve settles_increment_value settles_increment_pvalue : settles.

Lemma settles_countAttendance eventTypeId u :
  settles (countAttendance eventTypeId u).
Proof.
  unfold countAttendance. apply settles_bind; [|by intros [[??]?]].
  destruct eventTypeId; [|done].
  repeat (apply settles_bind; [auto with settles|intros ? _]). done.
Qed.

Lemma settles_countEvent eventData u : settles (countEvent eventData u).
Proof.
  unfold countEvent. apply settles_bind; [|by intros [??]].
  destruct (eventTypeId _); [|done].
  repeat (apply settles_bind; [auto with settles|intros ? _]). done.
Qed.

Lemma settles_recordAttendance memberData i s :
  settles (recordAttendance memberData i s).
Proof.
  unfold recordAttendance.
  apply settles_bind; [auto with settles|intros a _].
  apply settles_bind; [apply settles_countAttendance|done].
Qed.

(** The pages loop ends: [docsProcessed] is [page * MAX_PAGE_SIZE] capped
    by the number of records, and every round adds at least one to it. *)
Lemma settles_bucketPages (fuel : nat) (troupeId memberId : oid)
    (memberData : MemberData) (page docsProcessed : nat) (acc : Persist) :
  docsProcessed
  = Nat.min (page * MAX_PAGE_SIZE) (length (eventsAttended memberData)) →
  (length (eventsAttended memberData) - docsProcessed ≤ fuel)%nat →
  settles (bucketPages fuel troupeId memberId memberData page docsProcessed acc).
Proof.
  unfold MAX_PAGE_SIZE.
  revert page docsProcessed acc.
  induction fuel as [|fuel IH]; intros page docsProcessed acc Hinv Hfuel; simpl;
    case_bool_decide; try done; try lia.
  destruct (eventsAttendedDocs memberData !! page); simpl.
  all: apply settles_bind;
    [apply settles_for_of; intros; apply settles_recordAttendance|].
  all: intros [events u] _; apply IH; unfold MAX_PAGE_SIZE; lia.
Qed.

Lemma settles_countMember cutoff member u :
  settles (countMember Number_of_string cutoff member u).
Proof.
  unfold countMember.
  apply settles_bind; [auto with settles|intros b _].
  apply settles_bind; [|done].
  destruct (_ && _); [|done].
  repeat (apply settles_bind; [auto with settles|intros ? _]). done.
Qed.

Lemma settles_persistMember troupeId cutoff memberData acc :
  settles (persistMember troupeId cutoff memberData acc).
Proof.
  unfold persistMember. destruct (_ && _); [done|].
  apply settles_bind; [apply settles_countMember|intros u _].
  apply settles_bind; [|by intros [??]].
  apply settles_bucketPages; simpl; lia.
Qed.

Lemma settles_completeStatistics totalAttendees_ totalEvents_ eventType u :
  settles (completeStatistics totalAttendees_ totalEvents_ eventType u).
Proof.
  unfold completeStatistics.
  repeat (apply settles_bind; [auto with settles|intros ? _]). done.
Qed.

Lemma settles_prepareSync this : settles (prepareSync this).
Proof.
  unfold prepareSync.
  apply settles_bind.
  { apply settles_for_of. intros. apply settles_countEvent. }
  intros u _. apply settles_bind.
  { apply settles_for_of. intros. apply settles_persistMember. }
  intros acc _. apply settles_bind; [|done].
  apply settles_for_of. intros. apply settles_completeStatistics.
Qed.

(** ** What a run leaves of the collections *)

Lemma incrementTroupeLimits_frame db troupeId delta db' :
  incrementTroupeLimits db troupeId delta = Some db' →
  troupeColl db' = troupeColl db ∧ eventColl db' = eventColl db
  ∧ audienceColl db' = audienceColl db
  ∧ eventsAttendedColl db' = eventsAttendedColl db
  ∧ dashboardColl db' = dashboardColl db.
Proof.
  unfold incrementTroupeLimits.
  destruct (limitColl db !! troupeId); simpl; [|done].
  case_bool_decide; [|done]. by intros [= <-].
Qed.

(** [persistSync] ends, and whatever it does it leaves the tenants alone. *)
Lemma persistSync_troupeColl db this :
  settles (persistSync db this).1
  ∧ troupeColl (persistSync db this).2 = troupeColl db.
Proof.
  unfold persistSync.
  pose proof (settles_prepareSync this) as Hsettles.
  destruct (prepareSync this) as [[acc updateEvents]| |]; [|done..].
  destruct (incrementTroupeLimits _ _ _) as [db2|] eqn:Hlimits.
  - apply incrementTroupeLimits_frame in Hlimits as (Ht & _).
    destruct (commitTransaction db2); simpl; [by rewrite Ht|].
    split; [done|]. destruct sessionCoversWrites; [done|by rewrite Ht].
  - simpl. split; [done|]. by destruct sessionCoversWrites.
Qed.

Lemma performSync_troupeColl db troupe troupeId skipLogPublish :
  settles (performSync db troupe troupeId skipLogPublish).1
  ∧ troupeColl (performSync db troupe troupeId skipLogPublish).2 = troupeColl db.
Proof.
  unfold performSync.
  match goal with |- context [match ?loaded with _ => _ end] =>
    assert (settles loaded) as Hloaded; [|destruct loaded as [this| |]]
  end.
  - apply settles_bind; [auto with settles|intros dashboard _].
    apply settles_bind; [auto with settles|intros limits _].
    apply settles_bind; [apply settles_discoverEvents|intros ? _].
    apply settles_discoverAndRefreshAudience.
  - destruct (persistSync_troupeColl db this) as [Hs Ht].
    destruct (persistSync db this) as [[this'| |] db']; simpl in *; try done.
    split; [|done]. destruct skipLogPublish; auto with settles.
  - done.
  - done.
Qed.

(** ** The lock *)

(** C1.  A tenant whose lock is free: [sync] returns to its caller
    whatever the discovery of events, the discovery of the audience, the
    persistence and the publication of the log do, and the lock is free
    again afterwards. *)
Theorem sync_returns_and_unlocks (db : Db) (troupeId : oid)
    (skipLogPublish : bool) (schema : TroupeSchema) :
  troupeColl db !! troupeId = Some schema →
  syncLock schema = false →
  ∃ db', sync db troupeId skipLogPublish = (Ok tt, db')
         ∧ syncLock <$> troupeColl db' !! troupeId = Some false.
Proof.
  intros Hschema Hlock. unfold sync. rewrite Hschema, Hlock.
  match goal with |- context [performSync ?db1 ?t ?i ?s] =>
    destruct (performSync_troupeColl db1 t i s) as [Hsettles Htroupes];
    destruct (performSync db1 t i s) as [[[]| |] db2] eqn:Hrun
  end; simpl in *; [| |done].
  all: rewrite Htroupes, lookup_insert_eq; simpl.
  all: eexists; split; [done|]; simpl.
  all: by rewrite lookup_alter_eq, Htroupes, lookup_insert_eq.
Qed.

(** ** The events collection only grows *)

Lemma bulkUpsert_is_Some {A} (_id : A → oid) (docs : list A) (coll : gmap oid A)
    (i : oid) :
  is_Some (bulkUpsert _id docs coll !! i)
  ↔ is_Some (coll !! i) ∨ ∃ doc, doc ∈ docs ∧ _id doc = i.
Proof.
  unfold bulkUpsert. revert coll.
  induction docs as [|doc docs IH]; intros coll; simpl.
  - split; [auto|]. intros [H|(doc & Hin & _)]; [done|]. by apply elem_of_nil in Hin.
  - rewrite IH, lookup_insert_is_Some'. split.
    + intros [[<-|H]|(doc' & Hin & Heq)]; [right|by left|right].
      * exists doc. split; [left|done].
      * exists doc'. split; [by right|done].
    + intros [H|(doc' & Hin & Heq)]; [by left; right|].
      apply elem_of_cons in Hin as [->|Hin]; [by left; left|].
      right. by exists doc'.
Qed.

Lemma transactionWrites_eventColl troupeId acc updateEvents db :
  eventColl (transactionWrites troupeId acc updateEvents db)
  = bulkUpsert ev_id updateEvents (eventColl db).
Proof. done. Qed.

Lemma persistSync_keeps_events db this (_id : oid) :
  is_Some (eventColl db !! _id) →
  is_Some (eventColl (persistSync db this).2 !! _id).
Proof.
  intros Hid. unfold persistSync.
  destruct (prepareSync this) as [[acc updateEvents]| |]; [|done..].
  assert (is_Some (eventColl (transactionWrites (t_id (troupe this)) acc
                                updateEvents db) !! _id)) as Hwritten.
  { rewrite transactionWrites_eventColl, bulkUpsert_is_Some. by left. }
  destruct (incrementTroupeLimits _ _ _) as [db2|] eqn:Hlimits.
  - apply incrementTroupeLimits_frame in Hlimits as (_ & He & _).
    destruct (commitTransaction db2); simpl; [by rewrite He|].
    destruct sessionCoversWrites; [done|by rewrite He].
  - simpl. by destruct sessionCoversWrites.
Qed.

Lemma performSync_keeps_events db troupe troupeId skipLogPublish (_id : oid) :
  is_Some (eventColl db !! _id) →
  is_Some (eventColl (performSync db troupe troupeId skipLogPublish).2 !! _id).
Proof.
  intros Hid. unfold performSync.
  match goal with |- context [match ?loaded with _ => _ end] =>
    destruct loaded as [this| |]
  end; [|done..].
  pose proof (persistSync_keeps_events db this _id Hid) as Hkept.
  by destruct (persistSync db this) as [[this'| |] db'].
Qed.

Lemma sync_keeps_events db troupeId skipLogPublish (_id : oid) :
  is_Some (eventColl db !! _id) →
  is_Some (eventColl (sync db troupeId skipLogPublish).2 !! _id).
Proof.
  intros Hid. unfold sync.
  destruct (troupeColl db !! troupeId) as [schema|]; [|done].
  destruct (syncLock schema); [done|].
  match goal with |- context [performSync ?db1 ?t ?i ?s] =>
    pose proof (performSync_keeps_events db1 t i s _id Hid) as Hkept;
    destruct (performSync db1 t i s) as [[[]| |] db2]
  end; done.
Qed.

(** C10.  No event document is deleted: an event of the collection is
    still there after [sync], whatever its outcome, and after [persistSync];
    and when [persistSync] returns, every event of [this.eventMap], stored
    before or discovered in this run, is in the collection. *)
Theorem sync_never_deletes_events (db : Db) (this : SyncTroupe) :
  (∀ troupeId skipLogPublish _id,
     is_Some (eventColl db !! _id) →
     is_Some (eventColl (sync db troupeId skipLogPublish).2 !! _id))
  ∧ (∀ _id,
       is_Some (eventColl db !! _id) →
       is_Some (eventColl (persistSync db this).2 !! _id))
  ∧ (∀ this' eventData,
       (persistSync db this).1 = Ok this' →
       eventData ∈ jsobj_values (eventMap this) →
       is_Some (eventColl (persistSync db this).2 !! ev_id (event eventData))).
Proof.
  split; [intros; by apply sync_keeps_events|].
  split; [intros; by apply persistSync_keeps_events|].
  intros this' eventData. unfold persistSync, prepareSync.
  destruct (for_of countEvent _ _) as [u| |]; simpl; [|done..].
  destruct (for_of (persistMember _ _) _ _) as [acc| |]; simpl; [|done..].
  destruct (for_of (completeStatistics _ _) _ _) as [u'| |]; simpl; [|done..].
  destruct (incrementTroupeLimits _ _ _) as [db2|] eqn:Hlimits; [|done].
  apply incrementTroupeLimits_frame in Hlimits as (_ & He & _).
  destruct (commitTransaction db2); simpl; [|done].
  intros _ Hin. rewrite He, transactionWrites_eventColl, bulkUpsert_is_Some.
  right. exists (event eventData). split; [|done].
  by apply list_elem_of_fmap_2.
Qed.

(** ** Dashboard statistics *)

#[local] Arguments js_div : simpl never.
#[local] Arguments js_add : simpl never.
#[local] Arguments js_gt0 : simpl never.
#[local] Arguments Math_round : simpl never.
#[local] Arguments JZ : simpl never.
#[local] Arguments statistics : simpl never.
#[local] Arguments counting : simpl never.
#[local] Arguments completed : simpl never.

Lemma js_add_JZ (a b : Z) : js_add (JZ a) (JZ b) = JZ (a + b).
Proof.
  unfold JZ, js_add. f_equal. apply Qc_is_canon. simpl.
  rewrite !Qred_correct. rewrite inject_Z_plus. reflexivity.
Qed.

Lemma Q2Qc_inject_Z_lt (a b : Z) :
  (Q2Qc (inject_Z a) < Q2Qc (inject_Z b))%Qc ↔ a < b.
Proof.
  unfold Qclt. simpl. rewrite !Qred_correct. unfold Qlt. simpl. lia.
Qed.

Lemma js_gt0_JZ (e : Z) : js_gt0 (JZ e) = bool_decide (0 < e).
Proof.
  unfold js_gt0, JZ. apply bool_decide_ext. apply (Q2Qc_inject_Z_lt 0 e).
Qed.

Lemma Q2Qc_inject_Z_eq (a b : Z) :
  Q2Qc (inject_Z a) = Q2Qc (inject_Z b) ↔ a = b.
Proof.
  split; [|by intros ->]. intros H.
  assert (Q2Qc (inject_Z a) == Q2Qc (inject_Z b))%Q as Heq by (by rewrite H).
  simpl in Heq. rewrite !Qred_correct in Heq.
  unfold Qeq in Heq. simpl in Heq. lia.
Qed.

Lemma JZ_inj (a b : Z) : JZ a = JZ b → a = b.
Proof. unfold JZ. intros H. apply Q2Qc_inject_Z_eq. congruence. Qed.

Lemma js_gt0_not_a_count (x : jsnum) : not_a_count x → js_gt0 x = false.
Proof. by intros [-> | ->]. Qed.

Lemma not_a_count_add (x y : jsnum) : not_a_count x → not_a_count (js_add x y).
Proof. intros [-> | ->]; right; by destruct y. Qed.

(** A quotient of counters by a counter that is not zero is a number. *)
Lemma js_div_JZ (a e : Z) : e ≠ 0 → ∃ q, js_div (JZ a) (JZ e) = JNum q.
Proof.
  intros He. unfold js_div, JZ.
  rewrite bool_decide_eq_false_2; [eauto|].
  change 0%Qc with (Q2Qc (inject_Z 0)). by rewrite Q2Qc_inject_Z_eq.
Qed.

Lemma js_div_zero (e : Z) : e ≠ 0 → js_div (JZ 0) (JZ e) = JZ 0.
Proof.
  intros He. unfold js_div, JZ.
  rewrite bool_decide_eq_false_2.
  2:{ change 0%Qc with (Q2Qc (inject_Z 0)). by rewrite Q2Qc_inject_Z_eq. }
  f_equal. apply Qc_is_canon. simpl. rewrite !Qred_correct.
  unfold Qeq. simpl. lia.
Qed.

(** [Math.round] of a quotient of counters, in integer arithmetic. *)
Lemma Math_round_div (a e : Z) :
  0 < e → Math_round (js_div (JZ a) (JZ e)) = JZ ((2 * a + e) / (2 * e)).
Proof.
  intros He. unfold js_div, JZ.
  rewrite bool_decide_eq_false_2.
  2:{ change 0%Qc with (Q2Qc (inject_Z 0)). rewrite Q2Qc_inject_Z_eq. lia. }
  unfold Math_round, JZ. do 3 f_equal.
  transitivity (Qfloor (inject_Z (2 * a + e) / inject_Z (2 * e))%Q).
  - apply Qfloor_comp. simpl. rewrite !Qred_correct.
    unfold Qeq, Qdiv, Qinv, Qmult, Qplus, inject_Z. simpl.
    destruct e as [|e|e]; try lia. simpl. lia.
  - by rewrite <- Zdiv_Qdiv.
Qed.

Lemma increment_value_Ok eventTypeId stats stats' :
  increment_value eventTypeId stats = Ok stats' →
  ∃ stat, stats !! eventTypeId = Some stat
    ∧ stats' = <[eventTypeId :=
                   {| s_title := s_title stat;
                      s_value := js_add (s_value stat) (JZ 1) |}]> stats.
Proof.
  unfold increment_value. destruct (stats !! eventTypeId) as [stat|]; [|done].
  simpl. intros [= <-]. eauto.
Qed.

Lemma increment_pvalue_Ok eventTypeId stats stats' :
  increment_pvalue eventTypeId stats = Ok stats' →
  ∃ stat, stats !! eventTypeId = Some stat
    ∧ stats' = <[eventTypeId :=
                   {| p_title := p_title stat;
                      p_value := js_add (p_value stat) (JZ 1);
                      percent := percent stat |}]> stats.
Proof.
  unfold increment_pvalue. destruct (stats !! eventTypeId) as [stat|]; [|done].
  simpl. intros [= <-]. eauto.
Qed.

Lemma statistics_initialize_eq eventType u :
  counting (statistics (initializeStatistics eventType u) (et_id eventType)) 0 0.
Proof.
  unfold statistics, initializeStatistics, counting; simpl.
  rewrite !lookup_insert_eq. simpl. repeat split; done.
Qed.

Lemma statistics_initialize_ne eventType u (eventTypeId : oid) :
  eventTypeId ≠ et_id eventType →
  statistics (initializeStatistics eventType u) eventTypeId
  = statistics u eventTypeId.
Proof.
  intros Hne. unfold statistics, initializeStatistics; simpl.
  by rewrite !lookup_insert_ne.
Qed.

Lemma initializeStatistics_counting (types : list EventTypeSchema) u0 eventType :
  eventType ∈ types →
  counting
    (statistics (foldl (λ u eventType, initializeStatistics eventType u) u0 types)
       (et_id eventType)) 0 0.
Proof.
  induction types as [|last types IH] using rev_ind; [by intros ?%elem_of_nil|].
  rewrite foldl_app. cbn [foldl]. intros Hin.
  destruct (decide (et_id eventType = et_id last)) as [->|Hne].
  - apply statistics_initialize_eq.
  - rewrite statistics_initialize_ne by done.
    apply IH. apply elem_of_app in Hin as [Hin|Hin]; [done|].
    apply list_elem_of_singleton in Hin. by subst.
Qed.

Lemma initializeStatistics_totalAttendees (types : list EventTypeSchema) u0 :
  totalAttendees (foldl (λ u eventType, initializeStatistics eventType u) u0 types)
  = totalAttendees u0.
Proof.
  induction types as [|last types IH] using rev_ind; [done|].
  by rewrite foldl_app.
Qed.

Lemma countEvent_well_counted ids eventData u u' :
  well_counted ids u → countEvent eventData u = Ok u' → well_counted ids u'.
Proof.
  intros [Hnan Hcounts]. unfold countEvent.
  destruct (eventTypeId (event eventData)) as [tid|]; simpl.
  - destruct (increment_value tid _) as [byType| |] eqn:Hv; simpl; [|done..].
    destruct (increment_pvalue tid _) as [percentage| |] eqn:Hp; simpl; [|done..].
    apply increment_value_Ok in Hv as (stat & Hstat & ->).
    apply increment_pvalue_Ok in Hp as (pstat & Hpstat & ->).
    intros [= <-]. split; [done|]. intros id Hid.
    destruct (Hcounts id Hid) as (e & a & Hc).
    unfold statistics, counting in *; simpl in *.
    destruct (decide (id = tid)) as [->|Hne].
    + exists (e + 1), a. rewrite !lookup_insert_eq. simpl.
      rewrite Hstat, Hpstat in Hc. simpl in Hc.
      destruct Hc as (? & ? & [= ->] & ? & ? & ? & ? & [= ->]).
      rewrite js_add_JZ. repeat split; (done || lia).
    + exists e, a. by rewrite !lookup_insert_ne.
  - by intros [= <-].
Qed.

Lemma countAttendance_well_counted ids eventTypeId u u' :
  well_counted ids u → countAttendance eventTypeId u = Ok u' → well_counted ids u'.
Proof.
  intros [Hnan Hcounts]. unfold countAttendance.
  destruct eventTypeId as [tid|]; simpl.
  - destruct (increment_value tid (totalAttendeesByEventType u))
      as [total| |] eqn:Ht; simpl; [|done..].
    destruct (increment_value tid (avgAttendeesByEventType u))
      as [avg| |] eqn:Ha; simpl; [|done..].
    destruct (increment_pvalue tid _) as [percentage| |] eqn:Hp; simpl; [|done..].
    apply increment_value_Ok in Ht as (tstat & Htstat & ->).
    apply increment_value_Ok in Ha as (astat & Hastat & ->).
    apply increment_pvalue_Ok in Hp as (pstat & Hpstat & ->).
    intros [= <-]. split; [by apply not_a_count_add|]. intros id Hid.
    destruct (Hcounts id Hid) as (e & a & Hc).
    unfold statistics, counting in *; simpl in *.
    destruct (decide (id = tid)) as [->|Hne].
    + exists e, (a + 1). rewrite !lookup_insert_eq. simpl.
      rewrite Htstat, Hastat, Hpstat in Hc. simpl in Hc.
      destruct Hc as (? & ? & ? & [= ->] & [= ->] & [= ->] & ? & ?).
      rewrite js_add_JZ. repeat split; (done || lia).
    + exists e, a. by rewrite !lookup_insert_ne.
  - intros [= <-]. split; [by apply not_a_count_add|done].
Qed.

Lemma countMember_well_counted ids cutoff member u u' :
  well_counted ids u →
  countMember Number_of_string cutoff member u = Ok u' →
  well_counted ids u'.
Proof.
  intros Hu. unfold countMember.
  destruct (properties member !! "Birthday"%string) as [b|]; simpl; [|done].
  destruct (_ && _); simpl; [|by intros [= <-]].
  destruct (properties member !! "First Name"%string); simpl; [|done].
  destruct (properties member !! "Last Name"%string); simpl; [|done].
  by intros [= <-].
Qed.

Lemma recordAttendance_well_counted ids memberData i s s' :
  well_counted ids s.2 → recordAttendance memberData i s = Ok s' →
  well_counted ids s'.2.
Proof.
  intros Hs. unfold recordAttendance.
  destruct (eventsAttended memberData !! i) as [attended|]; simpl; [|done].
  destruct (countAttendance _ _) as [u| |] eqn:Hu; simpl; [|done..].
  intros [= <-]. simpl. by eapply countAttendance_well_counted.
Qed.

Lemma bucketPages_well_counted ids fuel troupeId memberId memberData page
    docsProcessed acc page' acc' :
  well_counted ids (dashboardUpdate acc) →
  bucketPages fuel troupeId memberId memberData page docsProcessed acc
  = Ok (page', acc') →
  well_counted ids (dashboardUpdate acc').
Proof.
  revert page docsProcessed acc.
  induction fuel as [|fuel IH]; intros page docsProcessed acc Hacc; simpl;
    case_bool_decide; try done; try (by intros [= <- <-]).
  destruct (eventsAttendedDocs memberData !! page); simpl.
  all: destruct (for_of _ _ _) as [[events u]| |] eqn:Hloop; simpl; [|done..].
  all: apply IH; simpl.
  all: eapply (for_of_invariant (λ s, well_counted ids s.2)) in Hloop;
    [done| |done].
  all: intros; by eapply recordAttendance_well_counted.
Qed.

Lemma persistMember_well_counted ids troupeId cutoff memberData acc acc' :
  well_counted ids (dashboardUpdate acc) →
  persistMember troupeId cutoff memberData acc = Ok acc' →
  well_counted ids (dashboardUpdate acc').
Proof.
  intros Hacc. unfold persistMember.
  destruct (_ && _); [by intros [= <-]|].
  destruct (countMember _ _ _ _) as [u| |] eqn:Hu; simpl; [|done..].
  destruct (bucketPages _ _ _ _ _ _ _) as [[page acc1]| |] eqn:Hpages;
    simpl; [|done..].
  intros [= <-]. simpl.
  eapply bucketPages_well_counted in Hpages; [done|]. simpl.
  by eapply countMember_well_counted.
Qed.

(** The statistics of the other event types are none of the business of
    [completeStatistics]. *)
Lemma completeStatistics_other totalAttendees_ totalEvents_ eventType u u'
    (eventTypeId : oid) :
  completeStatistics totalAttendees_ totalEvents_ eventType u = Ok u' →
  eventTypeId ≠ et_id eventType →
  statistics u' eventTypeId = statistics u eventTypeId.
Proof.
  unfold completeStatistics. intros Hu' Hne.
  repeat match type of Hu' with
  | context [deref ?o] => destruct o; simpl in Hu'; [|done]
  end.
  injection Hu' as <-. unfold statistics; simpl.
  by rewrite !lookup_insert_ne.
Qed.

Lemma completeStatistics_self totalAttendees_ totalEvents_ eventType u u' e a :
  completeStatistics totalAttendees_ totalEvents_ eventType u = Ok u' →
  not_a_count totalAttendees_ →
  counting (statistics u (et_id eventType)) e a →
  completed totalEvents_ (statistics u' (et_id eventType)) e a.
Proof.
  unfold completeStatistics. intros Hu' Hnan Hc.
  repeat match type of Hu' with
  | context [deref ?o] => destruct o eqn:?; simpl in Hu'; [|done]
  end.
  injection Hu' as <-.
  unfold statistics, counting, completed in *. simpl.
  rewrite !lookup_insert_eq.
  repeat match goal with
  | H : _ !! _ = Some _ |- _ => try rewrite H in Hc; try rewrite H; revert H
  end.
  intros _ _ _ _ _. simpl in *.
  destruct Hc as (He & Ha & [= Hev] & [= Hat] & [= Havg] & [= Hap] & _ & [= Hep]).
  rewrite Hev, Hat, Havg, Hap, Hep, js_gt0_JZ, (js_gt0_not_a_count _ Hnan).
  repeat split; done.
Qed.

Lemma completeAll_other totalAttendees_ totalEvents_ types u u' (eventTypeId : oid) :
  for_of (completeStatistics totalAttendees_ totalEvents_) types u = Ok u' →
  eventTypeId ∉ et_id <$> types →
  statistics u' eventTypeId = statistics u eventTypeId.
Proof.
  revert u. induction types as [|eventType types IH]; intros u; simpl.
  - by intros [= <-].
  - destruct (completeStatistics _ _ _ _) as [u1| |] eqn:Hu1; simpl; [|done..].
    intros Hu' Hnotin. apply not_elem_of_cons in Hnotin as [Hne Hnotin].
    rewrite (IH _ Hu' Hnotin). by eapply completeStatistics_other.
Qed.

Lemma completeAll_completed totalAttendees_ totalEvents_ types u u' eventType e a :
  for_of (completeStatistics totalAttendees_ totalEvents_) types u = Ok u' →
  NoDup (et_id <$> types) →
  not_a_count totalAttendees_ →
  eventType ∈ types →
  counting (statistics u (et_id eventType)) e a →
  completed totalEvents_ (statistics u' (et_id eventType)) e a.
Proof.
  revert u. induction types as [|first types IH]; intros u; simpl.
  - by intros _ _ _ ?%elem_of_nil.
  - destruct (completeStatistics _ _ _ _) as [u1| |] eqn:Hu1; simpl; [|done..].
    intros Hu' [Hfirst Hnodup]%NoDup_cons Hnan Hin Hcounting.
    destruct (decide (et_id eventType = et_id first)) as [Heq|Hne].
    + rewrite Heq in *.
      rewrite (completeAll_other _ _ _ _ _ _ Hu' Hfirst).
      by eapply completeStatistics_self.
    + apply elem_of_cons in Hin as [->|Hin]; [done|].
      apply (IH u1); try done.
      by rewrite (completeStatistics_other _ _ _ _ _ _ Hu1 Hne).
Qed.

Lemma completed_totals (totalAttendees_ : jsnum) totalEvents_ types u u' :
  for_of (completeStatistics totalAttendees_ totalEvents_) types u = Ok u' →
  totalEvents u' = totalEvents u.
Proof.
  apply (for_of_invariant (λ x, totalEvents x = totalEvents u)); [|done].
  intros eventType s s' Hs. unfold completeStatistics.
  intros Hs'.
  repeat match type of Hs' with
  | context [deref ?o] => destruct o; simpl in Hs'; [|done]
  end.
  by injection Hs' as <-.
Qed.

(** The dashboard that [prepareSync] computes, before its last loop. *)
Lemma prepareSync_completed this acc updateEvents eventType :
  prepareSync this = Ok (acc, updateEvents) →
  NoDup (et_id <$> eventTypes (troupe this)) →
  eventType ∈ eventTypes (troupe this) →
  ∃ e a,
    completed (totalEvents (dashboardUpdate acc))
      (statistics (dashboardUpdate acc) (et_id eventType)) e a.
Proof.
  unfold prepareSync. intros Hrun Hnodup Hin.
  destruct (for_of countEvent _ _) as [u1| |] eqn:Hevents;
    simpl in Hrun; [|done..].
  destruct (for_of (persistMember _ _) _ _) as [acc1| |] eqn:Hmembers;
    simpl in Hrun; [|done..].
  destruct (for_of (completeStatistics _ _) _ _) as [u2| |] eqn:Hcomplete;
    simpl in Hrun; [|done..].
  injection Hrun as <- <-. simpl.
  set (ids := et_id <$> eventTypes (troupe this)).
  assert (well_counted ids u1) as Hu1.
  { eapply (for_of_invariant (well_counted ids)); [| |exact Hevents].
    - intros; by eapply countEvent_well_counted.
    - split.
      + rewrite initializeStatistics_totalAttendees. by left.
      + intros id (eventType' & -> & Hin')%list_elem_of_fmap.
        exists 0, 0. by apply initializeStatistics_counting. }
  assert (well_counted ids (dashboardUpdate acc1)) as [Hnan Hcounts].
  { eapply (for_of_invariant (λ acc, well_counted ids (dashboardUpdate acc)));
      [| |exact Hmembers]; [|done].
    intros; by eapply persistMember_well_counted. }
  destruct (Hcounts (et_id eventType)) as (e & a & Hc).
  { by apply list_elem_of_fmap_2. }
  exists e, a. rewrite (completed_totals _ _ _ _ _ Hcomplete).
  by eapply completeAll_completed.
Qed.

(** C9.  The statistics of an event type in the dashboard that
    [persistSync] computes, the ids of the event types being distinct: with
    [e] events and [a] attendance records, the average and the two shares
    are numbers (no quotient had a zero divisor); with no events all three
    are zero; with events the average is [Math.round(a / e)]. *)
Theorem dashboard_statistics (this : SyncTroupe) (acc : Persist)
    (updateEvents : list EventSchema) (eventType : EventTypeSchema) :
  prepareSync this = Ok (acc, updateEvents) →
  NoDup (et_id <$> eventTypes (troupe this)) →
  eventType ∈ eventTypes (troupe this) →
  ∃ (e a : Z) (avg attendeeShare eventShare : Qc),
    let u := dashboardUpdate acc in
    let eventTypeId := et_id eventType in
    0 ≤ e ∧ 0 ≤ a
    ∧ s_value <$> totalEventsByEventType u !! eventTypeId = Some (JZ e)
    ∧ s_value <$> totalAttendeesByEventType u !! eventTypeId = Some (JZ a)
    ∧ s_value <$> avgAttendeesByEventType u !! eventTypeId = Some (JNum avg)
    ∧ p_value <$> attendeePercentageByEventType u !! eventTypeId
      = Some (JNum attendeeShare)
    ∧ p_value <$> eventPercentageByEventType u !! eventTypeId
      = Some (JNum eventShare)
    ∧ percent <$> attendeePercentageByEventType u !! eventTypeId
      = Some (JNum 0%Qc)
    ∧ percent <$> eventPercentageByEventType u !! eventTypeId
      = Some (JNum 0%Qc)
    ∧ (e = 0 → avg = 0%Qc ∧ attendeeShare = 0%Qc ∧ eventShare = 0%Qc)
    ∧ (0 < e →
       JNum avg = Math_round (js_div (JZ a) (JZ e))
       ∧ JNum avg = JZ ((2 * a + e) / (2 * e))).
Proof.
  intros Hrun Hnodup Hin.
  destruct (prepareSync_completed _ _ _ _ Hrun Hnodup Hin) as (e & a & Hc).
  unfold completed, statistics in Hc.
  destruct Hc as (He & Ha & Hev & Hat & Havg & Hap & Happ & Hep & Hepp).
  assert (∃ q, (if bool_decide (0 < e) then Math_round (js_div (JZ a) (JZ e))
                else JZ 0) = JNum q
               ∧ (e = 0 → q = 0%Qc)
               ∧ (0 < e → JNum q = Math_round (js_div (JZ a) (JZ e))
                          ∧ JNum q = JZ ((2 * a + e) / (2 * e))))
    as (avg & Eavg & Havg0 & Havg1).
  { destruct (decide (0 < e)) as [Hpos|Hpos].
    - rewrite (bool_decide_eq_true_2 _ Hpos), (Math_round_div a e Hpos).
      eexists. split; [done|]. split; [lia|]. done.
    - rewrite (bool_decide_eq_false_2 _ Hpos).
      eexists. split; [done|]. split; [done|lia]. }
  assert (∃ q, (if bool_decide (0 < totalEvents (dashboardUpdate acc))
                then js_div (JZ e) (JZ (totalEvents (dashboardUpdate acc)))
                else JZ 0) = JNum q
               ∧ (e = 0 → q = 0%Qc))
    as (eventShare & Eshare & Hshare0).
  { destruct (decide (0 < totalEvents (dashboardUpdate acc))) as [Hpos|Hpos].
    - rewrite (bool_decide_eq_true_2 _ Hpos).
      destruct (js_div_JZ e (totalEvents (dashboardUpdate acc))) as [q Hq];
        [lia|].
      exists q. split; [done|]. intros ->.
      rewrite js_div_zero in Hq by lia. unfold JZ in Hq.
      injection Hq as <-. reflexivity.
    - rewrite (bool_decide_eq_false_2 _ Hpos).
      eexists. split; [done|done]. }
  exists e, a, avg, 0%Qc, eventShare. simpl.
  rewrite Hev, Hat, Havg, Hap, Happ, Hep, Hepp, Eavg, Eshare.
  repeat split; try done; try (by auto); by apply Havg1.
Qed.

(** ** Discovery under an exhausted quota of new events *)

Lemma jsobj_get_Some_keys {V} (k : string) (v v' : V) (o : jsobj string V) :
  jsobj_get k o = Some v → jsobj_keys (jsobj_set k v' o) = jsobj_keys o.
Proof.
  unfold jsobj_keys.
  induction o as [|[k0 v0] o IH]; simpl; [done|].
  destruct (decide (k = k0)) as [->|Hne]; simpl; [done|].
  intros Hget. f_equal. by apply IH.
Qed.

Lemma jsobj_get_set_eq {V} (k : string) (v : V) (o : jsobj string V) :
  jsobj_get k (jsobj_set k v o) = Some v.
Proof.
  induction o as [|[k0 v0] o IH]; simpl.
  - by rewrite decide_True.
  - destruct (decide (k = k0)) as [->|Hne]; simpl.
    + by rewrite decide_True.
    + by rewrite decide_False.
Qed.

Lemma jsobj_get_set_ne {V} (k k' : string) (v : V) (o : jsobj string V) :
  k ≠ k' → jsobj_get k' (jsobj_set k v o) = jsobj_get k' o.
Proof.
  intros Hne.
  induction o as [|[k0 v0] o IH]; simpl.
  - by rewrite decide_False.
  - destruct (decide (k = k0)) as [->|Hne0]; simpl.
    + by rewrite !decide_False.
    + destruct (decide (k' = k0)); [done|]. apply IH.
Qed.

(** While the snapshot and the projected delta of the quota of new events
    are equal, a file adds no key to [this.eventMap] and leaves them
    equal. *)
Lemma exploreFile_quota_closed folderId current file d d' :
  eventsLeft (currentLimits (this_ d)) = eventsLeft (incrementLimits (this_ d)) →
  exploreFile folderId current file d = Ok d' →
  eventsLeft (currentLimits (this_ d')) = eventsLeft (incrementLimits (this_ d'))
  ∧ eventsLeft (incrementLimits (this_ d')) = eventsLeft (incrementLimits (this_ d))
  ∧ jsobj_keys (eventMap (this_ d')) = jsobj_keys (eventMap (this_ d)).
Proof.
  intros Hclosed. unfold exploreFile.
  case_bool_decide as Hmime.
  - destruct (performEventTypeTieBreaker _ _ _ _) as [w| |]; simpl; [|done..].
    case_bool_decide; [|by intros [= <-]].
    destruct (folderToEventTypeMap d !! folderId).
    + destruct w; simpl; [|done]. by intros [= <-].
    + case_bool_decide; [by intros [= <-]|].
      destruct w; simpl; [|done]. by intros [= <-].
  - destruct (indexOf _ _); [|by intros [= <-]].
    destruct (deref _) as [c| |]; simpl; [|done..].
    destruct (jsobj_get _ _) as [eventData|] eqn:Hget.
    + intros [= <-]. simpl. split; [done|]. split; [done|].
      by eapply jsobj_get_Some_keys.
    + rewrite bool_decide_eq_true_2 by done. by intros [= <-].
Qed.

Lemma exploreFolders_quota_closed fuel d d' :
  eventsLeft (currentLimits (this_ d)) = eventsLeft (incrementLimits (this_ d)) →
  exploreFolders fuel d = Ok d' →
  eventsLeft (incrementLimits (this_ d')) = eventsLeft (incrementLimits (this_ d))
  ∧ jsobj_keys (eventMap (this_ d')) = jsobj_keys (eventMap (this_ d)).
Proof.
  revert d. induction fuel as [|fuel IH]; intros d Hclosed;
    destruct d as [this types map worklist discovered calls];
    destruct worklist as [|folderId rest]; simpl in *;
    try done; try (by intros [= <-]).
  case_bool_decide.
  { intros Hrun. by apply IH in Hrun. }
  destruct (drive_files_list calls folderId) as [| |files].
  - destruct (map !! folderId); simpl; [|done].
    intros Hrun. by apply IH in Hrun.
  - intros Hrun. by apply IH in Hrun.
  - destruct (for_of _ _ _) as [d1| |] eqn:Hfiles; simpl; [|done..].
    eapply (for_of_invariant
              (λ x, eventsLeft (currentLimits (this_ x))
                    = eventsLeft (incrementLimits (this_ x))
                    ∧ eventsLeft (incrementLimits (this_ x))
                      = eventsLeft (incrementLimits this)
                    ∧ jsobj_keys (eventMap (this_ x)) = jsobj_keys (eventMap this)))
      in Hfiles.
    + destruct Hfiles as (Hc & Hl & Hk). intros Hrun.
      apply IH in Hrun; [|done]. destruct Hrun as [-> ->]. done.
    + intros file s s' (Hc & Hl & Hk) Hstep.
      apply exploreFile_quota_closed in Hstep as (? & ? & ?); [|done].
      split; [done|]. split; congruence.
    + done.
Qed.

Lemma claimFolder_this folderId index d d' :
  claimFolder folderId index d = Ok d' → this_ d' = this_ d.
Proof.
  unfold claimFolder.
  destruct (performEventTypeTieBreaker _ _ _ _) as [w| |]; simpl; [|done..].
  case_bool_decide; [|by intros [= <-]].
  destruct w; simpl; [|done].
  destruct (folderToEventTypeMap d !! folderId); by intros [= <-].
Qed.

Lemma initializeEventTypes_this index types d d' :
  initializeEventTypes index types d = Ok d' → this_ d' = this_ d.
Proof.
  revert index d. induction types as [|eventType types IH]; intros index d;
    simpl; [by intros [= <-]|].
  destruct (claimFolders _ _ _) as [d1| |] eqn:Hclaims; simpl; [|done..].
  intros ->%IH. unfold claimFolders in Hclaims.
  eapply (for_of_invariant (λ x, this_ x = this_ d)) in Hclaims; [done| |done].
  intros folder s s' Hs ->%claimFolder_this. done.
Qed.

(** X17.  The sound half of the quota of new events: when none is left
    at the start, [discoverEvents] returns with the events it loaded from
    storage and no other, and has projected no consumption. *)
Lemma exhausted_quota_admits_no_new_event (db : Db) (this : SyncTroupe)
    (d : Discovery) :
  eventsLeft (currentLimits this) = 0 →
  eventsLeft (incrementLimits this) = 0 →
  runDiscovery db this = Ok d →
  jsobj_keys (eventMap (this_ d))
  = jsobj_keys
      (eventMap (foldl (λ this ev, initializeEvent ev this) this
                   (findEvents db (t_id (troupe this)))))
  ∧ eventsLeft (incrementLimits (this_ d)) = 0.
Proof.
  intros Hcurrent Hdelta. unfold runDiscovery.
  set (loaded := foldl _ this _).
  assert (currentLimits loaded = currentLimits this
          ∧ incrementLimits loaded = incrementLimits this) as [Hc Hi].
  { unfold loaded. generalize (findEvents db (t_id (troupe this))).
    intros l. induction l as [|ev l IH] using rev_ind; [done|].
    by rewrite foldl_app. }
  destruct (initializeEventTypes _ _ _) as [d0| |] eqn:Hinit; simpl; [|done..].
  apply initializeEventTypes_this in Hinit. simpl in Hinit.
  intros Hrun. apply exploreFolders_quota_closed in Hrun.
  - destruct Hrun as [-> ->]. rewrite Hinit. split; [done|]. congruence.
  - rewrite Hinit. congruence.
Qed.

(** A file whose source is already in [this.eventMap] without an event
    type gets the event type of the folder, whatever the quota. *)
Lemma known_event_is_backfilled folderId current file d c i eventData :
  mimeType file ≠ DRIVE_FOLDER_MIME →
  indexOf (mimeType file) EVENT_DATA_SOURCE_MIME_TYPES = Some i →
  current ≫= (discoveryEventTypes d !!.) = Some c →
  let sourceUri :=
    getDataSourceUrl (default ""%string (EVENT_DATA_SOURCES !! i)) (f_id file) in
  jsobj_get sourceUri (eventMap (this_ d)) = Some eventData →
  eventTypeId (event eventData) = None →
  ∃ d' eventData',
    exploreFile folderId current file d = Ok d'
    ∧ jsobj_get sourceUri (eventMap (this_ d')) = Some eventData'
    ∧ eventTypeId (event eventData') = Some (et_id (eventType c))
    ∧ ev_value (event eventData') = et_value (eventType c)
    ∧ ed_fromColl eventData' = ed_fromColl eventData.
Proof.
  intros Hmime Hindex Hcurrent sourceUri Hget Hnone. unfold exploreFile.
  rewrite bool_decide_eq_false_2 by done.
  rewrite Hindex, Hcurrent. simpl. fold sourceUri. rewrite Hget.
  eexists _, _. split; [done|]. simpl. rewrite jsobj_get_set_eq.
  split; [done|]. unfold backfillEventType. by rewrite Hnone.
Qed.

(** ** The folders that are explored *)

Lemma claimFolder_worklist folderId index d d' :
  claimFolder folderId index d = Ok d' →
  discoveredFolders d' = discoveredFolders d
  ∧ (foldersToExplore d' = foldersToExplore d
     ∨ foldersToExplore d' = folderId :: foldersToExplore d).
Proof.
  unfold claimFolder.
  destruct (performEventTypeTieBreaker _ _ _ _) as [w| |]; simpl; [|done..].
  case_bool_decide; [|intros [= <-]; auto].
  destruct w; simpl; [|done].
  destruct (folderToEventTypeMap d !! folderId); intros [= <-]; auto.
Qed.

Lemma exploreFolders_discovered fuel d d' (f : string) :
  exploreFolders fuel d = Ok d' →
  f ∈ discoveredFolders d' →
  f ∈ discoveredFolders d ∨ f ∈ foldersToExplore d.
Proof.
  revert d. induction fuel as [|fuel IH]; intros d;
    destruct d as [this types map worklist discovered calls];
    destruct worklist as [|folderId rest]; simpl in *;
    try done; try (intros [= <-]; by left).
  case_bool_decide.
  { intros Hrun Hf. destruct (IH _ Hrun Hf) as [?|?]; simpl in *; [by left|].
    right. by right. }
  destruct (drive_files_list calls folderId) as [| |files].
  - destruct (map !! folderId); simpl; [|done].
    intros Hrun Hf. destruct (IH _ Hrun Hf) as [?|?]; simpl in *; [by left|].
    right. by right.
  - intros Hrun Hf. destruct (IH _ Hrun Hf) as [Hd|?]; simpl in *.
    + apply elem_of_cons in Hd as [->|?]; [right; left|by left].
    + right. by right.
  - destruct (for_of _ _ _) as [d1| |] eqn:Hfiles; simpl; [|done..].
    apply exploreFiles_locals in Hfiles as (Hw & _ & _ & Hd & _); [|done].
    intros Hrun Hf. destruct (IH _ Hrun Hf) as [Hin|Hin].
    + rewrite Hd in Hin. simpl in Hin.
      apply elem_of_cons in Hin as [->|?]; [right; left|by left].
    + rewrite Hw in Hin. right. by right.
Qed.

Lemma initializeEventTypes_worklist index types d d' (f : string) :
  initializeEventTypes index types d = Ok d' →
  discoveredFolders d' = discoveredFolders d
  ∧ (f ∈ foldersToExplore d' →
     f ∈ foldersToExplore d
     ∨ ∃ eventType folder,
         eventType ∈ types ∧ folder ∈ sourceFolderUris eventType
         ∧ f = folderIdOf getDataSourceId folder).
Proof.
  revert index d. induction types as [|eventType types IH]; intros index d;
    simpl; [intros [= <-]; auto|].
  destruct (claimFolders _ _ _) as [d1| |] eqn:Hclaims; simpl; [|done..].
  intros [Hd Hw]%IH.
  assert (discoveredFolders d1 = discoveredFolders d
          ∧ (f ∈ foldersToExplore d1 →
             f ∈ foldersToExplore d
             ∨ ∃ folder, folder ∈ sourceFolderUris eventType
                         ∧ f = folderIdOf getDataSourceId folder))
    as [Hd1 Hw1].
  { unfold claimFolders in Hclaims. revert d Hclaims.
    induction (sourceFolderUris eventType) as [|folder folders IHf];
      intros d; simpl; [intros [= <-]; auto|].
    destruct (claimFolder _ _ _) as [d2| |] eqn:Hclaim; simpl; [|done..].
    intros [Hd2 Hw2]%IHf.
    apply claimFolder_worklist in Hclaim as [Hd3 Hw3].
    split; [congruence|]. intros Hf.
    destruct (Hw2 Hf) as [Hin|(folder' & ? & ?)].
    - destruct Hw3 as [Hsame|Hpush]; [left; congruence|].
      rewrite Hpush in Hin. apply elem_of_cons in Hin as [->|?]; [|by left].
      right. exists folder. split; [left|done].
    - right. exists folder'. split; [by right|done]. }
  split; [congruence|]. intros Hf.
  destruct (Hw Hf) as [Hin|(eventType' & folder & ? & ? & ?)].
  - destruct (Hw1 Hin) as [?|(folder & ? & ?)]; [by left|].
    right. exists eventType, folder. split; [left|done].
  - right. exists eventType', folder. split; [by right|done].
Qed.

(** X16.  Only the folders that the event types declare are ever listed:
    what a listing returns never reaches the worklist. *)
Lemma explored_folders_are_declared (db : Db) (this : SyncTroupe)
    (d : Discovery) (f : string) :
  runDiscovery db this = Ok d →
  f ∈ discoveredFolders d →
  ∃ eventType folder,
    eventType ∈ eventTypes (troupe this)
    ∧ folder ∈ sourceFolderUris eventType
    ∧ f = folderIdOf getDataSourceId folder.
Proof.
  unfold runDiscovery. set (loaded := foldl _ this _).
  assert (troupe loaded = troupe this) as Htroupe.
  { unfold loaded. generalize (findEvents db (t_id (troupe this))).
    intros l. induction l as [|ev l IH] using rev_ind; [done|].
    by rewrite foldl_app. }
  rewrite Htroupe.
  destruct (initializeEventTypes _ _ _) as [d0| |] eqn:Hinit; simpl; [|done..].
  apply (initializeEventTypes_worklist _ _ _ _ f) in Hinit as [Hd Hw].
  simpl in *. intros Hrun Hf.
  destruct (exploreFolders_discovered _ _ _ _ Hrun Hf) as [Hin|Hin].
  - rewrite Hd in Hin. by apply elem_of_nil in Hin.
  - destruct (Hw Hin) as [Hnil|?]; [|done]. by apply elem_of_nil in Hnil.
Qed.

(** ** Members and buckets in [persistSync] *)

(** The pages loop writes one bucket per page of [MAX_PAGE_SIZE] records,
    which is the stored bucket at the page index, as it was stored, when
    there is one; it touches no other array. *)
Lemma bucketPages_written fuel troupeId memberId memberData page docsProcessed
    acc page' acc' :
  docsProcessed
  = Nat.min (page * MAX_PAGE_SIZE) (length (eventsAttended memberData)) →
  bucketPages fuel troupeId memberId memberData page docsProcessed acc
  = Ok (page', acc') →
  page'
  = Nat.max page
      ((length (eventsAttended memberData) + (MAX_PAGE_SIZE - 1)) / MAX_PAGE_SIZE)
  ∧ updateAudience acc' = updateAudience acc
  ∧ membersToDelete acc' = membersToDelete acc
  ∧ eventsAttendedToDelete acc' = eventsAttendedToDelete acc
  ∧ ∃ written,
      updateEventsAttended acc' = updateEventsAttended acc ++ written
      ∧ length written = (page' - page)%nat
      ∧ ∀ i doc,
          eventsAttendedDocs memberData !! (page + i)%nat = Some doc →
          (i < page' - page)%nat →
          written !! i = Some doc.
Proof.
  unfold MAX_PAGE_SIZE. change (30 - 1)%nat with 29%nat.
  remember ((length (eventsAttended memberData) + 29) / 30)%nat as pages
    eqn:Hpages.
  assert (30 * pages ≤ length (eventsAttended memberData) + 29
          < 30 * pages + 30)%nat as Hbounds.
  { pose proof (Nat.div_mod_eq (length (eventsAttended memberData) + 29) 30).
    pose proof (Nat.mod_upper_bound
                  (length (eventsAttended memberData) + 29) 30).
    lia. }
  clear Hpages.
  revert page docsProcessed acc.
  induction fuel as [|fuel IH]; intros page docsProcessed acc Hinv; simpl;
    case_bool_decide as Hmore; try done.
  1,3: intros [= <- <-]; split; [lia|];
    do 3 (split; [done|]); exists []; rewrite app_nil_r;
    split; [done|]; split; [simpl; lia|]; intros; lia.
  destruct (for_of _ _ _) as [[events u]| |] eqn:Hloop.
  2,3: by destruct (eventsAttendedDocs memberData !! page).
  destruct (eventsAttendedDocs memberData !! page) as [stored|] eqn:Hstored;
    simpl.
  all: intros Hrun; apply IH in Hrun; [|unfold MAX_PAGE_SIZE; lia].
  all: destruct Hrun as (Hpage & Ha & Hm & Hd & written & Hw & Hlen & Hreuse).
  all: simpl in *.
  all: split; [lia|].
  all: do 3 (split; [done|]).
  all: eexists (_ :: written); rewrite Hw, <- app_assoc; split; [done|].
  all: assert (S page ≤ page')%nat by lia.
  all: split; [simpl; lia|].
  all: intros [|i] doc Hdoc Hi; simpl.
  all: try (rewrite Nat.add_0_r in Hdoc; congruence).
  all: apply Hreuse; [|lia].
  all: by replace (S (page + i)) with (page + S i)%nat by lia.
Qed.

(** A member that is not both flagged and from storage is written, with
    one bucket per page; the stored buckets at the page indices are written
    as they were stored, and the stored buckets past the last page are
    deleted. *)
Lemma persistMember_updates troupeId cutoff memberData acc acc' :
  delete_ memberData && fromColl memberData = false →
  persistMember troupeId cutoff memberData acc = Ok acc' →
  let pages :=
    ((length (eventsAttended memberData) + (MAX_PAGE_SIZE - 1)) / MAX_PAGE_SIZE)%nat in
  updateAudience acc' = updateAudience acc ++ [member memberData]
  ∧ membersToDelete acc' = membersToDelete acc
  ∧ eventsAttendedToDelete acc'
    = eventsAttendedToDelete acc
      ++ (b_id <$> drop pages (eventsAttendedDocs memberData))
  ∧ ∃ written,
      updateEventsAttended acc' = updateEventsAttended acc ++ written
      ∧ length written = pages
      ∧ ∀ i doc,
          eventsAttendedDocs memberData !! i = Some doc → (i < pages)%nat →
          written !! i = Some doc.
Proof.
  intros Hflag. unfold persistMember. rewrite Hflag.
  destruct (countMember _ _ _ _) as [u| |]; simpl; [|done..].
  destruct (bucketPages _ _ _ _ _ _ _) as [[page acc1]| |] eqn:Hpages;
    simpl; [|done..].
  apply bucketPages_written in Hpages; [|simpl; lia].
  destruct Hpages as (-> & Ha & Hm & Hd & written & Hw & Hlen & Hreuse).
  rewrite Nat.max_0_l, Nat.sub_0_r in *. simpl in *.
  intros [= <-]. simpl. rewrite Ha, Hm, Hd.
  do 3 (split; [done|]). by exists written.
Qed.

(** A member that is flagged and from storage is deleted with all of its
    buckets, and nothing of it is written. *)
Lemma persistMember_deletes troupeId cutoff memberData acc :
  delete_ memberData = true → fromColl memberData = true →
  persistMember troupeId cutoff memberData acc
  = Ok {| p_this := p_this acc; dashboardUpdate := dashboardUpdate acc;
          updateAudience := updateAudience acc;
          membersToDelete := membersToDelete acc ++ [m_id (member memberData)];
          updateEventsAttended := updateEventsAttended acc;
          eventsAttendedToDelete :=
            eventsAttendedToDelete acc
            ++ (b_id <$> eventsAttendedDocs memberData) |}.
Proof. intros Hdelete Hstored. unfold persistMember. by rewrite Hdelete, Hstored. Qed.

(** A member that is flagged but was found in this run is written like
    any other. *)
Lemma persistMember_writes_flagged_newcomer troupeId cutoff memberData acc acc' :
  delete_ memberData = true → fromColl memberData = false →
  persistMember troupeId cutoff memberData acc = Ok acc' →
  member memberData ∈ updateAudience acc'
  ∧ membersToDelete acc' = membersToDelete acc.
Proof.
  intros Hdelete Hnew Hrun.
  apply persistMember_updates in Hrun as (-> & -> & _); [|by rewrite Hdelete, Hnew].
  split; [|done]. apply elem_of_app. right. left.
Qed.

(** ** The initialization of a stored member *)

Lemma resetPoints_lookup (pointTypes : list string) (points : gmap string Z)
    (pointType : string) :
  resetPoints pointTypes points !! pointType
  = if bool_decide (pointType ∈ pointTypes) then Some 0 else points !! pointType.
Proof.
  unfold resetPoints.
  induction pointTypes as [|last pointTypes IH] using rev_ind; [done|].
  rewrite foldl_app. simpl.
  destruct (decide (pointType = last)) as [->|Hne].
  - rewrite lookup_insert_eq, bool_decide_eq_true_2; [done|].
    apply elem_of_app. right. left.
  - rewrite lookup_insert_ne, IH by done.
    apply (f_equal (λ b : bool, if b then Some 0 else points !! pointType)).
    apply bool_decide_ext. rewrite elem_of_app, list_elem_of_singleton.
    split; [by left|intros [?|?]; done].
Qed.

(** What the initialization leaves of a property: nothing when the tenant
    does not define it; the stored property when it is overridden; and
    otherwise the stored value, not a blank, with the flag cleared. *)
Lemma baseProps_lookup (memberPropertyTypes : jsobj string string)
    (properties : gmap string MemberProperty) (prop : string) :
  baseProps memberPropertyTypes properties !! prop
  = if bool_decide (prop ∈ jsobj_keys memberPropertyTypes) then
      Some match properties !! prop with
           | Some p =>
               if override p then p
               else {| value := value p; override := false |}
           | None => {| value := PUndefined; override := false |}
           end
    else None.
Proof.
  unfold baseProps.
  induction (jsobj_keys memberPropertyTypes) as [|last keys IH] using rev_ind;
    [done|].
  rewrite foldl_app. simpl.
  destruct (decide (prop = last)) as [->|Hne].
  - rewrite bool_decide_eq_true_2 by (apply elem_of_app; right; left).
    destruct (properties !! last) as [p|]; [destruct (override p)|];
      by rewrite lookup_insert_eq.
  - assert (∀ (m : gmap string MemberProperty) x,
              <[last := x]> m !! prop = m !! prop) as Hother
      by (intros; by apply lookup_insert_ne).
    assert (bool_decide (prop ∈ keys ++ [last]) = bool_decide (prop ∈ keys))
      as ->.
    { apply bool_decide_ext. rewrite elem_of_app, list_elem_of_singleton.
      split; [intros [?|?]; done|by left]. }
    rewrite <- IH.
    destruct (properties !! last) as [p|]; [destruct (override p)|];
      apply Hother.
Qed.

(** ** What discovery does to the events it knows and to the quota *)

Lemma jsobj_set_length_Some {V} (k : string) (v v' : V) (o : jsobj string V) :
  jsobj_get k o = Some v → length (jsobj_set k v' o) = length o.
Proof.
  induction o as [|[k0 v0] o IH]; simpl; [done|].
  destruct (decide (k = k0)) as [->|Hne]; simpl; [done|].
  intros Hget. f_equal. by apply IH.
Qed.

Lemma jsobj_set_length_None {V} (k : string) (v' : V) (o : jsobj string V) :
  jsobj_get k o = None → length (jsobj_set k v' o) = S (length o).
Proof.
  induction o as [|[k0 v0] o IH]; simpl; [done|].
  destruct (decide (k = k0)) as [->|Hne]; simpl; [done|].
  intros Hget. f_equal. by apply IH.
Qed.

Lemma discovery_step_refl this : discovery_step this this.
Proof. split_and!; try done. intros uri ed Hget. exists ed. done. Qed.

Lemma discovery_step_trans this1 this2 this3 :
  discovery_step this1 this2 → discovery_step this2 this3 →
  discovery_step this1 this3.
Proof.
  intros (Ht & Hd & Hc & Ha & Hs & Hm & Hl & Hn & Hk)
         (Ht' & Hd' & Hc' & Ha' & Hs' & Hm' & Hl' & Hn' & Hk').
  split_and!; try congruence; try lia.
  intros uri ed Hget.
  destruct (Hk uri ed Hget) as (ed2 & Hget2 & Hf & Hi & Hu & Hsame).
  destruct (Hk' uri ed2 Hget2) as (ed3 & Hget3 & Hf' & Hi' & Hu' & Hsame').
  exists ed3. split_and!; try congruence.
  intros Htype. rewrite <- (Hsame Htype). apply Hsame'.
  by rewrite (Hsame Htype).
Qed.

Lemma exploreFile_step folderId file d d' :
  exploreFile folderId (folderToEventTypeMap d !! folderId) file d = Ok d' →
  discovery_step (this_ d) (this_ d').
Proof.
  destruct (decide (mimeType file = DRIVE_FOLDER_MIME)) as [Hmime|Hmime].
  { intros ->%exploreFile_folder; [apply discovery_step_refl|done]. }
  unfold exploreFile. rewrite bool_decide_eq_false_2 by done.
  destruct (indexOf _ _); [|intros [= <-]; apply discovery_step_refl].
  destruct (deref _) as [c| |]; simpl; [|done..].
  match goal with |- context [jsobj_get ?u _] => set (uri0 := u) end.
  destruct (jsobj_get uri0 _) as [eventData|] eqn:Hget.
  - intros [= <-]. simpl.
    pose proof (jsobj_set_length_Some uri0 eventData
                  (backfillEventType (eventType c) eventData) _ Hget) as Hlen.
    unfold discovery_step, set_eventMap. cbn.
    split_and!; try done; try lia.
    intros uri ed Hed. destruct (decide (uri0 = uri)) as [<-|Hne].
    + rewrite jsobj_get_set_eq. eexists. split; [done|].
      assert (ed = eventData) as -> by congruence.
      unfold backfillEventType.
      destruct (eventTypeId (event eventData)) eqn:Htype; simpl;
        split_and!; try done; by intros [? [=]].
    + rewrite jsobj_get_set_ne by done. exists ed. done.
  - case_bool_decide; [intros [= <-]; apply discovery_step_refl|].
    intros [= <-]. simpl.
    unfold discovery_step, set_eventMap, set_incrementLimits. cbn.
    match goal with |- context [jsobj_set uri0 ?v _] =>
      pose proof (jsobj_set_length_None uri0 v _ Hget) as Hlen
    end.
    split_and!; try done; try lia.
    intros uri ed Hed. destruct (decide (uri0 = uri)) as [<-|Hne];
      [congruence|].
    rewrite jsobj_get_set_ne by done. exists ed. done.
Qed.

Lemma exploreFolders_step fuel d d' :
  exploreFolders fuel d = Ok d' → discovery_step (this_ d) (this_ d').
Proof.
  revert d. induction fuel as [|fuel IH]; intros d;
    destruct d as [this types map worklist discovered calls];
    destruct worklist as [|folderId rest]; simpl in *;
    try done; try (intros [= <-]; apply discovery_step_refl).
  case_bool_decide.
  { intros Hrun. by apply IH in Hrun. }
  destruct (drive_files_list calls folderId) as [| |files].
  - destruct (map !! folderId); simpl; [|done].
    intros Hrun. by apply IH in Hrun.
  - intros Hrun. by apply IH in Hrun.
  - destruct (for_of _ _ _) as [d1| |] eqn:Hfiles; simpl; [|done..].
    intros Hrun. apply IH in Hrun.
    eapply discovery_step_trans; [|exact Hrun].
    eapply (for_of_invariant
              (λ x, folderToEventTypeMap x = map
                    ∧ discovery_step this (this_ x))) in Hfiles.
    + by destruct Hfiles.
    + intros file s s' [Hmap Hstep] Hfile.
      rewrite <- Hmap in Hfile.
      pose proof (exploreFile_locals _ _ _ _ Hfile) as (_ & Hmap' & _).
      split; [congruence|].
      eapply discovery_step_trans; [exact Hstep|].
      by eapply exploreFile_step.
    + split; [done|apply discovery_step_refl].
Qed.

Lemma initializeEvents_limits (events : list EventSchema) (this : SyncTroupe) :
  let loaded := foldl (λ this ev, initializeEvent ev this) this events in
  troupe loaded = troupe this ∧ dashboard loaded = dashboard this
  ∧ currentLimits loaded = currentLimits this
  ∧ attendeeMap loaded = attendeeMap this
  ∧ incrementLimits loaded = incrementLimits this.
Proof.
  induction events as [|ev events IH] using rev_ind; [done|].
  simpl. rewrite foldl_app. simpl. by destruct IH as (-> & -> & -> & -> & ->).
Qed.

Lemma runDiscovery_step db this d :
  runDiscovery db this = Ok d →
  discovery_step
    (foldl (λ this ev, initializeEvent ev this) this
       (findEvents db (t_id (troupe this))))
    (this_ d).
Proof.
  unfold runDiscovery. set (loaded := foldl _ this _).
  destruct (initializeEventTypes _ _ _) as [d0| |] eqn:Hinit; simpl; [|done..].
  apply initializeEventTypes_this in Hinit. simpl in Hinit.
  intros Hrun%exploreFolders_step. by rewrite Hinit in Hrun.
Qed.

(** X1.  The stored events of the tenant are all in [this.eventMap] when
    [discoverEvents] returns, each under its source and still marked as
    stored; and no entry that discovery started from is replaced: it keeps
    its [_id], and it is untouched when it had an event type. *)
Theorem discovery_keeps_known_events (db : Db) (this : SyncTroupe)
    (d : Discovery) :
  runDiscovery db this = Ok d →
  let loaded :=
    foldl (λ this ev, initializeEvent ev this) this
      (findEvents db (t_id (troupe this))) in
  (∀ ev, ev ∈ findEvents db (t_id (troupe this)) →
     ∃ ed, jsobj_get (sourceUri ev) (eventMap (this_ d)) = Some ed
           ∧ ed_fromColl ed = true
           ∧ sourceUri (event ed) = sourceUri ev)
  ∧ (∀ uri ed,
       jsobj_get uri (eventMap loaded) = Some ed →
       ∃ ed', jsobj_get uri (eventMap (this_ d)) = Some ed'
              ∧ ed_fromColl ed' = ed_fromColl ed
              ∧ ev_id (event ed') = ev_id (event ed)
              ∧ (is_Some (eventTypeId (event ed)) → ed' = ed)).
Proof.
  intros Hrun loaded.
  apply runDiscovery_step in Hrun as (_ & _ & _ & _ & _ & _ & _ & _ & Hkeys).
  fold loaded in Hkeys. split.
  - intros ev Hev.
    assert (∃ ed, jsobj_get (sourceUri ev) (eventMap loaded) = Some ed
                  ∧ ed_fromColl ed = true
                  ∧ sourceUri (event ed) = sourceUri ev)
      as (ed & Hget & Hstored & Huri).
    { unfold loaded. revert Hev.
      generalize (findEvents db (t_id (troupe this))). intros events.
      induction events as [|last events IH] using rev_ind;
        [by intros ?%elem_of_nil|].
      rewrite foldl_app. simpl. intros Hin.
      destruct (decide (sourceUri last = sourceUri ev)) as [Heq|Hne].
      - rewrite Heq, jsobj_get_set_eq. eexists. split; [done|]. done.
      - rewrite jsobj_get_set_ne by done. apply IH.
        apply elem_of_app in Hin as [?|Hin]; [done|].
        apply list_elem_of_singleton in Hin. by subst. }
    destruct (Hkeys _ _ Hget) as (ed' & Hget' & Hf & _ & Hu & _).
    exists ed'. repeat split; congruence.
  - intros uri ed Hget.
    destruct (Hkeys _ _ Hget) as (ed' & Hget' & Hf & Hi & _ & Hsame).
    exists ed'. done.
Qed.

(** X2.  The two-phase accounting of [discoverEvents]: when it returns, the
    projected delta of the quota of new events has gone down by exactly the
    number of entries added to [this.eventMap], and the projected deltas of
    the source folders and of the members are as they were. *)
Theorem discovery_projects_one_per_new_event (db : Db) (this : SyncTroupe)
    (d : Discovery) :
  runDiscovery db this = Ok d →
  let loaded :=
    foldl (λ this ev, initializeEvent ev this) this
      (findEvents db (t_id (troupe this))) in
  eventsLeft (incrementLimits (this_ d))
  = eventsLeft (incrementLimits this)
    - (Z.of_nat (length (eventMap (this_ d)))
       - Z.of_nat (length (eventMap loaded)))
  ∧ (length (eventMap loaded) ≤ length (eventMap (this_ d)))%nat
  ∧ sourceFolderUrisLeft (incrementLimits (this_ d))
    = sourceFolderUrisLeft (incrementLimits this)
  ∧ membersLeft (incrementLimits (this_ d)) = membersLeft (incrementLimits this)
  ∧ currentLimits (this_ d) = currentLimits this.
Proof.
  intros Hrun loaded.
  pose proof (initializeEvents_limits (findEvents db (t_id (troupe this))) this)
    as (_ & _ & Hc & _ & Hi).
  fold loaded in Hc, Hi.
  pose proof (runDiscovery_step _ _ _ Hrun)
    as (_ & _ & Hc' & _ & Hs & Hm & Hl & Hn & _).
  fold loaded in Hc', Hs, Hm, Hl, Hn. rewrite Hi in *.
  split; [lia|]. split; [done|]. split; [done|]. split; [done|congruence].
Qed.

(** ** What [sync] leaves alone *)

Lemma lockTroupe_unlock schema :
  syncLock schema = false → lockTroupe false (lockTroupe true schema) = schema.
Proof. destruct schema; simpl. by intros ->. Qed.

(** X3.  [sync] never changes a tenant document: whatever it returns or
    raises, the tenants it leaves are the tenants it found, the lock set
    and cleared again.  (The folders that discovery drops from an event type
    after a failed listing are dropped in memory only.) *)
Theorem sync_leaves_the_tenants (db : Db) (troupeId : oid)
    (skipLogPublish : bool) :
  troupeColl (sync db troupeId skipLogPublish).2 = troupeColl db.
Proof.
  unfold sync.
  destruct (troupeColl db !! troupeId) as [schema|] eqn:Hschema; [|done].
  destruct (syncLock schema) eqn:Hlock; [done|].
  match goal with |- context [performSync ?db1 ?t ?i ?s] =>
    destruct (performSync_troupeColl db1 t i s) as [Hsettles Htroupes];
    destruct (performSync db1 t i s) as [[[]| |] db2]
  end; simpl in *; [| |done].
  all: rewrite Htroupes; apply map_eq; intros i.
  all: destruct (decide (i = troupeId)) as [->|Hne].
  all: rewrite ?lookup_alter_eq, ?lookup_alter_ne, ?lookup_insert_eq,
         ?lookup_insert_ne by done; simpl; try done.
  all: by rewrite lockTroupe_unlock, Hschema.
Qed.

(** ** Failed listings *)

Lemma exploreFile_owned folderId owner file d :
  folderToEventTypeMap d !! folderId = Some owner →
  (owner < length (discoveryEventTypes d))%nat →
  ∃ d', exploreFile folderId (Some owner) file d = Ok d'.
Proof.
  intros Hmap Howner.
  destruct (lookup_lt_is_Some_2 _ _ Howner) as [o Ho].
  unfold exploreFile, performEventTypeTieBreaker. rewrite Hmap. simpl.
  rewrite Ho. simpl.
  case_bool_decide.
  - rewrite (bool_decide_eq_false_2 (totalFiles o < totalFiles o)) by lia.
    rewrite bool_decide_eq_false_2 by (intros H'; by apply H'). eauto.
  - destruct (indexOf _ _); [|eauto].
    destruct (jsobj_get _ _); [eauto|]. case_bool_decide; eauto.
Qed.

Lemma exploreFiles_owned folderId owner files d :
  folderToEventTypeMap d !! folderId = Some owner →
  (owner < length (discoveryEventTypes d))%nat →
  ∃ d', for_of (exploreFile folderId (Some owner)) files d = Ok d'.
Proof.
  revert d. induction files as [|file files IH]; intros d Hmap Howner; simpl;
    [eauto|].
  destruct (exploreFile_owned folderId owner file d Hmap Howner) as [d1 H1].
  rewrite H1. simpl. rewrite <- Hmap in H1.
  apply exploreFile_locals in H1 as (_ & Hm & Ht & _).
  apply IH; congruence.
Qed.

(** While every folder on the worklist is there once and owned, the
    worklist loop returns: a failed listing finds the owner to drop the
    folder from, and the files of a folder find the event type to take. *)
Lemma exploreFolders_owned fuel d :
  owned_worklist d → (length (foldersToExplore d) ≤ fuel)%nat →
  ∃ d', exploreFolders fuel d = Ok d'.
Proof.
  revert d. induction fuel as [|fuel IH]; intros d [Hnodup Howned] Hfuel;
    destruct d as [this types map worklist discovered calls];
    destruct worklist as [|folderId rest]; simpl in *; eauto; try lia.
  apply NoDup_cons in Hnodup as [Hfresh Hnodup].
  assert (∀ f, f ∈ rest →
            ∃ owner, map !! f = Some owner ∧ (owner < length types)%nat)
    as Hrest by (intros f Hf; apply Howned; by right).
  destruct (Howned folderId) as (owner & Howner & Hlt); [left|].
  case_bool_decide.
  { apply IH; [|simpl; lia]. by split. }
  destruct (drive_files_list calls folderId) as [| |files].
  - rewrite Howner. simpl. apply IH; [|simpl; lia]. split; [done|]. simpl.
    intros f Hf. destruct (Hrest f Hf) as (o & Ho & Hlto). exists o.
    rewrite length_alter, lookup_delete_ne; [done|]. by intros ->.
  - apply IH; [|simpl; lia]. by split.
  - rewrite Howner.
    match goal with |- context [for_of ?body files ?d0] =>
      destruct (exploreFiles_owned folderId owner files d0) as [d' Hd'];
        [done..|]; rewrite Hd'; simpl;
      apply exploreFiles_locals in Hd' as (Hw & Hm & Ht & _); [|done]
    end.
    simpl in *. apply IH; [|rewrite Hw; lia].
    split; rewrite Hw, ?Hm, ?Ht; done.
Qed.

Lemma claimFolder_fresh folderId index d :
  folderToEventTypeMap d !! folderId = None →
  claimFolder folderId index d
  = Ok (set_foldersToExplore (cons folderId)
          (set_folderToEventTypeMap <[folderId := index]>
             (set_discoveryEventTypes (alter (add_totalFiles 1) index) d))).
Proof.
  intros Hmap. unfold claimFolder, performEventTypeTieBreaker. rewrite Hmap.
  cbn. by rewrite bool_decide_eq_true_2.
Qed.

Lemma claimFolders_fresh index (folders : list string) d :
  NoDup (folderIdOf getDataSourceId <$> folders) →
  (∀ f, f ∈ folderIdOf getDataSourceId <$> folders → f ∉ foldersToExplore d) →
  owned_worklist d →
  (∀ f, is_Some (folderToEventTypeMap d !! f) → f ∈ foldersToExplore d) →
  (index < length (discoveryEventTypes d))%nat →
  ∃ d',
    for_of (λ folder, claimFolder (folderIdOf getDataSourceId folder) index)
      folders d = Ok d'
    ∧ owned_worklist d'
    ∧ (∀ f, is_Some (folderToEventTypeMap d' !! f) → f ∈ foldersToExplore d')
    ∧ length (discoveryEventTypes d') = length (discoveryEventTypes d)
    ∧ ∀ f, f ∈ foldersToExplore d' →
        f ∈ foldersToExplore d ∨ f ∈ folderIdOf getDataSourceId <$> folders.
Proof.
  revert d. induction folders as [|folder folders IH];
    intros d Hnodup Hfresh Howned Hmap Hindex; simpl.
  { exists d. split_and!; auto. }
  rewrite fmap_cons in Hnodup, Hfresh.
  apply NoDup_cons in Hnodup as [Hfolder Hnodup].
  set (folderId := folderIdOf getDataSourceId folder) in *.
  assert (folderToEventTypeMap d !! folderId = None) as Hnone.
  { destruct (folderToEventTypeMap d !! folderId) eqn:Hget; [|done].
    exfalso. apply (Hfresh folderId); [left|]. apply Hmap. by rewrite Hget. }
  rewrite claimFolder_fresh by done. simpl.
  match goal with |- context [for_of _ folders ?d1] =>
    destruct (IH d1) as (d' & Hrun & Howned' & Hmap' & Hlen & Hsub)
  end; simpl.
  - done.
  - intros f Hf [->|Hin]%elem_of_cons; [done|].
    apply (Hfresh f); [by right|done].
  - destruct Howned as [Hnd Ho]. split; simpl.
    + apply NoDup_cons. split; [|done]. apply Hfresh. left.
    + intros f Hf. rewrite length_alter.
      destruct (decide (f = folderId)) as [->|Hne].
      * exists index. by rewrite lookup_insert_eq.
      * rewrite lookup_insert_ne by done. apply Ho.
        by apply elem_of_cons in Hf as [?|?].
  - intros f. destruct (decide (f = folderId)) as [->|Hne]; [by left|].
    rewrite lookup_insert_ne by done. right. by apply Hmap.
  - by rewrite length_alter.
  - exists d'. split_and!; try done.
    + rewrite Hlen. simpl. by rewrite length_alter.
    + intros f Hf. destruct (Hsub f Hf) as [Hin|Hin]; simpl in Hin.
      * apply elem_of_cons in Hin as [->|Hin]; [right; left|by left].
      * right. by right.
Qed.

Lemma initializeEventTypes_fresh index (types : list EventTypeSchema) d :
  NoDup (folderIdOf getDataSourceId <$> concat (sourceFolderUris <$> types)) →
  (∀ f, f ∈ folderIdOf getDataSourceId <$> concat (sourceFolderUris <$> types) →
        f ∉ foldersToExplore d) →
  owned_worklist d →
  (∀ f, is_Some (folderToEventTypeMap d !! f) → f ∈ foldersToExplore d) →
  (index + length types ≤ length (discoveryEventTypes d))%nat →
  ∃ d', initializeEventTypes index types d = Ok d' ∧ owned_worklist d'.
Proof.
  revert index d. induction types as [|eventType types IH];
    intros index d Hnodup Hfresh Howned Hmap Hindex; simpl; [eauto|].
  simpl in Hnodup, Hfresh, Hindex. rewrite fmap_app in Hnodup, Hfresh.
  apply NoDup_app in Hnodup as (Hnodup1 & Hdisjoint & Hnodup2).
  destruct (claimFolders_fresh index (sourceFolderUris eventType) d)
    as (d1 & Hrun & Howned1 & Hmap1 & Hlen & Hsub); try done.
  { intros f Hf. apply Hfresh, elem_of_app. by left. }
  { lia. }
  unfold claimFolders. rewrite Hrun. simpl.
  apply IH; try done; [|lia].
  intros f Hf Hin. destruct (Hsub f Hin) as [Hold|Hnew].
  - apply (Hfresh f); [|done]. apply elem_of_app. by right.
  - by apply (Hdisjoint f).
Qed.

(** X4.  When no folder is declared twice by the event types of the
    troupe, [discoverEvents] returns, whatever the listings of the folders
    answer: a listing that fails only drops its folder. *)
Theorem discovery_isolates_failed_listings (db : Db) (this : SyncTroupe) :
  NoDup (folderIdOf getDataSourceId
           <$> concat (sourceFolderUris <$> eventTypes (troupe this))) →
  ∃ d, runDiscovery db this = Ok d.
Proof.
  intros Hnodup. unfold runDiscovery. set (loaded := foldl _ this _).
  assert (troupe loaded = troupe this) as Htroupe.
  { unfold loaded. generalize (findEvents db (t_id (troupe this))).
    intros l. induction l as [|ev l IH] using rev_ind; [done|].
    by rewrite foldl_app. }
  rewrite Htroupe.
  match goal with |- context [initializeEventTypes 0 ?types ?d0] =>
    destruct (initializeEventTypes_fresh 0 types d0) as (d1 & Hinit & Howned)
  end; simpl.
  - done.
  - intros f _. apply not_elem_of_nil.
  - split; [apply NoDup_nil_2|]. by intros f ?%elem_of_nil.
  - intros f. rewrite lookup_empty. by intros [? ?].
  - by rewrite length_fmap.
  - rewrite Hinit. simpl. by apply exploreFolders_owned.
Qed.

Lemma for_of_raises {A S} (P : error → Prop) (body : A → S → outcome S)
    (l : list A) (s : S) (e : error) :
  (∀ a s e, body a s = Throw e → P e) → for_of body l s = Throw e → P e.
Proof.
  intros Hbody. revert s. induction l as [|a l IH]; intros s; simpl; [done|].
  destruct (body a s) as [s1| |] eqn:Hb; simpl; [apply IH| |done].
  intros [= <-]. eauto.
Qed.

Lemma raises_deref {A} (o : option A) (e : error) :
  deref o = Throw e → e = TypeError.
Proof. destruct o; simpl; [done|]. by intros [= <-]. Qed.

Lemma raises_bind {A B} (m : outcome A) (f : A → outcome B) (e : error) :
  (∀ e, m = Throw e → e = TypeError) →
  (∀ a e, f a = Throw e → e = TypeError) →
  m ≫= f = Throw e → e = TypeError.
Proof.
  destruct m as [a|e0|]; simpl; intros Hm Hf; [apply Hf| |done].
  intros [= <-]. by apply Hm.
Qed.

Lemma exploreFile_raises folderId current file d e :
  exploreFile folderId current file d = Throw e → e = TypeError.
Proof.
  unfold exploreFile, performEventTypeTieBreaker.
  case_bool_decide.
  - apply raises_bind.
    { intros e0. destruct (folderToEventTypeMap d !! folderId); [|done].
      apply raises_bind; [apply raises_deref|]. intros o e1.
      apply raises_bind; [apply raises_deref|done]. }
    intros w e0. case_bool_decide; [|done].
    destruct (folderToEventTypeMap d !! folderId).
    + apply raises_bind; [apply raises_deref|done].
    + case_bool_decide; [done|]. apply raises_bind; [apply raises_deref|done].
  - destruct (indexOf _ _); [|done].
    apply raises_bind; [apply raises_deref|]. intros c e0.
    destruct (jsobj_get _ _); [done|]. by case_bool_decide.
Qed.

(** A folder that is still on the worklist after its entry in the
    ownership table is gone, and whose listing fails, ends the loop with a
    [TypeError]. *)
Lemma exploreFolders_unowned fuel d (f : string) :
  (∀ call, drive_files_list call f = ListingFails) →
  f ∈ foldersToExplore d → f ∉ discoveredFolders d →
  folderToEventTypeMap d !! f = None →
  (length (foldersToExplore d) ≤ fuel)%nat →
  exploreFolders fuel d = Throw TypeError.
Proof.
  intros Hfails. revert d.
  induction fuel as [|fuel IH]; intros d Hin Hnew Hnone Hfuel;
    destruct d as [this types map worklist discovered calls];
    destruct worklist as [|folderId rest]; simpl in *;
    try (by apply elem_of_nil in Hin); try lia.
  destruct (decide (folderId = f)) as [->|Hne].
  { rewrite bool_decide_eq_false_2 by done. by rewrite Hfails, Hnone. }
  assert (f ∈ rest) as Hrest by (by apply elem_of_cons in Hin as [?|?]).
  case_bool_decide.
  { apply IH; simpl; try done. lia. }
  destruct (drive_files_list calls folderId) as [| |files].
  - destruct (map !! folderId) as [owner|]; simpl; [|done].
    apply IH; simpl; try done; [|lia]. by rewrite lookup_delete_ne.
  - apply IH; simpl; try done; [|lia].
    by intros [?|?]%elem_of_cons.
  - match goal with |- context [for_of ?body files ?d0] =>
      pose proof (settles_for_of body files d0
                    (λ a s, settles_exploreFile _ _ a s)) as Hsettles;
      destruct (for_of body files d0) as [d'|e|] eqn:Hd'; simpl; [| |done]
    end.
    + apply exploreFiles_locals in Hd' as (Hw & Hm & _ & Hd & _); [|done].
      simpl in *. apply IH; rewrite ?Hw, ?Hm, ?Hd; try done; [|lia].
      by intros [?|?]%elem_of_cons.
    + f_equal. revert Hd'. apply (for_of_raises (λ e, e = TypeError)).
      intros a s e'.
      apply exploreFile_raises.
Qed.

(** X5.  A folder that is on the worklist twice, which is where a folder
    that changed hands between two event types is, and whose listing fails:
    the first failure removes its entry from the ownership table, the second
    reads the owner from the entry that is gone, and [discoverEvents] raises
    a [TypeError] instead of skipping the folder. *)
Theorem failed_listing_of_a_folder_queued_twice (fuel : nat) (d : Discovery)
    (f : string) (before after : list string) :
  (∀ call, drive_files_list call f = ListingFails) →
  foldersToExplore d = before ++ f :: after →
  f ∈ after →
  f ∉ discoveredFolders d →
  (length (foldersToExplore d) ≤ fuel)%nat →
  exploreFolders fuel d = Throw TypeError.
Proof.
  intros Hfails. revert d before.
  induction fuel as [|fuel IH]; intros d before Hw Hafter Hnew Hfuel;
    destruct d as [this types map worklist discovered calls];
    destruct worklist as [|folderId rest]; simpl in *;
    try (by destruct before); try lia.
  assert (f ∈ rest ∧ (folderId = f ∨ ∃ before', rest = before' ++ f :: after))
    as [Hrest Hsplit].
  { destruct before as [|b before]; simplify_eq/=.
    - split; [done|by left].
    - split; [|right; eauto]. apply elem_of_app. right. left. }
  destruct (decide (folderId = f)) as [->|Hne].
  { rewrite bool_decide_eq_false_2 by done. rewrite Hfails.
    destruct (map !! f) as [owner|] eqn:Howner; simpl; [|done].
    apply exploreFolders_unowned with (f := f); simpl; try done; [|lia].
    by rewrite lookup_delete_eq. }
  destruct Hsplit as [?|[before' ->]]; [done|].
  case_bool_decide.
  { eapply IH; simpl; try done. lia. }
  destruct (drive_files_list calls folderId) as [| |files].
  - destruct (map !! folderId) as [owner|]; simpl; [|done].
    eapply IH; simpl; try done. lia.
  - eapply IH; simpl; try done; [|lia].
    by intros [?|?]%elem_of_cons.
  - match goal with |- context [for_of ?body files ?d0] =>
      pose proof (settles_for_of body files d0
                    (λ a s, settles_exploreFile _ _ a s)) as Hsettles;
      destruct (for_of body files d0) as [d'|e|] eqn:Hd'; simpl; [| |done]
    end.
    + apply exploreFiles_locals in Hd' as (Hw' & _ & _ & Hd & _); [|done].
      simpl in *. eapply IH; rewrite ?Hw', ?Hd; try done; [|lia].
      by intros [?|?]%elem_of_cons.
    + f_equal. revert Hd'. apply (for_of_raises (λ e, e = TypeError)).
      intros a s e'.
      apply exploreFile_raises.
Qed.

(** ** The audience *)

Lemma missesRequiredProperty_false properties required :
  missesRequiredProperty properties required = Ok false →
  ∀ prop, prop ∈ required →
    ∃ p, properties !! prop = Some p ∧ truthy (value p) = true.
Proof.
  induction required as [|first required IH]; simpl.
  { by intros _ prop ?%elem_of_nil. }
  destruct (properties !! first) as [p|] eqn:Hfirst; simpl; [|done].
  destruct (truthy (value p)) eqn:Htruthy; simpl; [|done].
  intros Hrest prop [->|Hin]%elem_of_cons; eauto.
Qed.

(** The flagging changes the flag only, and only sets it. *)
Lemma markAllForDeletion_Forall2 required attendees attendees' :
  markAllForDeletion required attendees = Ok attendees' →
  Forall2
    (λ km km' : string * MemberData,
       km'.1 = km.1
       ∧ member km'.2 = member km.2
       ∧ eventsAttended km'.2 = eventsAttended km.2
       ∧ eventsAttendedDocs km'.2 = eventsAttendedDocs km.2
       ∧ fromColl km'.2 = fromColl km.2
       ∧ (delete_ km.2 = true → delete_ km'.2 = true)
       ∧ (delete_ km'.2 = false →
          ∀ prop, prop ∈ required →
            ∃ p, properties (member km.2) !! prop = Some p
                 ∧ truthy (value p) = true))
    attendees attendees'.
Proof.
  revert attendees'.
  induction attendees as [|[memberId m] attendees IH]; intros attendees'; simpl.
  { intros [= <-]. constructor. }
  unfold markForDeletion.
  destruct (missesRequiredProperty _ _) as [misses| |] eqn:Hmisses; simpl;
    [|done..].
  destruct (markAllForDeletion _ _) as [rest| |]; simpl; [|done..].
  intros [= <-]. constructor; [|by apply IH]. simpl.
  split_and!; try done.
  - intros ->. by destruct misses.
  - destruct misses; [done|]. intros _.
    by apply missesRequiredProperty_false.
Qed.

(** X6.  When [discoverAndRefreshAudience] returns, a member that it left
    unflagged has a value for every property that the troupe requires (a
    type that ends in an exclamation mark). *)
Theorem unflagged_members_have_the_required_properties (db : Db)
    (this this' : SyncTroupe) (memberId : string) (m : MemberData)
    (prop type : string) :
  discoverAndRefreshAudience db this = Ok this' →
  (memberId, m) ∈ attendeeMap this' →
  delete_ m = false →
  (prop, type) ∈ memberPropertyTypes (troupe this') →
  endsWith type "!" = true →
  ∃ p, properties (member m) !! prop = Some p ∧ truthy (value p) = true.
Proof.
  unfold discoverAndRefreshAudience.
  destruct (for_of _ _ _) as [this1| |]; simpl; [|done..].
  destruct (for_of _ _ _) as [this2| |]; simpl; [|done..].
  destruct (markAllForDeletion _ _) as [attendees| |] eqn:Hmark; simpl;
    [|done..].
  intros [= <-]. simpl. intros Hin Hflag Hprop Hrequired.
  apply markAllForDeletion_Forall2 in Hmark.
  apply list_elem_of_lookup in Hin as [i Hi].
  destruct (Forall2_lookup_r _ _ _ _ _ Hmark Hi)
    as ([memberId0 m0] & _ & _ & Hmember & _ & _ & _ & _ & Hcomplete).
  simpl in *. rewrite Hmember. apply Hcomplete; [done|].
  unfold requiredProperties. apply list_elem_of_fmap.
  exists (prop, type). split; [done|]. by apply list_elem_of_filter.
Qed.

(** X7.  A stored member enters [this.attendeeMap] under its member id,
    marked as stored and not flagged, without attendance; its properties are
    the properties that the troupe defines and no other; the points of the
    point types of the troupe are zero and the others are as stored. *)
Theorem stored_member_is_reinitialized (db : Db) (lastUpdated : Z)
    (member_ : MemberSchema) (this this' : SyncTroupe) :
  initializeMember Date_toString db lastUpdated member_ this = Ok this' →
  ∃ memberId m,
    properties member_ !! "Member ID"%string = Some memberId
    ∧ jsobj_get (propertyKey Date_toString (value memberId)) (attendeeMap this')
      = Some m
    ∧ fromColl m = true ∧ delete_ m = false ∧ eventsAttended m = []
    ∧ eventsAttendedDocs m = findEventsAttended db (m_id member_)
    ∧ m_id (member m) = m_id member_
    ∧ m_lastUpdated (member m) = lastUpdated
    ∧ (∀ prop,
         properties (member m) !! prop
         = if bool_decide (prop ∈ jsobj_keys (memberPropertyTypes (troupe this)))
           then Some match properties member_ !! prop with
                     | Some p =>
                         if override p then p
                         else {| value := value p; override := false |}
                     | None => {| value := PUndefined; override := false |}
                     end
           else None)
    ∧ (∀ pointType,
         points (member m) !! pointType
         = if bool_decide (pointType ∈ pointTypes (troupe this)) then Some 0
           else points member_ !! pointType).
Proof.
  unfold initializeMember.
  destruct (properties member_ !! "Member ID"%string) as [memberId|] eqn:Hid;
    simpl; [|done].
  intros [= <-]. eexists memberId, _. split; [done|]. simpl.
  rewrite jsobj_get_set_eq. split; [done|]. simpl.
  split_and!; try done.
  - intros prop. apply baseProps_lookup.
  - intros pointType. apply resetPoints_lookup.
Qed.

Lemma for_of_throws {A S} (body : A → S → outcome S) (l : list A) (s : S)
    (a : A) (e : error) :
  a ∈ l →
  (∀ s, body a s = Throw e) →
  (∀ a s e', body a s = Throw e' → e' = e) →
  (∀ a s, settles (body a s)) →
  for_of body l s = Throw e.
Proof.
  intros Hin Ha Hthrow Hsettles. revert s.
  induction l as [|a0 l IH]; intros s; [by apply elem_of_nil in Hin|]. simpl.
  destruct (body a0 s) as [s1|e1|] eqn:Hstep; simpl.
  - apply elem_of_cons in Hin as [->|Hin]; [|by apply IH].
    by rewrite Ha in Hstep.
  - by rewrite (Hthrow _ _ _ Hstep).
  - by destruct (Hsettles a0 s).
Qed.

(** X20.  One stored member of the tenant without the property
    ["Member ID"] is enough for [discoverAndRefreshAudience] to raise a
    [TypeError], whatever else is stored and found. *)
Theorem stored_member_without_id_fails_the_run (db : Db) (this : SyncTroupe)
    (member_ : MemberSchema) :
  member_ ∈ findMembers db (t_id (troupe this)) →
  properties member_ !! "Member ID"%string = None →
  discoverAndRefreshAudience db this = Throw TypeError.
Proof.
  intros Hin Hid. unfold discoverAndRefreshAudience.
  rewrite (for_of_throws _ _ _ member_ TypeError); try done.
  - intros s. unfold initializeMember. by rewrite Hid.
  - intros a s e'. unfold initializeMember.
    apply raises_bind; [apply raises_deref|done].
  - intros a s. unfold initializeMember.
    apply settles_bind; [auto with settles|done].
Qed.

(** ** The counters of the dashboard *)

Lemma initializeStatistics_tallied (types : list EventTypeSchema) u0 :
  tallied 0 0 u0 (foldl (λ u eventType, initializeStatistics eventType u) u0 types).
Proof.
  induction types as [|last types IH] using rev_ind.
  - unfold tallied. simpl. split_and!; (done || lia).
  - by rewrite foldl_app.
Qed.

Lemma countEvents_tallied u0 (events : list EventData) e m u u' :
  tallied e m u0 u → for_of countEvent events u = Ok u' →
  tallied (e + Z.of_nat (length events)) m u0 u'.
Proof.
  revert e u. induction events as [|eventData events IH]; intros e u Hu; simpl.
  { intros [= <-]. by rewrite Z.add_0_r. }
  destruct (countEvent eventData u) as [u1| |] eqn:Hstep; simpl; [|done..].
  intros Hrest. apply (IH (e + 1)) in Hrest.
  { by replace (e + Z.of_nat (S (length events)))
      with (e + 1 + Z.of_nat (length events)) by lia. }
  unfold countEvent in Hstep.
  destruct (_ : outcome (gmap oid Stat * gmap oid PercentStat))
    as [[byType percentage]| |]; simpl in Hstep; [|done..].
  injection Hstep as <-. destruct Hu as (He & Hm & Ht & Ha & Hl).
  unfold tallied. simpl. split_and!; (done || lia).
Qed.

Lemma countAttendance_tallied u0 e m eventTypeId u u' :
  tallied e m u0 u → countAttendance eventTypeId u = Ok u' → tallied e m u0 u'.
Proof.
  intros Hu. unfold countAttendance.
  destruct (_ : outcome (gmap oid Stat * gmap oid Stat * gmap oid PercentStat))
    as [[[total avg] percentage]| |]; simpl; [|done..].
  by intros [= <-].
Qed.

Lemma bucketPages_tallied u0 e m fuel troupeId memberId memberData page
    docsProcessed acc page' acc' :
  tallied e m u0 (dashboardUpdate acc) →
  bucketPages fuel troupeId memberId memberData page docsProcessed acc
  = Ok (page', acc') →
  tallied e m u0 (dashboardUpdate acc').
Proof.
  revert page docsProcessed acc.
  induction fuel as [|fuel IH]; intros page docsProcessed acc Hacc; simpl;
    case_bool_decide; try done; try (by intros [= <- <-]).
  destruct (eventsAttendedDocs memberData !! page); simpl.
  all: destruct (for_of _ _ _) as [[events u]| |] eqn:Hloop; simpl; [|done..].
  all: apply IH; simpl.
  all: eapply (for_of_invariant (λ s, tallied e m u0 s.2)) in Hloop;
    [done| |done].
  all: intros i s s' Hs; unfold recordAttendance.
  all: destruct (eventsAttended memberData !! i); simpl; [|done].
  all: destruct (countAttendance _ _) as [u1| |] eqn:Hu1; simpl; [|done..].
  all: intros [= <-]; simpl; by eapply countAttendance_tallied.
Qed.

Lemma persistMember_tallied u0 e troupeId cutoff memberData acc acc' :
  tallied e (Z.of_nat (length (updateAudience acc))) u0 (dashboardUpdate acc) →
  persistMember troupeId cutoff memberData acc = Ok acc' →
  tallied e (Z.of_nat (length (updateAudience acc'))) u0 (dashboardUpdate acc').
Proof.
  intros Hacc Hrun.
  destruct (delete_ memberData && fromColl memberData) eqn:Hflag.
  { unfold persistMember in Hrun. rewrite Hflag in Hrun.
    by injection Hrun as <-. }
  pose proof (persistMember_updates _ _ _ _ _ Hflag Hrun) as (-> & _).
  unfold persistMember in Hrun. rewrite Hflag in Hrun.
  destruct (countMember _ _ _ _) as [u| |] eqn:Hu; simpl in Hrun; [|done..].
  destruct (bucketPages _ _ _ _ _ _ _) as [[page acc1]| |] eqn:Hpages;
    simpl in Hrun; [|done..].
  injection Hrun as <-. simpl.
  eapply bucketPages_tallied in Hpages; [done|]. simpl.
  rewrite length_app, Nat2Z.inj_add. simpl.
  unfold countMember in Hu.
  destruct (properties (member memberData) !! "Birthday"%string) as [b|];
    simpl in Hu; [|done].
  destruct (_ : outcome (list BirthdayEntry)) as [birthdays| |];
    simpl in Hu; [|done..].
  injection Hu as <-. destruct Hacc as (He & Hm & Ht & Ha & Hl).
  unfold tallied. simpl. split_and!; (done || lia).
Qed.

Lemma completeStatistics_tallied u0 e m totalAttendees_ totalEvents_ types u u' :
  tallied e m u0 u →
  for_of (completeStatistics totalAttendees_ totalEvents_) types u = Ok u' →
  tallied e m u0 u'.
Proof.
  apply (for_of_invariant (tallied e m u0)).
  intros eventType s s' Hs. unfold completeStatistics.
  intros Hs'.
  repeat match type of Hs' with
  | context [deref ?o] => destruct o; simpl in Hs'; [|done]
  end.
  by injection Hs' as <-.
Qed.

(** X8.  The counters of the dashboard that [persistSync] writes: the
    events are the entries of [this.eventMap], the members are the members
    that are written, the event types are those of the troupe, and the
    average number of attendees per event is zero whatever was counted (the
    average that is computed goes to [this.dashboard], which is not
    written); the number of attendees, never set to zero, is not a number. *)
Theorem dashboard_counters (this : SyncTroupe) (acc : Persist)
    (updateEvents : list EventSchema) :
  prepareSync this = Ok (acc, updateEvents) →
  let u := dashboardUpdate acc in
  totalEvents u = Z.of_nat (length (eventMap this))
  ∧ updateEvents = event <$> jsobj_values (eventMap this)
  ∧ totalMembers u = Z.of_nat (length (updateAudience acc))
  ∧ totalEventTypes u = Z.of_nat (length (eventTypes (troupe this)))
  ∧ avgAttendeesPerEvent u = JZ 0
  ∧ not_a_count (totalAttendees u)
  ∧ d_lastUpdated u = now.
Proof.
  unfold prepareSync. intros Hrun.
  destruct (for_of countEvent _ _) as [u1| |] eqn:Hevents;
    simpl in Hrun; [|done..].
  destruct (for_of (persistMember _ _) _ _) as [acc1| |] eqn:Hmembers;
    simpl in Hrun; [|done..].
  destruct (for_of (completeStatistics _ _) _ _) as [u2| |] eqn:Hcomplete;
    simpl in Hrun; [|done..].
  injection Hrun as <- <-. simpl.
  set (u0 := initialDashboardUpdate now this) in *.
  set (e := Z.of_nat (length (eventMap this))).
  assert (tallied e 0 u0 u1) as Hu1.
  { apply (countEvents_tallied u0 _ 0 0) in Hevents;
      [|apply initializeStatistics_tallied].
    unfold jsobj_values in Hevents. by rewrite length_fmap in Hevents. }
  assert (tallied e (Z.of_nat (length (updateAudience acc1))) u0
            (dashboardUpdate acc1)) as Hacc1.
  { eapply (for_of_invariant
              (λ acc, tallied e (Z.of_nat (length (updateAudience acc))) u0
                        (dashboardUpdate acc))); [| |exact Hmembers]; [|done].
    intros; by eapply persistMember_tallied. }
  assert (not_a_count (totalAttendees u2)) as Hnan.
  { assert (well_counted [] (dashboardUpdate acc1)) as [Hnan _].
    { eapply (for_of_invariant (λ acc, well_counted [] (dashboardUpdate acc)));
        [| |exact Hmembers].
      - intros; by eapply persistMember_well_counted.
      - simpl. eapply (for_of_invariant (well_counted [])); [| |exact Hevents].
        + intros; by eapply countEvent_well_counted.
        + split; [|by intros ? ?%elem_of_nil].
          rewrite initializeStatistics_totalAttendees. by left. }
    revert Hcomplete.
    apply (for_of_invariant (λ u, not_a_count (totalAttendees u))); [|done].
    intros eventType s s' Hs. unfold completeStatistics. intros Hs'.
    repeat match type of Hs' with
    | context [deref ?o] => destruct o; simpl in Hs'; [|done]
    end.
    by injection Hs' as <-. }
  eapply completeStatistics_tallied in Hcomplete; [|exact Hacc1].
  destruct Hcomplete as (He & Hm & Ht & Ha & Hl).
  split_and!; try done.
Qed.

(** ** The audience after the commit *)

Lemma deleteMany_lookup {A} (ids : list oid) (coll : gmap oid A) (i : oid) :
  deleteMany ids coll !! i
  = if bool_decide (i ∈ ids) then None else coll !! i.
Proof.
  unfold deleteMany. revert coll.
  induction ids as [|_id ids IH]; intros coll; simpl; [done|].
  rewrite IH. destruct (decide (i = _id)) as [->|Hne].
  - rewrite lookup_delete_eq, (bool_decide_eq_true_2 (_id ∈ _id :: ids));
      [by destruct (bool_decide (_id ∈ ids))|left].
  - rewrite lookup_delete_ne by done.
    apply (f_equal (λ b : bool, if b then None else coll !! i)).
    apply bool_decide_ext. rewrite elem_of_cons.
    split; [by right|by intros [?|?]].
Qed.

Lemma bulkUpsert_lookup_ne {A} (_id : A → oid) (docs : list A)
    (coll : gmap oid A) (i : oid) :
  i ∉ _id <$> docs → bulkUpsert _id docs coll !! i = coll !! i.
Proof.
  unfold bulkUpsert. revert coll.
  induction docs as [|doc docs IH]; intros coll; simpl; [done|].
  rewrite not_elem_of_cons. intros [Hne Hrest].
  by rewrite IH, lookup_insert_ne.
Qed.

Lemma bulkUpsert_lookup {A} (_id : A → oid) (docs : list A)
    (coll : gmap oid A) (doc : A) :
  NoDup (_id <$> docs) → doc ∈ docs →
  bulkUpsert _id docs coll !! _id doc = Some doc.
Proof.
  unfold bulkUpsert. revert coll.
  induction docs as [|first docs IH]; intros coll; simpl.
  { by intros _ ?%elem_of_nil. }
  rewrite NoDup_cons. intros [Hfirst Hnodup] [->|Hin]%elem_of_cons.
  - change (foldl _ ?c docs) with (bulkUpsert _id docs c).
    by rewrite bulkUpsert_lookup_ne, lookup_insert_eq.
  - by apply IH.
Qed.

(** The arrays that the loop over [this.attendeeMap] fills: a member that
    is flagged and from storage goes to the deletions with all of its
    stored buckets, every other member to the updates. *)
Lemma persistMembers_arrays troupeId cutoff (members : list MemberData) acc acc' :
  for_of (persistMember troupeId cutoff) members acc = Ok acc' →
  updateAudience acc'
  = updateAudience acc
    ++ (member <$> filter (λ m, delete_ m && fromColl m = false) members)
  ∧ membersToDelete acc'
    = membersToDelete acc
      ++ ((λ m, m_id (member m))
            <$> filter (λ m, delete_ m && fromColl m = true) members)
  ∧ (∀ _id, _id ∈ eventsAttendedToDelete acc → _id ∈ eventsAttendedToDelete acc')
  ∧ (∀ m doc, m ∈ members → delete_ m && fromColl m = true →
       doc ∈ eventsAttendedDocs m → b_id doc ∈ eventsAttendedToDelete acc').
Proof.
  revert acc. induction members as [|m members IH]; intros acc; simpl.
  { intros [= <-]. rewrite !app_nil_r. split_and!; try done.
    by intros ? ? ?%elem_of_nil. }
  destruct (persistMember troupeId cutoff m acc) as [acc1| |] eqn:Hstep;
    simpl; [|done..].
  intros (Ha & Hm & Hd & Hdocs)%IH.
  destruct (delete_ m && fromColl m) eqn:Hflag.
  - apply andb_true_iff in Hflag as [Hdelete Hstored].
    rewrite persistMember_deletes in Hstep by done. injection Hstep as <-.
    simpl in *. rewrite filter_cons_False by (rewrite Hdelete, Hstored; done).
    rewrite filter_cons_True by (rewrite Hdelete, Hstored; done).
    rewrite Ha, Hm, <- app_assoc. split_and!; try done.
    + intros _id Hid. apply Hd, elem_of_app. by left.
    + intros m' doc [->|Hin]%elem_of_cons Hflag' Hdoc; [|by eapply Hdocs].
      apply Hd, elem_of_app. right. by apply list_elem_of_fmap_2.
  - pose proof (persistMember_updates _ _ _ _ _ Hflag Hstep) as (Ha1 & Hm1 & Hd1 & _).
    rewrite filter_cons_True by done.
    rewrite filter_cons_False by (rewrite Hflag; done).
    rewrite Ha, Hm, Ha1, Hm1, <- app_assoc. split_and!; try done.
    + intros _id Hid. apply Hd. rewrite Hd1. apply elem_of_app. by left.
    + intros m' doc [->|Hin]%elem_of_cons Hflag' Hdoc; [congruence|].
      by eapply Hdocs.
Qed.

Lemma prepareSync_arrays this acc updateEvents :
  prepareSync this = Ok (acc, updateEvents) →
  updateEvents = event <$> jsobj_values (eventMap this)
  ∧ updateAudience acc
    = member <$> filter (λ m, delete_ m && fromColl m = false)
                   (jsobj_values (attendeeMap this))
  ∧ membersToDelete acc
    = (λ m, m_id (member m))
        <$> filter (λ m, delete_ m && fromColl m = true)
              (jsobj_values (attendeeMap this))
  ∧ (∀ m doc, m ∈ jsobj_values (attendeeMap this) →
       delete_ m && fromColl m = true →
       doc ∈ eventsAttendedDocs m → b_id doc ∈ eventsAttendedToDelete acc).
Proof.
  unfold prepareSync. intros Hrun.
  destruct (for_of countEvent _ _) as [u1| |] eqn:Hevents;
    simpl in Hrun; [|done..].
  destruct (for_of (persistMember _ _) _ _) as [acc1| |] eqn:Hmembers;
    simpl in Hrun; [|done..].
  destruct (for_of (completeStatistics _ _) _ _) as [u2| |] eqn:Hcomplete;
    simpl in Hrun; [|done..].
  injection Hrun as <- <-. simpl.
  apply persistMembers_arrays in Hmembers as (Ha & Hm & _ & Hdocs).
  done.
Qed.

(** What a commit that went through leaves in the five collections. *)
Lemma persistSync_Ok db this this' db' :
  persistSync db this = (Ok this', db') →
  ∃ acc updateEvents,
    prepareSync this = Ok (acc, updateEvents)
    ∧ troupeColl db' = troupeColl db
    ∧ dashboardColl db'
      = upsertDashboard (t_id (troupe this)) (dashboardUpdate acc) (dashboardColl db)
    ∧ eventColl db' = bulkUpsert ev_id updateEvents (eventColl db)
    ∧ audienceColl db'
      = deleteMany (membersToDelete acc)
          (bulkUpsert m_id (updateAudience acc) (audienceColl db))
    ∧ eventsAttendedColl db'
      = deleteMany (eventsAttendedToDelete acc)
          (bulkUpsert b_id (updateEventsAttended acc) (eventsAttendedColl db)).
Proof.
  unfold persistSync.
  destruct (prepareSync this) as [[acc updateEvents]| |]; [|done..].
  destruct (incrementTroupeLimits _ _ _) as [db2|] eqn:Hlimits; [|done].
  destruct (commitTransaction db2); [|done].
  intros [= <- <-]. exists acc, updateEvents.
  apply incrementTroupeLimits_frame in Hlimits as (-> & -> & -> & -> & ->).
  done.
Qed.

(** X9.  After a commit that went through, a member that was flagged for
    deletion and came from storage is gone from the audience, and so are all
    the attendance buckets that were stored for it. *)
Theorem commit_deletes_flagged_stored_members (db db' : Db)
    (this this' : SyncTroupe) (memberId : string) (m : MemberData) :
  persistSync db this = (Ok this', db') →
  (memberId, m) ∈ attendeeMap this →
  delete_ m = true → fromColl m = true →
  audienceColl db' !! m_id (member m) = None
  ∧ ∀ doc, doc ∈ eventsAttendedDocs m →
      eventsAttendedColl db' !! b_id doc = None.
Proof.
  intros (acc & updateEvents & Hprepare & _ & _ & _ & -> & ->)%persistSync_Ok
    Hin Hdelete Hstored.
  apply prepareSync_arrays in Hprepare as (_ & _ & Hm & Hdocs).
  assert (m ∈ jsobj_values (attendeeMap this)) as Hvalue.
  { unfold jsobj_values. by apply (list_elem_of_fmap_2 snd) in Hin. }
  assert (delete_ m && fromColl m = true) as Hflag
    by (by rewrite Hdelete, Hstored).
  split.
  - rewrite deleteMany_lookup, bool_decide_eq_true_2; [done|].
    rewrite Hm. apply (list_elem_of_fmap_2 (λ m, m_id (member m))).
    by apply list_elem_of_filter.
  - intros doc Hdoc.
    rewrite deleteMany_lookup, bool_decide_eq_true_2; [done|]. eauto.
Qed.

(** X10.  After a commit that went through, and with members of distinct
    ids in [this.attendeeMap], every member that is not both flagged and
    from storage is in the audience as [this.attendeeMap] holds it: a member
    found in this run is written even when it is flagged for deletion. *)
Theorem commit_writes_the_other_members (db db' : Db)
    (this this' : SyncTroupe) (memberId : string) (m : MemberData) :
  persistSync db this = (Ok this', db') →
  NoDup ((λ m, m_id (member m)) <$> jsobj_values (attendeeMap this)) →
  (memberId, m) ∈ attendeeMap this →
  delete_ m && fromColl m = false →
  audienceColl db' !! m_id (member m) = Some (member m).
Proof.
  intros (acc & updateEvents & Hprepare & _ & _ & _ & -> & _)%persistSync_Ok
    Hnodup Hin Hflag.
  apply prepareSync_arrays in Hprepare as (_ & Ha & Hm & _).
  assert (m ∈ jsobj_values (attendeeMap this)) as Hvalue.
  { unfold jsobj_values. by apply (list_elem_of_fmap_2 snd) in Hin. }
  rewrite deleteMany_lookup, bool_decide_eq_false_2.
  - rewrite Ha. apply bulkUpsert_lookup.
    + rewrite <- list_fmap_compose.
      eapply sublist_NoDup; [exact Hnodup|].
      apply fmap_sublist, sublist_filter.
    + apply list_elem_of_fmap_2. by apply list_elem_of_filter.
  - rewrite Hm.
    intros (m' & Hid & [Hflag' Hin']%list_elem_of_filter)%list_elem_of_fmap.
    assert (m' = m) as ->; [|congruence].
    apply list_elem_of_lookup in Hin' as [i Hi].
    apply list_elem_of_lookup in Hvalue as [j Hj].
    assert (i = j) as ->; [|congruence].
    eapply NoDup_lookup; [exact Hnodup| |].
    + rewrite list_lookup_fmap, Hi. done.
    + rewrite list_lookup_fmap, Hj. simpl. by rewrite Hid.
Qed.

(** What [persistSync] leaves alone, the counters of the limits
    included. *)
Lemma persistSync_frame (db : Db) (this : SyncTroupe) :
  let db' := (persistSync db this).2 in
  (∀ _id, _id ∉ (λ e, ev_id (event e)) <$> jsobj_values (eventMap this) →
     eventColl db' !! _id = eventColl db !! _id)
  ∧ (∀ _id, _id ∉ (λ m, m_id (member m)) <$> jsobj_values (attendeeMap this) →
       audienceColl db' !! _id = audienceColl db !! _id)
  ∧ (∀ troupeId, troupeId ≠ t_id (troupe this) →
       dashboardColl db' !! troupeId = dashboardColl db !! troupeId
       ∧ limitColl db' !! troupeId = limitColl db !! troupeId).
Proof.
  unfold persistSync.
  destruct (prepareSync this) as [[acc updateEvents]| |] eqn:Hprepare;
    [|done..].
  apply prepareSync_arrays in Hprepare as (-> & Ha & Hm & _).
  set (db1 := transactionWrites _ _ _ _).
  assert ((∀ _id, _id ∉ (λ e, ev_id (event e)) <$> jsobj_values (eventMap this) →
             eventColl db1 !! _id = eventColl db !! _id)
          ∧ (∀ _id, _id ∉ (λ m, m_id (member m))
                           <$> jsobj_values (attendeeMap this) →
               audienceColl db1 !! _id = audienceColl db !! _id)
          ∧ (∀ troupeId, troupeId ≠ t_id (troupe this) →
               dashboardColl db1 !! troupeId = dashboardColl db !! troupeId
               ∧ limitColl db1 !! troupeId = limitColl db !! troupeId))
    as Hwrites.
  { unfold db1, transactionWrites. simpl. split_and!.
    - intros _id Hid. apply bulkUpsert_lookup_ne.
      by rewrite <- list_fmap_compose.
    - intros _id Hid. rewrite deleteMany_lookup, Hm, Ha.
      rewrite bulkUpsert_lookup_ne.
      + rewrite bool_decide_eq_false_2; [done|].
        intros (m & -> & [_ Hin]%list_elem_of_filter)%list_elem_of_fmap.
        apply Hid. by apply (list_elem_of_fmap_2 (λ m, m_id (member m))).
      + rewrite <- list_fmap_compose.
        intros (m & -> & [_ Hin]%list_elem_of_filter)%list_elem_of_fmap.
        apply Hid. by apply (list_elem_of_fmap_2 (λ m, m_id (member m))).
    - intros troupeId Hne. split; [|done]. unfold upsertDashboard.
      destruct (totalAttendees _), (dashboardColl db !! t_id (troupe this));
        by rewrite lookup_insert_ne. }
  destruct (incrementTroupeLimits _ _ _) as [db2|] eqn:Hlimits.
  - assert (∀ troupeId, troupeId ≠ t_id (troupe this) →
              limitColl db2 !! troupeId = limitColl db1 !! troupeId) as Hl.
    { intros troupeId Hne. revert Hlimits. unfold incrementTroupeLimits.
      destruct (limitColl db1 !! t_id (troupe this)); simpl; [|done].
      case_bool_decide; [|done]. intros [= <-]. simpl.
      by rewrite lookup_insert_ne. }
    apply incrementTroupeLimits_frame in Hlimits as (_ & He & Hau & _ & Hd).
    assert ((∀ _id, _id ∉ (λ e, ev_id (event e))
                           <$> jsobj_values (eventMap this) →
               eventColl db2 !! _id = eventColl db !! _id)
            ∧ (∀ _id, _id ∉ (λ m, m_id (member m))
                             <$> jsobj_values (attendeeMap this) →
                 audienceColl db2 !! _id = audienceColl db !! _id)
            ∧ (∀ troupeId, troupeId ≠ t_id (troupe this) →
                 dashboardColl db2 !! troupeId = dashboardColl db !! troupeId
                 ∧ limitColl db2 !! troupeId = limitColl db !! troupeId))
      as Hcommitted.
    { rewrite He, Hau, Hd. destruct Hwrites as (? & ? & Hother).
      split_and!; try done. intros troupeId Hne.
      rewrite Hl by done. by apply Hother. }
    destruct (commitTransaction db2); simpl; [done|].
    by destruct sessionCoversWrites.
  - simpl. by destruct sessionCoversWrites.
Qed.

(** X11.  Whatever its outcome, [persistSync] writes no event, no member
    and no dashboard but those of the run: an event whose id is not in
    [this.eventMap], a member whose id is not in [this.attendeeMap] and the
    dashboards of the other tenants are as they were. *)
Theorem commit_leaves_the_rest (db : Db) (this : SyncTroupe) :
  let db' := (persistSync db this).2 in
  (∀ _id, _id ∉ (λ e, ev_id (event e)) <$> jsobj_values (eventMap this) →
     eventColl db' !! _id = eventColl db !! _id)
  ∧ (∀ _id, _id ∉ (λ m, m_id (member m)) <$> jsobj_values (attendeeMap this) →
       audienceColl db' !! _id = audienceColl db !! _id)
  ∧ (∀ troupeId, troupeId ≠ t_id (troupe this) →
       dashboardColl db' !! troupeId = dashboardColl db !! troupeId).
Proof.
  intros db'.
  destruct (persistSync_frame db this) as (Hevents & Hmembers & Hrest).
  split; [exact Hevents|]. split; [exact Hmembers|].
  intros troupeId Hne. by destruct (Hrest troupeId Hne).
Qed.

(** ** New buckets *)

Lemma recordAttendances_events memberData start len events0 u events u' :
  for_of (recordAttendance memberData) (seq start len) (events0, u)
  = Ok (events, u') →
  events
  = foldl (λ events a, <[eventId a := bucketEvent a]> events) events0
      (take len (drop start (eventsAttended memberData))).
Proof.
  revert start events0 u. induction len as [|len IH]; intros start events0 u;
    simpl.
  { by intros [= <- <-]. }
  destruct (recordAttendance memberData start (events0, u))
    as [[events1 u1]| |] eqn:Hstep; simpl; [|done..].
  unfold recordAttendance in Hstep.
  destruct (eventsAttended memberData !! start) as [a|] eqn:Ha;
    simpl in Hstep; [|done].
  destruct (countAttendance _ _) as [u2| |]; simpl in Hstep; [|done..].
  injection Hstep as <- <-.
  intros Hrest%IH. by rewrite (drop_S _ _ _ Ha).
Qed.

Lemma take_page {A} (records : list A) (start : nat) :
  take (Nat.min (start + 30) (length records) - start) (drop start records)
  = take 30 (drop start records).
Proof.
  destruct (decide (start + 30 ≤ length records)%nat).
  - rewrite Nat.min_l by done. f_equal. lia.
  - rewrite Nat.min_r by lia. rewrite !take_ge; [done|..];
      rewrite length_drop; lia.
Qed.

(** Without stored buckets the pages loop makes one bucket per page, with
    ids drawn in sequence, and fills each with the records of its page. *)
Lemma bucketPages_fresh fuel troupeId memberId memberData page docsProcessed
    acc page' acc' :
  eventsAttendedDocs memberData = [] →
  docsProcessed
  = Nat.min (page * MAX_PAGE_SIZE) (length (eventsAttended memberData)) →
  bucketPages fuel troupeId memberId memberData page docsProcessed acc
  = Ok (page', acc') →
  (page ≤ page')%nat
  ∧ updateEventsAttended acc'
    = updateEventsAttended acc
      ++ ((λ i, {| b_id := (nextObjectId (p_this acc) + i)%nat;
                   b_troupeId := troupeId; memberId := memberId;
                   page := (page + i)%nat;
                   events := pageRecords (eventsAttended memberData)
                               (page + i) |})
            <$> seq 0 (page' - page)).
Proof.
  intros Hnone. unfold pageRecords, MAX_PAGE_SIZE.
  revert page docsProcessed acc.
  induction fuel as [|fuel IH]; intros page docsProcessed acc Hinv; simpl;
    case_bool_decide as Hmore; try done.
  1,3: intros [= <- <-]; split; [done|];
    by rewrite Nat.sub_diag, app_nil_r.
  rewrite Hnone, lookup_nil.
  destruct (for_of _ _ _) as [[events u]| |] eqn:Hloop; simpl; [|done..].
  apply recordAttendances_events in Hloop.
  intros Hrun. apply IH in Hrun; [|unfold MAX_PAGE_SIZE; lia].
  destruct Hrun as (Hpage & ->). simpl. split; [lia|].
  replace (page' - page)%nat with (S (page' - S page)) by lia.
  rewrite <- app_assoc. f_equal. simpl.
  rewrite !Nat.add_0_r. f_equal.
  - f_equal. rewrite Hloop. f_equal. apply take_page.
  - rewrite <- fmap_S_seq, <- list_fmap_compose. apply list_fmap_ext.
    intros _ i _. simpl. by rewrite !Nat.add_succ_r.
Qed.

(** X13.  A member that is written and has no stored buckets gets one new
    bucket per page of [MAX_PAGE_SIZE] attendance records, in the order of
    the pages and with ids that are drawn one after the other; each bucket
    holds the records of its page and no other. *)
Theorem new_buckets_hold_their_pages (troupeId : oid) (cutoff : Z)
    (memberData : MemberData) (acc acc' : Persist) :
  delete_ memberData && fromColl memberData = false →
  eventsAttendedDocs memberData = [] →
  persistMember troupeId cutoff memberData acc = Ok acc' →
  let records := eventsAttended memberData in
  let pages := ((length records + (MAX_PAGE_SIZE - 1)) / MAX_PAGE_SIZE)%nat in
  updateEventsAttended acc'
  = updateEventsAttended acc
    ++ ((λ i, {| b_id := (nextObjectId (p_this acc) + i)%nat;
                 b_troupeId := troupeId; memberId := m_id (member memberData);
                 page := i; events := pageRecords records i |})
          <$> seq 0 pages)
  ∧ eventsAttendedToDelete acc' = eventsAttendedToDelete acc.
Proof.
  intros Hflag Hnone Hrun records pages.
  assert (pages
          = Nat.max 0 ((length (eventsAttended memberData) + (MAX_PAGE_SIZE - 1))
                       / MAX_PAGE_SIZE)) as Hpages' by done.
  clearbody pages. subst records.
  pose proof (persistMember_updates _ _ _ _ _ Hflag Hrun) as (_ & _ & Hd & _).
  rewrite Hnone, drop_nil, app_nil_r in Hd. split; [|done].
  unfold persistMember in Hrun. rewrite Hflag in Hrun.
  destruct (countMember _ _ _ _) as [u| |]; simpl in Hrun; [|done..].
  destruct (bucketPages _ _ _ _ _ _ _) as [[page acc1]| |] eqn:Hpages;
    simpl in Hrun; [|done..].
  injection Hrun as <-.
  pose proof (bucketPages_written _ _ _ _ _ _ _ _ _ eq_refl Hpages)
    as (Hpage & _).
  rewrite <- Hpages' in Hpage. subst page.
  apply bucketPages_fresh in Hpages as (_ & Hwritten); [|done..].
  cbn [updateEventsAttended p_this] in *. rewrite Hwritten, Nat.sub_0_r.
  done.
Qed.

(** ** The events and the Drive calls of a discovery *)

Lemma jsobj_get_elem {V} (k : string) (v : V) (o : jsobj string V) :
  jsobj_get k o = Some v → (k, v) ∈ o.
Proof.
  induction o as [|[k0 v0] o IH]; simpl; [done|].
  destruct (decide (k = k0)) as [->|Hne].
  - intros [= <-]. left.
  - intros Hget. right. by apply IH.
Qed.

Lemma jsobj_set_elem {V} (k k' : string) (v v' : V) (o : jsobj string V) :
  (k', v') ∈ jsobj_set k v o → (k', v') = (k, v) ∨ (k', v') ∈ o.
Proof.
  induction o as [|[k0 v0] o IH]; simpl.
  { intros ?%list_elem_of_singleton. by left. }
  destruct (decide (k = k0)) as [->|Hne].
  - intros [?|?]%elem_of_cons; [by left|]. right. by right.
  - intros [->|Hin]%elem_of_cons; [right; left|].
    destruct (IH Hin) as [?|?]; [by left|]. right. by right.
Qed.

Lemma exploreFile_keyed folderId current file d d' (troupeId : oid) :
  t_id (troupe (this_ d)) = troupeId →
  keyed_by_source troupeId (eventMap (this_ d)) →
  exploreFile folderId current file d = Ok d' →
  t_id (troupe (this_ d')) = troupeId
  ∧ keyed_by_source troupeId (eventMap (this_ d')).
Proof.
  intros Htroupe Hkeyed. unfold exploreFile. case_bool_decide.
  - destruct (performEventTypeTieBreaker _ _ _ _) as [w| |]; simpl; [|done..].
    case_bool_decide; [|by intros [= <-]].
    destruct (folderToEventTypeMap d !! folderId).
    + destruct w; simpl; [|done]. by intros [= <-].
    + case_bool_decide; [by intros [= <-]|].
      destruct w; simpl; [|done]. by intros [= <-].
  - destruct (indexOf _ _); [|by intros [= <-]].
    destruct (deref _) as [c| |]; simpl; [|done..].
    match goal with |- context [jsobj_get ?u _] => set (uri0 := u) end.
    destruct (jsobj_get uri0 _) as [eventData|] eqn:Hget.
    + intros [= <-]. simpl. split; [done|].
      intros uri ed [[= -> ->]|Hin]%jsobj_set_elem; [|by apply Hkeyed].
      apply jsobj_get_elem, Hkeyed in Hget. unfold backfillEventType.
      by destruct (eventTypeId (event eventData)).
    + case_bool_decide; [by intros [= <-]|].
      intros [= <-]. simpl. split; [done|].
      intros uri ed [[= -> ->]|Hin]%jsobj_set_elem; [done|by apply Hkeyed].
Qed.

Lemma exploreFolders_keyed fuel d d' (troupeId : oid) :
  t_id (troupe (this_ d)) = troupeId →
  keyed_by_source troupeId (eventMap (this_ d)) →
  exploreFolders fuel d = Ok d' →
  keyed_by_source troupeId (eventMap (this_ d')).
Proof.
  revert d. induction fuel as [|fuel IH]; intros d;
    destruct d as [this types map worklist discovered calls];
    destruct worklist as [|folderId rest]; simpl in *;
    try done; try (by intros ? ? [= <-]).
  intros Htroupe Hkeyed. case_bool_decide.
  { by apply IH. }
  destruct (drive_files_list calls folderId) as [| |files].
  - destruct (map !! folderId); simpl; [|done]. by apply IH.
  - by apply IH.
  - destruct (for_of _ _ _) as [d1| |] eqn:Hfiles; simpl; [|done..].
    eapply (for_of_invariant
              (λ x, t_id (troupe (this_ x)) = troupeId
                    ∧ keyed_by_source troupeId (eventMap (this_ x))))
      in Hfiles; [|intros file s s' [? ?]; by apply exploreFile_keyed|done].
    destruct Hfiles. by apply IH.
Qed.

(** X18.  When [discoverEvents] returns, every entry of [this.eventMap],
    loaded or new, is under the source URI of its event, and the event is an
    event of the tenant that is synchronized. *)
Theorem discovered_events_belong_to_the_tenant (db : Db) (this : SyncTroupe)
    (d : Discovery) :
  eventMap this = [] →
  runDiscovery db this = Ok d →
  keyed_by_source (t_id (troupe this)) (eventMap (this_ d)).
Proof.
  intros Hempty. unfold runDiscovery. set (loaded := foldl _ this _).
  assert (troupe loaded = troupe this
          ∧ keyed_by_source (t_id (troupe this)) (eventMap loaded))
    as [Htroupe Hkeyed].
  { unfold loaded.
    assert (Forall (λ ev, ev_troupeId ev = t_id (troupe this))
              (findEvents db (t_id (troupe this)))) as Hfound.
    { apply Forall_forall. unfold findEvents.
      by intros ev [? _]%list_elem_of_filter. }
    revert Hfound. generalize (findEvents db (t_id (troupe this))).
    intros l. induction l as [|ev l IH] using rev_ind; intros Hfound.
    - split; [done|]. simpl. rewrite Hempty. by intros ? ? ?%elem_of_nil.
    - apply Forall_app in Hfound as [Hl [Hev _]%Forall_cons].
      destruct (IH Hl) as [Ht Hk]. rewrite foldl_app. simpl.
      split; [done|].
      intros uri ed [[= -> ->]|Hin]%jsobj_set_elem; [done|by apply Hk]. }
  destruct (initializeEventTypes _ _ _) as [d0| |] eqn:Hinit; simpl; [|done..].
  apply initializeEventTypes_this in Hinit. simpl in Hinit.
  apply exploreFolders_keyed; rewrite Hinit; [by rewrite Htroupe|done].
Qed.

Lemma claimFolder_calls folderId index d d' :
  claimFolder folderId index d = Ok d' → driveCalls d' = driveCalls d.
Proof.
  unfold claimFolder.
  destruct (performEventTypeTieBreaker _ _ _ _) as [w| |]; simpl; [|done..].
  case_bool_decide; [|by intros [= <-]].
  destruct w; simpl; [|done].
  destruct (folderToEventTypeMap d !! folderId); by intros [= <-].
Qed.

Lemma initializeEventTypes_calls index (types : list EventTypeSchema) d d' :
  initializeEventTypes index types d = Ok d' →
  driveCalls d' = driveCalls d
  ∧ discoveredFolders d' = discoveredFolders d
  ∧ (length (foldersToExplore d')
     ≤ length (foldersToExplore d)
       + length (concat (sourceFolderUris <$> types)))%nat.
Proof.
  revert index d. induction types as [|eventType types IH]; intros index d;
    simpl; [intros [= <-]; split_and!; (done || lia)|].
  destruct (claimFolders _ _ _) as [d1| |] eqn:Hclaims; simpl; [|done..].
  intros (Hc & Hd & Hw)%IH. rewrite length_app.
  assert (driveCalls d1 = driveCalls d
          ∧ discoveredFolders d1 = discoveredFolders d
          ∧ (length (foldersToExplore d1)
             ≤ length (foldersToExplore d)
               + length (sourceFolderUris eventType))%nat)
    as (Hc1 & Hd1 & Hw1).
  { unfold claimFolders in Hclaims. revert d Hclaims.
    induction (sourceFolderUris eventType) as [|folder folders IHf];
      intros d; simpl; [intros [= <-]; split_and!; (done || lia)|].
    destruct (claimFolder _ _ _) as [d2| |] eqn:Hclaim; simpl; [|done..].
    intros (Hc2 & Hd2 & Hw2)%IHf.
    pose proof (claimFolder_calls _ _ _ _ Hclaim) as Hc3.
    apply claimFolder_worklist in Hclaim as [Hd3 Hw3].
    split_and!; [congruence..|].
    destruct Hw3 as [Hsame|Hpush]; [rewrite Hsame in Hw2; lia|].
    rewrite Hpush in Hw2. simpl in Hw2. lia. }
  split_and!; [congruence..|].
  change (list_fmap EventTypeSchema (list string) sourceFolderUris types)
    with (sourceFolderUris <$> types).
  lia.
Qed.

Lemma exploreFolders_calls fuel d d' (bound : nat) :
  NoDup (discoveredFolders d) →
  (length (discoveredFolders d) ≤ driveCalls d)%nat →
  (driveCalls d + length (foldersToExplore d) ≤ bound)%nat →
  exploreFolders fuel d = Ok d' →
  NoDup (discoveredFolders d')
  ∧ (length (discoveredFolders d') ≤ driveCalls d')%nat
  ∧ (driveCalls d' ≤ bound)%nat.
Proof.
  revert d. induction fuel as [|fuel IH]; intros d;
    destruct d as [this types map worklist discovered calls];
    destruct worklist as [|folderId rest]; simpl in *;
    try done; try (intros ? ? ? [= <-]; simpl; split_and!; (done || lia)).
  intros Hnodup Hlisted Hbound. simpl in *. case_bool_decide.
  { apply IH; simpl; (done || lia). }
  destruct (drive_files_list calls folderId) as [| |files].
  - destruct (map !! folderId); simpl; [|done].
    apply IH; simpl; rewrite ?drop_0; (done || lia).
  - apply IH; simpl; [by apply NoDup_cons|lia..].
  - destruct (for_of _ _ _) as [d1| |] eqn:Hfiles; simpl; [|done..].
    apply exploreFiles_locals in Hfiles as (Hw & _ & _ & Hd & Hc); [|done].
    simpl in *. apply IH; rewrite ?Hw, ?Hd, ?Hc; simpl;
      [by apply NoDup_cons|lia..].
Qed.

(** X19.  [discoverEvents] asks the Drive for at most one listing per
    folder URI that the event types declare, and no folder that it went
    through is gone through twice. *)
Theorem discovery_lists_within_the_declared_folders (db : Db)
    (this : SyncTroupe) (d : Discovery) :
  runDiscovery db this = Ok d →
  NoDup (discoveredFolders d)
  ∧ (length (discoveredFolders d) ≤ driveCalls d)%nat
  ∧ (driveCalls d
     ≤ length (concat (sourceFolderUris <$> eventTypes (troupe this))))%nat.
Proof.
  unfold runDiscovery. set (loaded := foldl _ this _).
  assert (troupe loaded = troupe this) as Htroupe.
  { unfold loaded. generalize (findEvents db (t_id (troupe this))).
    intros l. induction l as [|ev l IH] using rev_ind; [done|].
    by rewrite foldl_app. }
  rewrite Htroupe.
  destruct (initializeEventTypes _ _ _) as [d0| |] eqn:Hinit; simpl; [|done..].
  apply initializeEventTypes_calls in Hinit as (Hc & Hd & Hw). simpl in *.
  apply exploreFolders_calls; rewrite ?Hc, ?Hd; simpl;
    [apply NoDup_nil_2|lia..].
Qed.

(** ** Runs that fail *)

(** X12.  A tenant without a dashboard or without a limits document: the
    run fails before it reads anything else, [sync] swallows the error and
    returns to its caller as after a run that went through, and the database
    is as it was. *)
Theorem sync_swallows_a_failed_load (db : Db) (troupeId : oid)
    (skipLogPublish : bool) (schema : TroupeSchema) :
  troupeColl db !! troupeId = Some schema →
  syncLock schema = false →
  dashboardColl db !! troupeId = None ∨ getTroupeLimits db troupeId = None →
  sync db troupeId skipLogPublish = (Ok tt, db).
Proof.
  intros Hschema Hlock Hmissing. unfold sync. rewrite Hschema, Hlock.
  set (db1 := set_troupeColl _ db).
  assert (performSync db1 (lockTroupe true schema) troupeId skipLogPublish
          = (Throw TypeError, db1)) as ->.
  { unfold performSync, getTroupeLimits in *. simpl.
    destruct Hmissing as [->|Hlimits]; [done|].
    destruct (dashboardColl db !! troupeId); simpl; [|done].
    by rewrite Hlimits. }
  unfold db1. simpl. rewrite lookup_insert_eq. simpl. f_equal.
  destruct db as [troupes dashboards events audience buckets limits].
  unfold set_troupeColl. simpl in *. f_equal.
  apply map_eq. intros i. destruct (decide (i = troupeId)) as [->|Hne].
  - by rewrite lookup_alter_eq, lookup_insert_eq, Hschema; simpl;
      rewrite lockTroupe_unlock.
  - by rewrite lookup_alter_ne, lookup_insert_ne.
Qed.

(** ** The log *)

Context (validateLogUri : string → bool).

Local Abbreviation validateParams := (validateParams validateLogUri).

(** [every] with a callback that compares an element with the next one,
    and answers [true] for the last, decides whether the array is sorted;
    the read of the next element never fails. *)
Lemma every_from_adjacent {A} (r : A → A → bool) (R : A → A → Prop)
    (l prefix suffix : list A) :
  (∀ x y, r x y = true ↔ R x y) →
  l = prefix ++ suffix →
  ∃ b : bool,
    every_from
      (λ x i,
         if bool_decide (Z.of_nat i = Z.of_nat (length l) - 1) then Ok true
         else next ← deref (l !! (i + 1)%nat); Ok (r x next))
      (length prefix) suffix = Ok b
    ∧ (b = true ↔ Sorted R suffix).
Proof.
  intros Hr. revert prefix.
  induction suffix as [|x rest IH]; intros prefix Hl; simpl.
  { exists true. split; [done|]. split; [constructor|done]. }
  assert (length l = (length prefix + S (length rest))%nat) as Hlen
    by (by rewrite Hl, length_app).
  destruct rest as [|y rest].
  - rewrite bool_decide_eq_true_2 by (simpl in Hlen; lia). simpl.
    exists true. split; [done|]. split; [|done]. repeat constructor.
  - rewrite bool_decide_eq_false_2 by (simpl in Hlen; lia).
    assert (l !! (length prefix + 1)%nat = Some y) as ->.
    { rewrite Hl, lookup_app_r by lia.
      by replace (length prefix + 1 - length prefix)%nat with 1%nat by lia. }
    simpl. destruct (r x y) eqn:Hxy.
    + destruct (IH (prefix ++ [x])) as (b & Hrun & Hb).
      { by rewrite Hl, <- app_assoc. }
      rewrite length_app in Hrun. change (length [x]) with 1%nat in Hrun.
      rewrite Nat.add_1_r in Hrun.
      exists b. split; [exact Hrun|]. rewrite Hb. split.
      * intros Hsorted. constructor; [done|]. constructor. by apply Hr.
      * by intros [? ?]%Sorted_inv.
    + exists false. split; [done|]. split; [done|].
      intros [_ Hhd]%Sorted_inv. apply HdRel_inv in Hhd.
      apply Hr in Hhd. congruence.
Qed.

Lemma every_adjacent {A} (r : A → A → bool) (R : A → A → Prop) (l : list A) :
  (∀ x y, r x y = true ↔ R x y) →
  ∃ b : bool,
    every
      (λ x i,
         if bool_decide (Z.of_nat i = Z.of_nat (length l) - 1) then Ok true
         else next ← deref (l !! (i + 1)%nat); Ok (r x next))
      l = Ok b
    ∧ (b = true ↔ Sorted R l).
Proof. intros Hr. by apply (every_from_adjacent r R l []). Qed.

(** X14.  [validateParams] never raises, and it answers [true] exactly
    when the URI that counts, the one that is given or else the one of the
    troupe, is not empty and valid, the events that are given are in the
    order of their start dates, and the audience that is given is in the
    order of its total points, which all of its members but a single one
    must have. *)
Theorem validateParams_decides (uri : option string)
    (troupe : option TroupeSchema) (events : option (list EventSchema))
    (audience : option (list AttendeeSchema)) :
  ∃ b : bool,
    validateParams uri troupe events audience = Ok b
    ∧ (b = true ↔
       (∃ u, u ≠ ""%string ∧ validateLogUri u = true
             ∧ (uri = Some u
                ∨ (uri = None ∨ uri = Some ""%string)
                  ∧ logSheetUri <$> troupe = Some u))
       ∧ (∀ events', events = Some events' → Sorted startDate_le events')
       ∧ (∀ audience', audience = Some audience' → Sorted totals_le audience')).
Proof.
  unfold validateParams.
  set (chosen := match uri with
                 | Some u => if bool_decide (u = ""%string)
                             then logSheetUri <$> troupe else Some u
                 | None => logSheetUri <$> troupe
                 end).
  assert (∀ u, chosen = Some u ∧ u ≠ ""%string
               ↔ u ≠ ""%string
                 ∧ (uri = Some u
                    ∨ (uri = None ∨ uri = Some ""%string)
                      ∧ logSheetUri <$> troupe = Some u)) as Hchosen.
  { intros u. unfold chosen. destruct uri as [u0|]; [case_bool_decide|].
    - subst u0. split; [intros [? ?]; split; [done|]; right; split; auto|].
      intros [Hne [[= <-]|[_ ?]]]; done.
    - split; [intros [[= <-] ?]; split; [done|by left]|].
      intros [Hne [[= <-]|[[?|[= ?]] ?]]]; done.
    - split; [intros [? ?]; split; [done|]; right; split; auto|].
      intros [Hne [?|[_ ?]]]; done. }
  clearbody chosen.
  destruct chosen as [u|]; cycle 1.
  { exists false. split; [done|]. split; [done|].
    intros [(u & Hne & _ & Hu) _].
    by destruct (proj2 (Hchosen u) (conj Hne Hu)) as [? _]. }
  destruct (bool_decide (u = ""%string) || negb (validateLogUri u)) eqn:Huri.
  { exists false. split; [done|]. split; [done|].
    intros [(u' & Hne & Hvalid & Hu') _].
    destruct (proj2 (Hchosen u') (conj Hne Hu')) as [[= ->] _].
    apply orb_true_iff in Huri as [Hempty%bool_decide_eq_true|Hinvalid];
      [done|]. by rewrite Hvalid in Hinvalid. }
  apply orb_false_iff in Huri as [Hne%bool_decide_eq_false Hvalid%negb_false_iff].
  assert (∃ u', u' ≠ ""%string ∧ validateLogUri u' = true
                ∧ (uri = Some u'
                   ∨ (uri = None ∨ uri = Some ""%string)
                     ∧ logSheetUri <$> troupe = Some u')) as Hu.
  { exists u. split; [done|]. split; [done|].
    by apply (proj1 (Hchosen u)). }
  clear Hchosen.
  assert (∃ b : bool,
            match events with
            | Some events =>
                every
                  (λ event i,
                     if bool_decide (Z.of_nat i = Z.of_nat (length events) - 1)
                     then Ok true
                     else next ← deref (events !! (i + 1)%nat);
                          Ok (bool_decide (startDate event ≤ startDate next)))
                  events
            | None => Ok true
            end = Ok b
            ∧ (b = true ↔ ∀ events', events = Some events' →
                            Sorted startDate_le events'))
    as (eventsSorted & -> & Hevents).
  { destruct events as [events|].
    - destruct (every_adjacent
                  (λ a b, bool_decide (startDate a ≤ startDate b))
                  startDate_le events) as (b & Hrun & Hb).
      { intros x y. apply bool_decide_eq_true. }
      exists b. split; [done|]. rewrite Hb. split; [by intros ? ? [= <-]|auto].
    - exists true. split; [done|]. split; [by intros|done]. }
  simpl. destruct eventsSorted; simpl; cycle 1.
  { exists false. split; [done|]. split; [done|].
    intros (_ & Hsorted & _). by apply Hevents in Hsorted. }
  assert (∃ b : bool,
            match audience with
            | Some audience =>
                every
                  (λ member i,
                     if bool_decide
                          (Z.of_nat i = Z.of_nat (length audience) - 1)
                     then Ok true
                     else
                       next ← deref (audience !! (i + 1)%nat);
                       Ok match total member, total next with
                          | Some x, Some y => bool_decide (x ≤ y)
                          | _, _ => false
                          end)
                  audience
            | None => Ok true
            end = Ok b
            ∧ (b = true ↔ ∀ audience', audience = Some audience' →
                            Sorted totals_le audience'))
    as (audienceSorted & -> & Haudience).
  { destruct audience as [audience|].
    - destruct (every_adjacent
                  (λ a b, match total a, total b with
                          | Some x, Some y => bool_decide (x ≤ y)
                          | _, _ => false
                          end)
                  totals_le audience) as (b & Hrun & Hb).
      { intros x y. unfold totals_le.
        destruct (total x) as [tx|], (total y) as [ty|].
        - rewrite bool_decide_eq_true. split; [eauto|].
          by intros (? & ? & [= <-] & [= <-] & ?).
        - split; [done|]. by intros (? & ? & _ & [=] & _).
        - split; [done|]. by intros (? & ? & [=] & _).
        - split; [done|]. by intros (? & ? & [=] & _). }
      exists b. split; [done|]. rewrite Hb. split; [by intros ? ? [= <-]|auto].
    - exists true. split; [done|]. split; [by intros|done]. }
  simpl. destruct audienceSorted; simpl.
  - exists true. split; [done|]. split; [|done]. intros _.
    split; [done|]. split; [by apply Hevents|by apply Haudience].
  - exists false. split; [done|]. split; [done|].
    intros (_ & _ & Hsorted). by apply Haudience in Hsorted.
Qed.

Lemma Sorted_strengthen {A} (R R' : A → A → Prop) (P : A → Prop) (l : list A) :
  (∀ x y, P x → P y → R x y → R' x y) →
  Forall P l → Sorted R l → Sorted R' l.
Proof.
  intros HR HP Hsorted. induction Hsorted as [|x l Hsorted IH Hhd];
    [constructor|].
  apply Forall_cons in HP as [Hx Hl]. constructor; [by apply IH|].
  destruct Hhd as [|y l' Hxy]; constructor.
  apply Forall_cons in Hl as [Hy _]. by apply HR.
Qed.

#[local] Instance startDate_le_total : Total startDate_le.
Proof. intros a b. unfold startDate_le. lia. Qed.

#[local] Instance total_le_total : Total total_le.
Proof.
  intros a b. unfold total_le. destruct (total a), (total b); auto. lia.
Qed.

(** X15.  What [refreshLogSheet] hands to the log service: the events of
    [this.eventMap] in the order of their start dates, and one attendee for
    every member of [this.attendeeMap], those that the run deletes included.
    When all the members have total points the arguments are in the order
    that [validateParams] asks for, and they pass it when the log sheet URI
    of the troupe is valid. *)
Theorem log_arguments_are_in_order (this : SyncTroupe) :
  (∀ m, m ∈ jsobj_values (attendeeMap this) →
        is_Some (points (member m) !! "Total"%string)) →
  let '(uri, troupe_, events, audience) := logSheetArguments this in
  events ≡ₚ event <$> jsobj_values (eventMap this)
  ∧ audience ≡ₚ attendee <$> jsobj_values (attendeeMap this)
  ∧ validateParams (Some uri) (Some troupe_) (Some events) (Some audience)
    = Ok (bool_decide (uri ≠ ""%string) && validateLogUri uri).
Proof.
  intros Htotal. unfold logSheetArguments.
  set (events := merge_sort _ (event <$> _)).
  set (audience := merge_sort _ (attendee <$> _)).
  assert (events ≡ₚ event <$> jsobj_values (eventMap this)) as Hevents
    by apply merge_sort_Permutation.
  assert (audience ≡ₚ attendee <$> jsobj_values (attendeeMap this)) as Haudience
    by apply merge_sort_Permutation.
  split; [done|]. split; [done|].
  destruct (validateParams_decides (Some (logSheetUri (troupe this)))
              (Some (troupe this)) (Some events) (Some audience))
    as (b & -> & Hb).
  f_equal. apply eq_true_iff_eq. rewrite Hb. clear Hb.
  rewrite andb_true_iff, bool_decide_eq_true. split.
  - intros [(u & Hne & Hvalid & [[= <-]|[_ [= <-]]]) _]; done.
  - intros [Hne Hvalid]. split; [exists (logSheetUri (troupe this)); auto|].
    split.
    + intros ? [= <-]. apply (Sorted_merge_sort startDate_le).
    + intros ? [= <-].
      apply (Sorted_strengthen total_le totals_le (λ a, is_Some (total a))).
      * intros x y [tx Hx] [ty Hy]. unfold total_le, totals_le.
        rewrite Hx, Hy. eauto.
      * apply Forall_forall. intros a Ha. rewrite Haudience in Ha.
        apply list_elem_of_fmap in Ha as (m & -> & Hm). by apply Htotal.
      * apply (Sorted_merge_sort total_le).
Qed.

End Properties.

(** * The properties on the examples *)

Section Examples.

Import Sample.

(** The tie breaker on the two cases of its specification: an owner with
    two folders loses to a challenger with one, and so does an owner with
    one. *)
Lemma tie_breaker_ownership_witness :
  let d := contested 2 1 in
  discoveryEventTypes d !! 1%nat
  = Some {| eventType := typeB; totalFiles := 1 |}
  ∧ folderToEventTypeMap d !! "F"%string ≠ Some 1%nat
  ∧ (∀ owner, folderToEventTypeMap d !! "F"%string = Some owner →
              is_Some (discoveryEventTypes d !! owner))
  ∧ ∃ d', claimFolder "F" 1 d = Ok d'
          ∧ folderToEventTypeMap d' !! "F"%string = Some 1%nat
          ∧ totalFiles <$> discoveryEventTypes d' = [1; 2]
          ∧ foldersToExplore d' = ["F"; "F"]%string.
Proof.
  intros d.
  assert (discoveryEventTypes d !! 1%nat
          = Some {| eventType := typeB; totalFiles := 1 |}) as H1
    by reflexivity.
  assert (folderToEventTypeMap d !! "F"%string ≠ Some 1%nat) as H2
    by (vm_compute; discriminate).
  assert (∀ owner, folderToEventTypeMap d !! "F"%string = Some owner →
                   is_Some (discoveryEventTypes d !! owner)) as H3.
  { intros owner. vm_compute. intros [= <-]. eexists. reflexivity. }
  split; [exact H1|]. split; [exact H2|]. split; [exact H3|].
  destruct (tie_breaker_ownership d "F" 1 _ H1 H2 H3) as (d' & Hrun & Hspec).
  exists d'. split; [exact Hrun|].
  vm_compute in Hrun. injection Hrun as <-.
  vm_compute. repeat split; reflexivity.
Defined.

Example tie_goes_to_the_challenger :
  (d' ← claimFolder "F" 1 (contested 1 1);
   Ok (folderToEventTypeMap d' !! "F"%string,
       totalFiles <$> discoveryEventTypes d'))
  = Ok (Some 1%nat, [0; 2]).
Proof. vm_compute. reflexivity. Qed.

Example smaller_owner_keeps_the_folder :
  claimFolder "F" 1 (contested 1 2) = Ok (contested 1 2).
Proof. vm_compute. reflexivity. Qed.

Lemma sync_fails_fast_when_locked_witness :
  troupeColl (database true 5) !! troupeId = Some (tenant true)
  ∧ syncLock (tenant true) = true
  ∧ sync nobody (database true 5) troupeId false
    = (Throw (AssertionError "Troupe is already being synced"),
       database true 5).
Proof.
  split; [reflexivity|]. split; [reflexivity|].
  unfold sync.
  apply sync_fails_fast_when_locked with (schema := tenant true); reflexivity.
Defined.

Lemma sync_returns_and_unlocks_witness :
  troupeColl (database false 5) !! troupeId = Some (tenant false)
  ∧ syncLock (tenant false) = false
  ∧ ∃ db', sync (somebody "Ada") (database false 5) troupeId false = (Ok tt, db')
           ∧ syncLock <$> troupeColl db' !! troupeId = Some false.
Proof.
  split; [reflexivity|]. split; [reflexivity|].
  unfold sync.
  apply sync_returns_and_unlocks with (schema := tenant false); reflexivity.
Defined.

Lemma dashboard_statistics_witness :
  ∃ acc updateEvents,
    prepareSync (discovered "Ada") = Ok (acc, updateEvents)
    ∧ NoDup (et_id <$> eventTypes (troupe (discovered "Ada")))
    ∧ typeA ∈ eventTypes (troupe (discovered "Ada"))
    ∧ ∃ (e a : Z) (avg attendeeShare eventShare : Qc),
        let u := dashboardUpdate acc in
        let eventTypeId := et_id typeA in
        0 ≤ e ∧ 0 ≤ a
        ∧ s_value <$> totalEventsByEventType u !! eventTypeId = Some (JZ e)
        ∧ s_value <$> totalAttendeesByEventType u !! eventTypeId = Some (JZ a)
        ∧ s_value <$> avgAttendeesByEventType u !! eventTypeId = Some (JNum avg)
        ∧ p_value <$> attendeePercentageByEventType u !! eventTypeId
          = Some (JNum attendeeShare)
        ∧ p_value <$> eventPercentageByEventType u !! eventTypeId
          = Some (JNum eventShare)
        ∧ percent <$> attendeePercentageByEventType u !! eventTypeId
          = Some (JNum 0%Qc)
        ∧ percent <$> eventPercentageByEventType u !! eventTypeId
          = Some (JNum 0%Qc)
        ∧ (e = 0 → avg = 0%Qc ∧ attendeeShare = 0%Qc ∧ eventShare = 0%Qc)
        ∧ (0 < e →
           JNum avg = Math_round (js_div (JZ a) (JZ e))
           ∧ JNum avg = JZ ((2 * a + e) / (2 * e))).
Proof.
  destruct (prepareSync (discovered "Ada")) as [[acc updateEvents]| |] eqn:Hrun;
    [|vm_compute in Hrun; discriminate Hrun..].
  exists acc, updateEvents. split; [reflexivity|].
  assert (NoDup (et_id <$> eventTypes (troupe (discovered "Ada")))) as Hnodup
    by (vm_compute; apply NoDup_singleton).
  assert (typeA ∈ eventTypes (troupe (discovered "Ada"))) as Hin
    by (vm_compute; left).
  split; [exact Hnodup|]. split; [exact Hin|].
  exact (dashboard_statistics FULL_DAY now Number_of_string (discovered "Ada")
           acc updateEvents typeA Hrun Hnodup Hin).
Defined.

(** With two events and two attendance records the average is one, the
    events are all of the events and the share of the attendance is zero. *)
Example statistics_of_two_events :
  ('(acc, _) ← prepareSync (discovered "Ada");
   let u := dashboardUpdate acc in
   Ok (finite ∘ s_value <$> avgAttendeesByEventType u !! 1%nat,
       finite ∘ p_value <$> eventPercentageByEventType u !! 1%nat,
       finite ∘ p_value <$> attendeePercentageByEventType u !! 1%nat,
       totalAttendees u))
  = Ok (Some (Some (1 # 1)%Q), Some (Some (1 # 1)%Q), Some (Some (0 # 1)%Q),
        JNaN).
Proof. vm_compute. reflexivity. Qed.

Lemma sync_never_deletes_events_witness :
  ∃ this' eventData,
    (persistSync (database true 5) (discovered "Ada")).1 = Ok this'
    ∧ eventData ∈ jsobj_values (eventMap (discovered "Ada"))
    ∧ is_Some
        (eventColl (persistSync (database true 5) (discovered "Ada")).2
         !! ev_id (event eventData)).
Proof.
  destruct (persistSync (database true 5) (discovered "Ada")).1
    as [this'| |] eqn:Hrun; [|vm_compute in Hrun; discriminate Hrun..].
  assert (∃ eventData, eventData ∈ jsobj_values (eventMap (discovered "Ada")))
    as [eventData Hin].
  { destruct (jsobj_values (eventMap (discovered "Ada")))
      as [|eventData rest] eqn:Hevents;
      [vm_compute in Hevents; discriminate Hevents|].
    exists eventData. left. }
  exists this', eventData. split; [reflexivity|]. split; [exact Hin|].
  exact (proj2 (proj2 (sync_never_deletes_events DRIVE_FOLDER_MIME
           EVENT_DATA_SOURCE_MIME_TYPES EVENT_DATA_SOURCES FULL_DAY
           getDataSourceId getDataSourceUrl drive now nobody Date_toString
           Number_of_string commitTransaction true refreshLogSheet firstObjectId
           (database true 5) (discovered "Ada"))) this' eventData Hrun Hin).
Defined.

(** ** Where the code departs from its specification *)

(** C3.  One new event is left in the quota and the folder holds two files
    that were never seen: both become events, and the projected delta goes
    to [-2].  (The guard compares the snapshot with the delta, which are
    equal only while both are zero.) *)
Theorem quota_of_new_events_is_not_enforced :
  (d ← runDiscovery (database true 1) (started 1);
   Ok (eventsLeft (currentLimits (this_ d)),
       (λ e, (sourceUri (event e), ed_fromColl e))
         <$> jsobj_values (eventMap (this_ d)),
       eventsLeft (incrementLimits (this_ d))))
  = Ok (1, [("Google Sheets:s1"%string, false);
            ("Google Sheets:s2"%string, false)], -2).
Proof. vm_compute. reflexivity. Qed.

(** The commit of that run raises on the overdrawn quota, with the
    message of the assertion in [persistSync]. *)
Example overdrawn_quota_fails_the_commit :
  (discoverEvents (database true 1) (started 1)
   ≫= λ this, (persistSync (database true 1) this).1)
  = Throw (AssertionError
      "Invalid state -- limits exceeded for sync operation. This is unintended behavior.").
Proof. vm_compute. reflexivity. Qed.

(** With nothing left in the quota at the start no event is made. *)
Example exhausted_quota_admits_no_event :
  (d ← runDiscovery (database true 0) (started 0);
   Ok (jsobj_keys (eventMap (this_ d)), eventsLeft (incrementLimits (this_ d))))
  = Ok ([], 0).
Proof. vm_compute. reflexivity. Qed.

(** C8.  The folder ["F"] holds the folder ["G"], and there is quota for new
    folders: ["G"] is never listed, never owned and never counted, and the
    sheet in it does not become an event. *)
Theorem child_folder_is_never_explored :
  (d ← runDiscovery (database true 5) (started 5);
   Ok (discoveredFolders d, driveCalls d, folderToEventTypeMap d !! "G"%string,
       jsobj_keys (eventMap (this_ d)),
       sourceFolderUrisLeft (incrementLimits (this_ d))))
  = Ok (["F"%string], 1%nat, None,
        ["Google Sheets:s1"; "Google Sheets:s2"]%string, 0).
Proof. vm_compute. reflexivity. Qed.

(** A folder that two event types declare goes to the second, is put on
    the worklist a second time and is listed once; its files become events
    of the second event type. *)
Example transferred_folder_is_explored_once :
  (d ← runDiscovery (database true 5) rivals;
   Ok (folderToEventTypeMap d !! "F"%string,
       totalFiles <$> discoveryEventTypes d,
       discoveredFolders d, driveCalls d,
       (λ e, eventTypeId (event e)) <$> jsobj_values (eventMap (this_ d))))
  = Ok (Some 1%nat, [0; 1], ["F"%string], 1%nat, [Some 2%nat; Some 2%nat]).
Proof. vm_compute. reflexivity. Qed.

(** C7.  A stored member whose e-mail address is not overridden: after the
    initialization the address is still there; the overridden first name is
    kept and the points are zero. *)
Theorem stored_values_are_not_blanked :
  (this ← discoverAndRefreshAudience nobody databaseWithMember (started 5);
   Ok ((λ m, (properties (member m) !! "Email"%string,
              properties (member m) !! "First Name"%string,
              points (member m) !! "Total"%string,
              delete_ m))
         <$> jsobj_values (attendeeMap this)))
  = Ok [(Some {| value := PString "grace@example.org"; override := false |},
         Some {| value := PString "Grace"; override := true |},
         Some 0, false)].
Proof. vm_compute. reflexivity. Qed.

(** C4.  A person found in this run without a first name, which is
    required: the member is flagged for deletion and is not from storage,
    and the commit writes the member and a bucket of the member. *)
Theorem invalid_new_member_is_persisted :
  (λ m, (m_id (member m), delete_ m, fromColl m,
         value <$> properties (member m) !! "First Name"%string))
    <$> jsobj_values (attendeeMap (discovered ""))
  = [(1002%nat, true, false, Some (PString ""))]
  ∧ (let run := persistSync (database true 5) (discovered "") in
     (this ← run.1; Ok tt) = Ok tt
     ∧ audienceColl run.2 !! 1002%nat = Some (person 1002%nat "")
     ∧ (λ b, (memberId b, size (events b)))
         <$> (map_to_list (eventsAttendedColl run.2)).*2
       = [(1002%nat, 2%nat)])
  ∧ audienceColl (sync (somebody "") (database false 5) troupeId false).2
    !! 1002%nat
    = Some (person 1002%nat "").
Proof. vm_compute. repeat split; reflexivity. Qed.

(** C6.  65 attendance records and four stored buckets: the three buckets
    written are the stored ones as they were, one stale record each, and the
    fourth is deleted. *)
Theorem reused_buckets_keep_their_stale_records :
  (acc ← persistBusyMember 4;
   Ok (updateEventsAttended acc,
       (λ b, size (events b)) <$> updateEventsAttended acc,
       eventsAttendedToDelete acc))
  = Ok (staleBucket <$> [0; 1; 2]%nat, [1; 1; 1]%nat, [503%nat]).
Proof. vm_compute. reflexivity. Qed.

(** Without stored buckets the three pages hold 30, 30 and 5 records. *)
Example new_buckets_are_full :
  (acc ← persistBusyMember 0;
   Ok ((λ b, (page b, size (events b))) <$> updateEventsAttended acc,
       eventsAttendedToDelete acc))
  = Ok ([(0, 30); (1, 30); (2, 5)]%nat, []).
Proof. vm_compute. reflexivity. Qed.

(** ** More of the run, on the examples *)

Import Stored.

Lemma discovery_keeps_known_events_witness :
  ∃ d, runDiscovery databaseWithEvents (started 5) = Ok d
       ∧ ∀ ev, ev ∈ findEvents databaseWithEvents troupeId →
           ∃ ed, jsobj_get (sourceUri ev) (eventMap (this_ d)) = Some ed
                 ∧ ed_fromColl ed = true
                 ∧ sourceUri (event ed) = sourceUri ev.
Proof.
  destruct (runDiscovery databaseWithEvents (started 5)) as [d| |] eqn:Hrun;
    [|vm_compute in Hrun; discriminate Hrun..].
  exists d. split; [reflexivity|].
  exact (proj1 (discovery_keeps_known_events DRIVE_FOLDER_MIME
           EVENT_DATA_SOURCE_MIME_TYPES EVENT_DATA_SOURCES getDataSourceId
           getDataSourceUrl drive now databaseWithEvents (started 5) d Hrun)).
Defined.

(** The stored sheet without an event type gets the event type of its
    folder and keeps its [_id]; the stored sheet that is in no folder is as
    it was; the sheet ["s2"] is new. *)
Example stored_events_after_discovery :
  (d ← runDiscovery databaseWithEvents (started 5);
   Ok ((λ e, (ev_id (event e), eventTypeId (event e), ed_fromColl e))
         <$> jsobj_values (eventMap (this_ d)),
       eventsLeft (incrementLimits (this_ d))))
  = Ok ([(60%nat, Some 1%nat, true); (61%nat, Some 1%nat, true);
         (1000%nat, Some 1%nat, false)], -1).
Proof. vm_compute. reflexivity. Qed.

Lemma discovery_projects_one_per_new_event_witness :
  ∃ d, runDiscovery databaseWithEvents (started 5) = Ok d
       ∧ eventsLeft (incrementLimits (this_ d))
         = eventsLeft (incrementLimits (started 5))
           - (Z.of_nat (length (eventMap (this_ d)))
              - Z.of_nat
                  (length
                     (eventMap
                        (foldl (λ this ev, initializeEvent ev this) (started 5)
                           (findEvents databaseWithEvents troupeId))))).
Proof.
  destruct (runDiscovery databaseWithEvents (started 5)) as [d| |] eqn:Hrun;
    [|vm_compute in Hrun; discriminate Hrun..].
  exists d. split; [reflexivity|].
  exact (proj1 (discovery_projects_one_per_new_event DRIVE_FOLDER_MIME
           EVENT_DATA_SOURCE_MIME_TYPES EVENT_DATA_SOURCES getDataSourceId
           getDataSourceUrl drive now databaseWithEvents (started 5) d Hrun)).
Defined.

Lemma discovery_isolates_failed_listings_witness :
  NoDup (folderIdOf getDataSourceId
           <$> concat (sourceFolderUris <$> eventTypes (troupe (started 5))))
  ∧ ∃ d, runDiscoveryOffline (database true 5) (started 5) = Ok d.
Proof.
  assert (NoDup (folderIdOf getDataSourceId
                   <$> concat (sourceFolderUris
                                 <$> eventTypes (troupe (started 5)))))
    as Hnodup by (vm_compute; apply NoDup_singleton).
  split; [exact Hnodup|].
  exact (discovery_isolates_failed_listings DRIVE_FOLDER_MIME
           EVENT_DATA_SOURCE_MIME_TYPES EVENT_DATA_SOURCES getDataSourceId
           getDataSourceUrl offline now (database true 5) (started 5) Hnodup).
Defined.

(** With the Drive down the folder is dropped and no event is found. *)
Example no_listing_no_event :
  (d ← runDiscoveryOffline (database true 5) (started 5);
   Ok (discoveredFolders d, folderToEventTypeMap d !! "F"%string,
       jsobj_keys (eventMap (this_ d))))
  = Ok ([], None, []).
Proof. vm_compute. reflexivity. Qed.

Lemma failed_listing_of_a_folder_queued_twice_witness :
  (∀ call, offline call "F" = ListingFails)
  ∧ foldersToExplore handedOver = [] ++ "F"%string :: ["F"%string]
  ∧ "F"%string ∈ ["F"%string]
  ∧ ("F"%string ∉ discoveredFolders handedOver)
  ∧ (length (foldersToExplore handedOver) ≤ 2)%nat
  ∧ exploreFoldersOffline 2 handedOver = Throw TypeError.
Proof.
  assert (∀ call, offline call "F" = ListingFails) as H1 by reflexivity.
  assert (foldersToExplore handedOver = [] ++ "F"%string :: ["F"%string]) as H2
    by reflexivity.
  assert ("F"%string ∈ ["F"%string]) as H3 by left.
  assert ("F"%string ∉ discoveredFolders handedOver) as H4
    by apply not_elem_of_nil.
  assert (length (foldersToExplore handedOver) ≤ 2)%nat as H5
    by (simpl; lia).
  split; [exact H1|]. split; [exact H2|]. split; [exact H3|].
  split; [exact H4|]. split; [exact H5|].
  exact (failed_listing_of_a_folder_queued_twice DRIVE_FOLDER_MIME
           EVENT_DATA_SOURCE_MIME_TYPES EVENT_DATA_SOURCES getDataSourceUrl
           offline now 2 handedOver "F" [] ["F"%string] H1 H2 H3 H4 H5).
Defined.

(** The run of [rivals] reaches that state, and fails. *)
Example rivals_offline :
  initializeEventTypes getDataSourceId 0 (eventTypes (troupe rivals))
    {| this_ := rivals;
       discoveryEventTypes :=
         (λ eventType, {| eventType := eventType; totalFiles := 0 |})
           <$> eventTypes (troupe rivals);
       folderToEventTypeMap := ∅; foldersToExplore := [];
       discoveredFolders := []; driveCalls := 0 |}
  = Ok handedOver
  ∧ (d ← runDiscoveryOffline (database true 5) rivals; Ok tt) = Throw TypeError.
Proof. vm_compute. split; reflexivity. Qed.

Lemma unflagged_members_have_the_required_properties_witness :
  ∃ m,
    discoverAndRefreshAudience (somebody "Ada") (database true 5) explored
    = Ok (discovered "Ada")
    ∧ ("m1"%string, m) ∈ attendeeMap (discovered "Ada")
    ∧ delete_ m = false
    ∧ ("First Name", "string!")%string
      ∈ memberPropertyTypes (troupe (discovered "Ada"))
    ∧ endsWith "string!" "!" = true
    ∧ ∃ p, properties (member m) !! "First Name"%string = Some p
           ∧ truthy (value p) = true.
Proof.
  destruct (jsobj_get "m1"%string (attendeeMap (discovered "Ada")))
    as [m|] eqn:Hm; [|vm_compute in Hm; discriminate Hm].
  exists m.
  assert (discoverAndRefreshAudience (somebody "Ada") (database true 5) explored
          = Ok (discovered "Ada")) as H1 by (vm_compute; reflexivity).
  assert (("m1"%string, m) ∈ attendeeMap (discovered "Ada")) as H2
    by (by apply jsobj_get_elem).
  assert (delete_ m = false) as H3.
  { vm_compute in Hm. injection Hm as <-. reflexivity. }
  assert (("First Name", "string!")%string
          ∈ memberPropertyTypes (troupe (discovered "Ada"))) as H4.
  { vm_compute. right. left. }
  assert (endsWith "string!" "!" = true) as H5 by reflexivity.
  split; [exact H1|]. split; [exact H2|]. split; [exact H3|].
  split; [exact H4|]. split; [exact H5|].
  exact (unflagged_members_have_the_required_properties now (somebody "Ada")
           Date_toString (database true 5) explored (discovered "Ada") "m1" m
           "First Name" "string!" H1 H2 H3 H4 H5).
Defined.

Lemma stored_member_is_reinitialized_witness :
  ∃ this',
    initializeMember Date_toString databaseWithMember now storedMember
      (started 5) = Ok this'
    ∧ ∃ m, jsobj_get "m0"%string (attendeeMap this') = Some m
           ∧ fromColl m = true ∧ delete_ m = false ∧ eventsAttended m = [].
Proof.
  destruct (initializeMember Date_toString databaseWithMember now storedMember
              (started 5)) as [this'| |] eqn:Hrun;
    [|vm_compute in Hrun; discriminate Hrun..].
  exists this'. split; [reflexivity|].
  destruct (stored_member_is_reinitialized Date_toString databaseWithMember now
              storedMember (started 5) this' Hrun)
    as (memberId & m & Hid & Hget & Hstored & Hflag & Hnone & _).
  exists m. injection Hid as <-.
  split; [exact Hget|]. split; [exact Hstored|]. split; [exact Hflag|].
  exact Hnone.
Defined.

Lemma dashboard_counters_witness :
  ∃ acc updateEvents,
    prepareSync (discovered "Ada") = Ok (acc, updateEvents)
    ∧ totalEvents (dashboardUpdate acc)
      = Z.of_nat (length (eventMap (discovered "Ada")))
    ∧ totalMembers (dashboardUpdate acc)
      = Z.of_nat (length (updateAudience acc))
    ∧ avgAttendeesPerEvent (dashboardUpdate acc) = JZ 0
    ∧ not_a_count (totalAttendees (dashboardUpdate acc)).
Proof.
  destruct (prepareSync (discovered "Ada")) as [[acc updateEvents]| |] eqn:Hrun;
    [|vm_compute in Hrun; discriminate Hrun..].
  exists acc, updateEvents. split; [reflexivity|].
  destruct (dashboard_counters FULL_DAY now Number_of_string (discovered "Ada")
              acc updateEvents Hrun) as (He & _ & Hm & _ & Ha & Hn & _).
  split; [exact He|]. split; [exact Hm|]. split; [exact Ha|exact Hn].
Defined.

(** Two events and one member, who attended both: the number of attendees
    is [NaN]. *)
Example counters_of_two_events :
  (p ← prepareSync (discovered "Ada");
   Ok (totalEvents (dashboardUpdate p.1), totalMembers (dashboardUpdate p.1),
       totalAttendees (dashboardUpdate p.1)))
  = Ok (2, 1, JNaN).
Proof. vm_compute. reflexivity. Qed.

Lemma commit_deletes_flagged_stored_members_witness :
  ∃ this' db',
    persistSync databaseWithBucket leaving = (Ok this', db')
    ∧ ("m0"%string, leaver) ∈ attendeeMap leaving
    ∧ delete_ leaver = true ∧ fromColl leaver = true
    ∧ audienceColl db' !! 50%nat = None
    ∧ eventsAttendedColl db' !! 500%nat = None.
Proof.
  destruct (persistSync databaseWithBucket leaving) as [[this'| |] db'] eqn:Hrun;
    [|vm_compute in Hrun; discriminate Hrun..].
  exists this', db'. split; [reflexivity|].
  assert (("m0"%string, leaver) ∈ attendeeMap leaving) as Hin by left.
  split; [exact Hin|]. split; [reflexivity|]. split; [reflexivity|].
  destruct (commit_deletes_flagged_stored_members FULL_DAY now Number_of_string
              commitTransaction true databaseWithBucket db' leaving this'
              "m0" leaver Hrun Hin eq_refl eq_refl) as [Hmember Hbuckets].
  split; [exact Hmember|].
  apply (Hbuckets (staleBucket 0)). left.
Defined.

Lemma commit_writes_the_other_members_witness :
  ∃ this' db' m,
    persistSync (database true 5) (discovered "Ada") = (Ok this', db')
    ∧ NoDup ((λ m, m_id (member m))
               <$> jsobj_values (attendeeMap (discovered "Ada")))
    ∧ ("m1"%string, m) ∈ attendeeMap (discovered "Ada")
    ∧ delete_ m && fromColl m = false
    ∧ audienceColl db' !! m_id (member m) = Some (member m).
Proof.
  destruct (persistSync (database true 5) (discovered "Ada"))
    as [[this'| |] db'] eqn:Hrun; [|vm_compute in Hrun; discriminate Hrun..].
  destruct (jsobj_get "m1"%string (attendeeMap (discovered "Ada")))
    as [m|] eqn:Hm; [|vm_compute in Hm; discriminate Hm].
  exists this', db', m. split; [reflexivity|].
  assert (NoDup ((λ m, m_id (member m))
                   <$> jsobj_values (attendeeMap (discovered "Ada"))))
    as Hnodup by (vm_compute; apply NoDup_singleton).
  assert (("m1"%string, m) ∈ attendeeMap (discovered "Ada")) as Hin
    by (by apply jsobj_get_elem).
  assert (delete_ m && fromColl m = false) as Hflag.
  { vm_compute in Hm. injection Hm as <-. reflexivity. }
  split; [exact Hnodup|]. split; [exact Hin|]. split; [exact Hflag|].
  exact (commit_writes_the_other_members FULL_DAY now Number_of_string
           commitTransaction true (database true 5) db' (discovered "Ada")
           this' "m1" m Hrun Hnodup Hin Hflag).
Defined.

Lemma sync_swallows_a_failed_load_witness :
  troupeColl databaseWithoutDashboard !! troupeId = Some (tenant false)
  ∧ syncLock (tenant false) = false
  ∧ (dashboardColl databaseWithoutDashboard !! troupeId = None
     ∨ getTroupeLimits databaseWithoutDashboard troupeId = None)
  ∧ sync nobody databaseWithoutDashboard troupeId false
    = (Ok tt, databaseWithoutDashboard).
Proof.
  assert (troupeColl databaseWithoutDashboard !! troupeId
          = Some (tenant false)) as H1 by reflexivity.
  assert (dashboardColl databaseWithoutDashboard !! troupeId = None
          ∨ getTroupeLimits databaseWithoutDashboard troupeId = None) as H3
    by (left; reflexivity).
  split; [exact H1|]. split; [reflexivity|]. split; [exact H3|].
  exact (sync_swallows_a_failed_load DRIVE_FOLDER_MIME
           EVENT_DATA_SOURCE_MIME_TYPES EVENT_DATA_SOURCES FULL_DAY
           getDataSourceId getDataSourceUrl drive now nobody Date_toString
           Number_of_string commitTransaction true refreshLogSheet firstObjectId
           databaseWithoutDashboard troupeId false (tenant false) H1 eq_refl H3).
Defined.

Lemma new_buckets_hold_their_pages_witness :
  ∃ acc',
    persistBusyMember 0 = Ok acc'
    ∧ delete_ (busyMember 0) && fromColl (busyMember 0) = false
    ∧ eventsAttendedDocs (busyMember 0) = []
    ∧ updateEventsAttended acc'
      = (λ i, {| b_id := (1000 + i)%nat; b_troupeId := troupeId;
                 memberId := 50%nat; page := i;
                 events := pageRecords (eventsAttended (busyMember 0)) i |})
          <$> [0; 1; 2]%nat.
Proof.
  destruct (persistBusyMember 0) as [acc'| |] eqn:Hrun;
    [|vm_compute in Hrun; discriminate Hrun..].
  exists acc'. split; [reflexivity|]. split; [reflexivity|].
  split; [reflexivity|].
  exact (proj1 (new_buckets_hold_their_pages Number_of_string troupeId
                  (now + FULL_DAY * 30) (busyMember 0) emptyPersist acc'
                  eq_refl eq_refl Hrun)).
Defined.

Lemma log_arguments_are_in_order_witness :
  (∀ m, m ∈ jsobj_values (attendeeMap (discovered "Ada")) →
        is_Some (points (member m) !! "Total"%string))
  ∧ (let '(uri, troupe_, events, audience) :=
       logSheetArguments (discovered "Ada") in
     validateParams validateLogUri (Some uri) (Some troupe_) (Some events)
       (Some audience) = Ok true
     ∧ length events = 2%nat ∧ length audience = 1%nat).
Proof.
  assert (∀ m, m ∈ jsobj_values (attendeeMap (discovered "Ada")) →
               is_Some (points (member m) !! "Total"%string)) as Htotal.
  { intros m Hm.
    destruct (jsobj_values (attendeeMap (discovered "Ada")))
      as [|m0 [|m1 rest]] eqn:Hvalues;
      [vm_compute in Hvalues; discriminate Hvalues| |
       vm_compute in Hvalues; discriminate Hvalues].
    apply list_elem_of_singleton in Hm as ->.
    vm_compute in Hvalues. injection Hvalues as <-.
    eexists. reflexivity. }
  split; [exact Htotal|].
  pose proof (log_arguments_are_in_order validateLogUri (discovered "Ada")
                Htotal) as Hlog.
  unfold logSheetArguments in *. cbv beta iota in *.
  destruct Hlog as (Hevents & Haudience & ->).
  split; [reflexivity|].
  split.
  - apply Permutation_length in Hevents. rewrite Hevents. reflexivity.
  - apply Permutation_length in Haudience. rewrite Haudience. reflexivity.
Defined.

Lemma explored_folders_are_declared_witness :
  ∃ d, runDiscovery (database true 5) (started 5) = Ok d
       ∧ "F"%string ∈ discoveredFolders d
       ∧ ∃ eventType folder,
           eventType ∈ eventTypes (troupe (started 5))
           ∧ folder ∈ sourceFolderUris eventType
           ∧ "F"%string = folderIdOf getDataSourceId folder.
Proof.
  destruct (runDiscovery (database true 5) (started 5)) as [d| |] eqn:Hrun;
    [|vm_compute in Hrun; discriminate Hrun..].
  exists d. split; [reflexivity|].
  assert ("F"%string ∈ discoveredFolders d) as Hin.
  { pose proof Hrun as Hd. vm_compute in Hd. injection Hd as <-. left. }
  split; [exact Hin|].
  exact (explored_folders_are_declared DRIVE_FOLDER_MIME
           EVENT_DATA_SOURCE_MIME_TYPES EVENT_DATA_SOURCES getDataSourceId
           getDataSourceUrl drive now (database true 5) (started 5) d "F"
           Hrun Hin).
Defined.

Lemma exhausted_quota_admits_no_new_event_witness :
  eventsLeft (currentLimits (started 0)) = 0
  ∧ eventsLeft (incrementLimits (started 0)) = 0
  ∧ ∃ d, runDiscovery (database true 0) (started 0) = Ok d
         ∧ jsobj_keys (eventMap (this_ d)) = []
         ∧ eventsLeft (incrementLimits (this_ d)) = 0.
Proof.
  split; [reflexivity|]. split; [reflexivity|].
  destruct (runDiscovery (database true 0) (started 0)) as [d| |] eqn:Hrun;
    [|vm_compute in Hrun; discriminate Hrun..].
  exists d. split; [reflexivity|].
  exact (exhausted_quota_admits_no_new_event DRIVE_FOLDER_MIME
           EVENT_DATA_SOURCE_MIME_TYPES EVENT_DATA_SOURCES getDataSourceId
           getDataSourceUrl drive now (database true 0) (started 0) d
           eq_refl eq_refl Hrun).
Defined.

Lemma discovered_events_belong_to_the_tenant_witness :
  eventMap (started 5) = []
  ∧ ∃ d, runDiscovery databaseWithEvents (started 5) = Ok d
         ∧ keyed_by_source troupeId (eventMap (this_ d)).
Proof.
  split; [reflexivity|].
  destruct (runDiscovery databaseWithEvents (started 5)) as [d| |] eqn:Hrun;
    [|vm_compute in Hrun; discriminate Hrun..].
  exists d. split; [reflexivity|].
  exact (discovered_events_belong_to_the_tenant DRIVE_FOLDER_MIME
           EVENT_DATA_SOURCE_MIME_TYPES EVENT_DATA_SOURCES getDataSourceId
           getDataSourceUrl drive now databaseWithEvents (started 5) d
           eq_refl Hrun).
Defined.

Lemma discovery_lists_within_the_declared_folders_witness :
  ∃ d, runDiscovery databaseWithEvents (started 5) = Ok d
       ∧ NoDup (discoveredFolders d)
       ∧ (length (discoveredFolders d) ≤ driveCalls d)%nat
       ∧ (driveCalls d ≤ 1)%nat.
Proof.
  destruct (runDiscovery databaseWithEvents (started 5)) as [d| |] eqn:Hrun;
    [|vm_compute in Hrun; discriminate Hrun..].
  exists d. split; [reflexivity|].
  exact (discovery_lists_within_the_declared_folders DRIVE_FOLDER_MIME
           EVENT_DATA_SOURCE_MIME_TYPES EVENT_DATA_SOURCES getDataSourceId
           getDataSourceUrl drive now databaseWithEvents (started 5) d Hrun).
Defined.

Lemma stored_member_without_id_fails_the_run_witness :
  nameless ∈ findMembers databaseWithNameless (t_id (troupe (started 5)))
  ∧ properties nameless !! "Member ID"%string = None
  ∧ discoverAndRefreshAudience nobody databaseWithNameless (started 5)
    = Throw TypeError.
Proof.
  assert (nameless ∈ findMembers databaseWithNameless (t_id (troupe (started 5))))
    as Hin.
  { unfold findMembers. apply list_elem_of_filter. split; [reflexivity|].
    apply (list_elem_of_fmap_2 snd (map_to_list _) (51%nat, nameless)).
    apply elem_of_map_to_list. reflexivity. }
  split; [exact Hin|]. split; [reflexivity|].
  exact (stored_member_without_id_fails_the_run now nobody Date_toString
           databaseWithNameless (started 5) nameless Hin eq_refl).
Defined.

End Examples.
